(** * Verified models of the goit-algo-fp exercises

    Shallow embeddings of the algorithmic functions of the repository and
    proofs of their specifications:

    - [Task1]: task1.py, the singly linked list: reversal and merge sort on
      a store of node objects, with the next pointers rewired in place;
    - [Task3]: task3.py, Dijkstra's algorithm with a heap and lazy deletion,
      and the reconstruction of paths from the predecessors, on integer
      weights;
    - [Task3Float]: the same classes and algorithm on float weights, for
      the behaviour that integers do not show (nan, inf, overflow);
    - [Task5]: task5.py, the depth-first and breadth-first traversals of a
      binary tree with an explicit stack and queue;
    - [Task6]: task6.py, the greedy and the dynamic-programming selection of
      dishes under a budget.

    Python integers are [Z]; exceptions are [None] or [Raise]; loops that
    may not terminate on arbitrary inputs take a fuel argument, and the
    theorems give the fuel that suffices. *)

From Stdlib Require Import ZArith Lia QArith PrimFloat.
From stdpp Require Import gmap strings list sorting.
From Equations Require Import Equations.
Set Warnings "-register-all".

Module Task1.
Local Open Scope Z_scope.

(* Node objects live in a store indexed by object identity. *)
Definition loc := nat.

Record Node := mk_node { data : Z; next : option loc }.

Record LinkedList := mk_list { head : option loc }.

Abbreviation store := (gmap loc Node).

(* obj.next = v *)
Definition set_next (σ : store) (l : loc) (v : option loc) : option store :=
  n ← σ !! l; Some (<[l := mk_node (data n) v]> σ).

(* Node(d): a new object, distinct from all existing ones *)
Definition alloc (σ : store) (d : Z) : store * loc :=
  let l := fresh (dom σ) in (<[l := mk_node d None]> σ, l).

Fixpoint to_list_loop (fuel : nat) (σ : store) (current : option loc)
    (result : list Z) : option (list Z) :=
  match fuel with
  | O => None
  | S fuel' =>
      match current with
      | None => Some result
      | Some c =>
          n ← σ !! c;
          to_list_loop fuel' σ (next n) (result ++ [data n])
      end
  end.

Definition to_list (fuel : nat) (σ : store) (self : LinkedList) : option (list Z) :=
  to_list_loop fuel σ (head self) [].

Fixpoint reverse_loop (fuel : nat) (σ : store) (prev current : option loc)
    : option (store * option loc) :=
  match fuel with
  | O => None
  | S fuel' =>
      match current with
      | None => Some (σ, prev)
      | Some c =>
          n ← σ !! c;
          let next_node := next n in
          σ' ← set_next σ c prev;
          reverse_loop fuel' σ' (Some c) next_node
      end
  end.

Definition reverse_linked_list (fuel : nat) (σ : store) (linked_list : LinkedList)
    : option (store * LinkedList) :=
  '(σ', prev) ← reverse_loop fuel σ None (head linked_list);
  Some (σ', mk_list prev).

Fixpoint get_middle_loop (fuel : nat) (σ : store) (slow fast : option loc)
    : option (option loc) :=
  match fuel with
  | O => None
  | S fuel' =>
      match fast with
      | None => Some slow
      | Some f =>
          nf ← σ !! f;
          match next nf with
          | None => Some slow
          | Some f1 =>
              nf1 ← σ !! f1;
              match next nf1 with
              | None => Some slow
              | Some f2 =>
                  slow' ← match slow with
                          | Some s => ns ← σ !! s; Some (next ns)
                          | None => Some None
                          end;
                  get_middle_loop fuel' σ slow' (Some f2)
              end
          end
      end
  end.

Definition get_middle (fuel : nat) (σ : store) (head : option loc)
    : option (option loc) :=
  match head with
  | None => Some None
  | Some _ => get_middle_loop fuel σ head head
  end.

Fixpoint merge_loop (fuel : nat) (σ : store) (tail : loc)
    (node1 node2 : option loc) : option store :=
  match fuel with
  | O => None
  | S fuel' =>
      match node1, node2 with
      | Some l1, Some l2 =>
          n1 ← σ !! l1; n2 ← σ !! l2;
          if bool_decide (data n1 ≤ data n2) then
            σ' ← set_next σ tail node1;
            n1' ← σ' !! l1;
            nt ← σ' !! tail;
            tail' ← next nt;
            merge_loop fuel' σ' tail' (next n1') node2
          else
            σ' ← set_next σ tail node2;
            n2' ← σ' !! l2;
            nt ← σ' !! tail;
            tail' ← next nt;
            merge_loop fuel' σ' tail' node1 (next n2')
      | _, _ =>
          set_next σ tail (if node1 is Some _ then node1 else node2)
      end
  end.

Definition merge_sorted_lists_nodes (fuel : nat) (σ : store)
    (node1 node2 : option loc) : option (store * option loc) :=
  let '(σ0, dummy) := alloc σ 0 in
  σ' ← merge_loop fuel σ0 dummy node1 node2;
  d ← σ' !! dummy;
  Some (σ', next d).

Fixpoint sort (fuel : nat) (σ : store) (node : option loc)
    : option (store * option loc) :=
  match fuel with
  | O => None
  | S fuel' =>
      match node with
      | None => Some (σ, node)
      | Some l =>
          n ← σ !! l;
          match next n with
          | None => Some (σ, node)
          | Some _ =>
              middle ← get_middle fuel' σ node;
              match middle with
              | None => Some (σ, node)
              | Some m =>
                  nm ← σ !! m;
                  let next_to_middle := next nm in
                  σ1 ← set_next σ m None;
                  '(σ2, left_half) ← sort fuel' σ1 node;
                  '(σ3, right_half) ← sort fuel' σ2 next_to_middle;
                  merge_sorted_lists_nodes fuel' σ3 left_half right_half
              end
          end
      end
  end.

Definition merge_sort_linked_list (fuel : nat) (σ : store)
    (linked_list : LinkedList) : option (store * LinkedList) :=
  match head linked_list with
  | None => Some (σ, linked_list)
  | Some h =>
      n ← σ !! h;
      match next n with
      | None => Some (σ, linked_list)
      | Some _ =>
          '(σ', sorted) ← sort fuel σ (head linked_list);
          Some (σ', mk_list sorted)
      end
  end.

(* The methods and functions below mutate their arguments: they return the
   store after the call beside the list object. *)
Definition insert_at_beginning (σ : store) (self : LinkedList) (d : Z)
    : option (store * LinkedList) :=
  let '(σ1, new_node) := alloc σ d in
  σ2 ← set_next σ1 new_node (head self);
  Some (σ2, mk_list (Some new_node)).

(* while current.next: current = current.next *)
Fixpoint last_node_loop (fuel : nat) (σ : store) (current : loc) : option loc :=
  match fuel with
  | O => None
  | S fuel' =>
      n ← σ !! current;
      match next n with
      | Some c => last_node_loop fuel' σ c
      | None => Some current
      end
  end.

Definition insert_at_end (fuel : nat) (σ : store) (self : LinkedList) (d : Z)
    : option (store * LinkedList) :=
  let '(σ1, new_node) := alloc σ d in
  match head self with
  | None => Some (σ1, mk_list (Some new_node))
  | Some h =>
      current ← last_node_loop fuel σ1 h;
      σ2 ← set_next σ1 current (Some new_node);
      Some (σ2, self)
  end.

(* the loop is the one of merge_sorted_lists_nodes, on the heads of the lists *)
Definition merge_sorted_lists (fuel : nat) (σ : store) (list1 list2 : LinkedList)
    : option (store * LinkedList) :=
  let '(σ0, dummy) := alloc σ 0 in
  σ' ← merge_loop fuel σ0 dummy (head list1) (head list2);
  d ← σ' !! dummy;
  Some (σ', mk_list (next d)).

(* llist = LinkedList(); llist.insert_at_end(v) for each v, as main() does *)
Fixpoint insert_all_at_end (fuel : nat) (σ : store) (self : LinkedList)
    (vs : list Z) : option (store * LinkedList) :=
  match vs with
  | [] => Some (σ, self)
  | v :: vs' =>
      '(σ', self') ← insert_at_end fuel σ self v;
      insert_all_at_end fuel σ' self' vs'
  end.

(* A store holding the list 5 -> 3 -> 8 -> 1 -> 9 of main(). *)
Definition demo_store : store :=
  list_to_map [(0%nat, mk_node 5 (Some 1%nat)); (1%nat, mk_node 3 (Some 2%nat));
               (2%nat, mk_node 8 (Some 3%nat)); (3%nat, mk_node 1 (Some 4%nat));
               (4%nat, mk_node 9 None)].
Definition demo_list : LinkedList := mk_list (Some 0%nat).


(* The same elements in the opposite order. *)
Definition demo_store_reversed : store :=
  list_to_map [(0%nat, mk_node 9 (Some 1%nat)); (1%nat, mk_node 1 (Some 2%nat));
               (2%nat, mk_node 8 (Some 3%nat)); (3%nat, mk_node 3 (Some 4%nat));
               (4%nat, mk_node 5 None)].

(* The lists 1 -> 3 -> 5 and 2 -> 4 -> 6 that main() merges. *)
Definition merge_demo_store : store :=
  list_to_map [(0%nat, mk_node 1 (Some 1%nat)); (1%nat, mk_node 3 (Some 2%nat));
               (2%nat, mk_node 5 None); (3%nat, mk_node 2 (Some 4%nat));
               (4%nat, mk_node 4 (Some 5%nat)); (5%nat, mk_node 6 None)].
Definition merge_demo_list1 : LinkedList := mk_list (Some 0%nat).
Definition merge_demo_list2 : LinkedList := mk_list (Some 3%nat).

(* Representation: the chain of objects from p up to (excluding) q. *)
Fixpoint lseg (σ : store) (p q : option loc) (ls : list loc) : Prop :=
  match ls with
  | [] => p = q
  | l :: ls' => p = Some l ∧ ∃ n, σ !! l = Some n ∧ lseg σ (next n) q ls'
  end.

Abbreviation is_list σ p ls := (lseg σ p None ls).

Definition data_of (σ : store) (l : loc) : Z := from_option data 0 (σ !! l).

Definition values (σ : store) (ls : list loc) : list Z := data_of σ <$> ls.

(* σ' keeps every object of σ with its data; only the next fields of the
   objects in fp may differ. *)
Definition rewires (fp : list loc) (σ σ' : store) : Prop :=
  ∀ l n, σ !! l = Some n →
    ∃ n', σ' !! l = Some n' ∧ data n' = data n ∧ (l ∉ fp → n' = n).

Definition by_key (d : loc → Z) : relation loc := λ a b, d a ≤ d b.

#[local] Instance by_key_dec d a b : Decision (by_key d a b).
Proof. unfold by_key. apply _. Defined.

#[local] Instance by_key_total d : Total (by_key d).
Proof. intros a b. unfold by_key. lia. Qed.

Lemma lseg_app σ p q a b :
  lseg σ p q (a ++ b) ↔ ∃ r, lseg σ p r a ∧ lseg σ r q b.
Proof.
  revert p. induction a as [|l a IH]; intros p; simpl.
  - split; [intros H; eauto | intros (r & -> & H); done].
  - split.
    + intros (-> & n & Hn & H). apply IH in H as (r & Ha & Hb). eauto 8.
    + intros (r & (-> & n & Hn & Ha) & Hb). split; [done|].
      exists n. split; [done|]. apply IH. eauto.
Qed.

Lemma lseg_frame σ σ' p q ls :
  (∀ l, l ∈ ls → σ' !! l = σ !! l) → lseg σ p q ls → lseg σ' p q ls.
Proof.
  revert p. induction ls as [|l ls IH]; intros p Hfr; simpl; [done|].
  intros (-> & n & Hn & H). split; [done|]. exists n. split.
  - rewrite Hfr; [done | apply elem_of_cons; by left].
  - apply IH; [|done]. intros k Hk. apply Hfr, elem_of_cons. by right.
Qed.

Lemma is_list_functional σ p l1 : ∀ l2,
  is_list σ p l1 → is_list σ p l2 → l1 = l2.
Proof.
  revert p. induction l1 as [|a l1 IH]; intros p [|b l2]; simpl.
  - done.
  - intros -> (? & _). done.
  - intros (-> & _) ?. done.
  - intros (-> & n & Hn & H1) (Heq & n' & Hn' & H2).
    injection Heq as <-. rewrite Hn in Hn'. injection Hn' as <-.
    f_equal. eauto.
Qed.

Lemma is_list_NoDup σ p ls : is_list σ p ls → NoDup ls.
Proof.
  revert p. induction ls as [|l ls IH]; intros p H; [constructor|].
  pose proof H as H0. destruct H as (-> & n & Hn & H).
  constructor; [|by eapply IH].
  intros Hin. apply list_elem_of_split in Hin as (a & b & ->).
  pose proof H as H1. apply lseg_app in H1 as (r & _ & Hb).
  pose proof Hb as (-> & _).
  assert (l :: b = l :: a ++ l :: b) as Heq
    by (eapply is_list_functional; [exact Hb | exact H0]).
  apply (f_equal length) in Heq. simpl in Heq. rewrite length_app in Heq.
  simpl in Heq. lia.
Qed.

Lemma rewires_refl fp σ : rewires fp σ σ.
Proof. intros l n Hn. eauto. Qed.

Lemma rewires_trans fp1 fp2 fp σ1 σ2 σ3 :
  rewires fp1 σ1 σ2 → rewires fp2 σ2 σ3 →
  (∀ l, l ∈ fp1 → l ∈ fp) → (∀ l, l ∈ fp2 → l ∈ fp) →
  rewires fp σ1 σ3.
Proof.
  intros H12 H23 S1 S2 l n Hn.
  destruct (H12 l n Hn) as (n2 & Hn2 & Hd2 & Hf2).
  destruct (H23 l n2 Hn2) as (n3 & Hn3 & Hd3 & Hf3).
  exists n3. split; [done|]. split; [congruence|].
  intros Hl. rewrite Hf3, Hf2; auto.
Qed.

Lemma rewires_lookup fp σ σ' l :
  rewires fp σ σ' → is_Some (σ !! l) → l ∉ fp → σ' !! l = σ !! l.
Proof.
  intros Hr [n Hn] Hl. destruct (Hr l n Hn) as (n' & Hn' & _ & Hf).
  rewrite Hn', Hn, Hf; done.
Qed.

Lemma rewires_data_of fp σ σ' l :
  rewires fp σ σ' → is_Some (σ !! l) → data_of σ' l = data_of σ l.
Proof.
  intros Hr [n Hn]. destruct (Hr l n Hn) as (n' & Hn' & Hd & _).
  unfold data_of. rewrite Hn', Hn. done.
Qed.

Lemma lseg_is_Some σ p q ls l : lseg σ p q ls → l ∈ ls → is_Some (σ !! l).
Proof.
  revert p. induction ls as [|k ls IH]; intros p H Hl.
  - by apply elem_of_nil in Hl.
  - destruct H as (-> & n & Hn & H). apply elem_of_cons in Hl as [->|Hl]; eauto.
Qed.

Lemma lseg_rewires fp σ σ' p q ls :
  rewires fp σ σ' → (∀ l, l ∈ ls → l ∉ fp) →
  lseg σ p q ls → lseg σ' p q ls.
Proof.
  intros Hr Hdisj H. eapply lseg_frame; [|done].
  intros l Hl. eapply rewires_lookup; eauto using lseg_is_Some.
Qed.

Lemma set_next_rewires σ σ' l v :
  set_next σ l v = Some σ' → rewires [l] σ σ'.
Proof.
  unfold set_next. destruct (σ !! l) as [n|] eqn:Hn; simpl; [|done].
  intros [= <-] k nk Hk. destruct (decide (k = l)) as [->|Hne].
  - rewrite lookup_insert_eq. rewrite Hn in Hk. injection Hk as <-.
    eexists. split; [done|]. split; [done|].
    intros Hl. exfalso. apply Hl. apply elem_of_cons. by left.
  - rewrite lookup_insert_ne by done. eauto.
Qed.

Lemma set_next_lookup σ l n v :
  σ !! l = Some n →
  ∃ σ', set_next σ l v = Some σ' ∧ σ' !! l = Some (mk_node (data n) v).
Proof.
  intros Hn. unfold set_next. rewrite Hn. simpl. eexists. split; [done|].
  apply lookup_insert_eq.
Qed.

Lemma to_list_loop_spec σ ls : ∀ fuel p acc,
  is_list σ p ls → (length ls < fuel)%nat →
  to_list_loop fuel σ p acc = Some (acc ++ values σ ls).
Proof.
  induction ls as [|l ls IH]; intros [|fuel] p acc H Hf; simpl in Hf; try lia.
  - rewrite H. simpl. by rewrite app_nil_r.
  - destruct H as (-> & n & Hn & H). simpl. rewrite Hn. simpl.
    rewrite (IH fuel) by (done || lia).
    unfold values. simpl. unfold data_of at 2. rewrite Hn. simpl.
    by rewrite <- app_assoc.
Qed.

Lemma set_next_dom σ σ' l v : set_next σ l v = Some σ' → dom σ' = dom σ.
Proof.
  unfold set_next. destruct (σ !! l) as [n|] eqn:Hn; simpl; [|done].
  intros [= <-]. rewrite dom_insert_L.
  apply elem_of_dom_2 in Hn. apply set_eq. intros k.
  rewrite elem_of_union, elem_of_singleton.
  split; [intros [->|?]; done | auto].
Qed.

Lemma reverse_loop_spec todo : ∀ fuel σ prev cur done,
  is_list σ prev done → is_list σ cur todo →
  (∀ l, l ∈ todo → l ∉ done) → (length todo < fuel)%nat →
  ∃ σ' p', reverse_loop fuel σ prev cur = Some (σ', p') ∧
    is_list σ' p' (rev todo ++ done) ∧ rewires todo σ σ' ∧ dom σ' = dom σ.
Proof.
  induction todo as [|c todo IH]; intros [|fuel] σ prev cur done Hd Ht Hdisj Hf;
    simpl in Hf; try lia.
  - rewrite Ht. simpl. exists σ, prev. auto using rewires_refl.
  - pose proof (is_list_NoDup _ _ _ Ht) as Hnd. apply NoDup_cons in Hnd as [Hc Hnd].
    destruct Ht as (-> & n & Hn & Ht). simpl. rewrite Hn. simpl.
    destruct (set_next_lookup σ c n prev Hn) as (σ1 & Hset & Hc1).
    rewrite Hset. simpl.
    pose proof (set_next_rewires _ _ _ _ Hset) as Hr1.
    assert (c ∉ done) as Hcd by (apply Hdisj, elem_of_cons; by left).
    destruct (IH fuel σ1 (Some c) (next n) (c :: done)) as (σ' & p' & Hrun & Hl & Hr & Hdom).
    + split; [done|]. eexists. split; [exact Hc1|]. simpl.
      eapply lseg_rewires; [exact Hr1| |exact Hd].
      intros l Hin ->%list_elem_of_singleton. done.
    + eapply lseg_rewires; [exact Hr1| |exact Ht].
      intros l Hin ->%list_elem_of_singleton. done.
    + intros l Hin [->|Hld]%elem_of_cons; [done|].
      eapply Hdisj; [|exact Hld]. apply elem_of_cons. by right.
    + lia.
    + exists σ', p'. split; [done|]. split; [|split].
      * simpl. by rewrite <- app_assoc.
      * eapply rewires_trans; [exact Hr1|exact Hr| |].
        -- intros l ->%list_elem_of_singleton. apply elem_of_cons. by left.
        -- intros l Hin. apply elem_of_cons. by right.
      * rewrite Hdom. by eapply set_next_dom.
Qed.

Lemma values_rewires fp σ σ' p q ls :
  rewires fp σ σ' → lseg σ p q ls → values σ' ls = values σ ls.
Proof.
  intros Hr Hl. unfold values. apply list_fmap_ext. intros i l Hi.
  eapply rewires_data_of; [done|].
  eapply lseg_is_Some; [done|]. by eapply list_elem_of_lookup_2.
Qed.

(** C9: on a finite linked list, reverse_linked_list returns a list whose
    element sequence is the reverse of the input's; it only rewires next
    pointers: the store holds the same node objects with the same data. *)
Theorem reverse_linked_list_reverses σ linked_list ls fuel :
  is_list σ (head linked_list) ls → (length ls < fuel)%nat →
  ∃ σ' reversed vs,
    to_list fuel σ linked_list = Some vs ∧
    reverse_linked_list fuel σ linked_list = Some (σ', reversed) ∧
    to_list fuel σ' reversed = Some (rev vs) ∧
    is_list σ' (head reversed) (rev ls) ∧
    dom σ' = dom σ ∧
    (∀ l, data <$> σ' !! l = data <$> σ !! l).
Proof.
  intros Hl Hf.
  destruct (reverse_loop_spec ls fuel σ None (head linked_list) [])
    as (σ' & p' & Hrun & Hl' & Hr & Hdom); try done.
  { intros l _ Hn. by apply elem_of_nil in Hn. }
  rewrite app_nil_r in Hl'.
  exists σ', (mk_list p'), (values σ ls). repeat split.
  - unfold to_list. by rewrite (to_list_loop_spec σ ls).
  - unfold reverse_linked_list. rewrite Hrun. done.
  - unfold to_list. simpl.
    rewrite (to_list_loop_spec σ' (rev ls)) by (rewrite ?length_rev; done).
    simpl. f_equal. unfold values. rewrite <- map_rev.
    apply list_fmap_ext. intros i l Hi. eapply rewires_data_of; [done|].
    eapply (lseg_is_Some σ _ _ ls); [done|].
    apply list_elem_of_lookup_2 in Hi. apply list_elem_of_In, in_rev in Hi.
    by apply list_elem_of_In.
  - done.
  - done.
  - intros l. destruct (σ !! l) as [n|] eqn:Hn.
    + destruct (Hr l n Hn) as (n' & -> & Hd & _). simpl. by rewrite Hd.
    + apply not_elem_of_dom in Hn. rewrite <- Hdom in Hn.
      apply not_elem_of_dom in Hn. by rewrite Hn.
Qed.

Lemma get_middle_loop_spec : ∀ fuel σ slow fast srest frest,
  is_list σ slow srest → is_list σ fast frest → frest ≠ [] →
  (length frest ≤ length srest)%nat → (length frest < fuel)%nat →
  ∃ a m b, get_middle_loop fuel σ slow fast = Some (Some m) ∧
    srest = a ++ m :: b ∧
    (2 * length a + 1 ≤ length frest ≤ 2 * length a + 2)%nat.
Proof.
  induction fuel as [|fuel IH]; intros σ slow fast srest frest Hs Hfa Hne Hlen Hf;
    [lia|].
  destruct frest as [|f frest]; [done|]. clear Hne.
  destruct Hfa as (-> & nf & Hnf & Hfa). simpl. rewrite Hnf. simpl.
  destruct srest as [|s srest]; simpl in Hlen; [lia|].
  pose proof Hs as (Hslow & ns & Hns & Hs').
  destruct frest as [|f1 frest].
  { simpl in Hfa. rewrite Hfa. exists [], s, srest. simpl.
    split; [by rewrite Hslow|]. split; [done|lia]. }
  destruct Hfa as (Hf1 & nf1 & Hnf1 & Hfa). rewrite Hf1, Hnf1. simpl.
  destruct frest as [|f2 frest].
  { simpl in Hfa. rewrite Hfa. exists [], s, srest. simpl.
    split; [by rewrite Hslow|]. split; [done|lia]. }
  pose proof Hfa as (Hf2 & _). rewrite Hf2, Hslow, Hns. simpl.
  destruct (IH σ (next ns) (Some f2) srest (f2 :: frest)) as (a & m & b & Hrun & Heq & Hl);
    try done.
  - by rewrite <- Hf2.
  - simpl in *. lia.
  - simpl in *. lia.
  - exists (s :: a), m, b. split; [done|]. split; [by rewrite Heq|].
    simpl in *. lia.
Qed.

#[local] Opaque list_merge.

Lemma lseg_app_is_Some σ p1 q1 p2 q2 l1 l2 l :
  lseg σ p1 q1 l1 → lseg σ p2 q2 l2 → l ∈ l1 ++ l2 → is_Some (σ !! l).
Proof. intros H1 H2 [?|?]%elem_of_app; eauto using lseg_is_Some. Qed.

Lemma merge_loop_spec (d : loc → Z) : ∀ fuel σ tail nt p1 p2 l1 l2,
  σ !! tail = Some nt → is_list σ p1 l1 → is_list σ p2 l2 →
  NoDup (tail :: l1 ++ l2) →
  (∀ l, l ∈ l1 ++ l2 → data_of σ l = d l) →
  (length l1 + length l2 < fuel)%nat →
  ∃ σ', merge_loop fuel σ tail p1 p2 = Some σ' ∧
    is_list σ' (Some tail) (tail :: list_merge (by_key d) l1 l2) ∧
    rewires (tail :: l1 ++ l2) σ σ'.
Proof.
  induction fuel as [|fuel IH]; intros σ tail nt p1 p2 l1 l2 Ht H1 H2 Hnd Hd Hf;
    [lia|].
  apply NoDup_cons in Hnd as [Htail Hnd].
  destruct l1 as [|a l1].
  { (* node1 is None: tail.next = node2 *)
    simpl in H1. subst p1. cbn [merge_loop].
    destruct (set_next_lookup σ tail nt p2 Ht) as (σ' & Hset & Hl).
    exists σ'. pose proof (set_next_rewires _ _ _ _ Hset) as Hr.
    split; [done|]. rewrite list_merge_nil_l. split.
    - split; [done|]. eexists. split; [exact Hl|]. cbn [next].
      eapply lseg_rewires; [exact Hr| |exact H2].
      intros l Hin ->%list_elem_of_singleton. done.
    - eapply rewires_trans; [exact Hr|apply rewires_refl| |];
        intros l Hin; [|done].
      apply list_elem_of_singleton in Hin as ->. apply elem_of_cons. by left. }
  destruct l2 as [|b l2].
  { (* node2 is None: tail.next = node1 *)
    simpl in H2. subst p2. pose proof H1 as (-> & _). cbn [merge_loop].
    destruct (set_next_lookup σ tail nt (Some a) Ht) as (σ' & Hset & Hl).
    exists σ'. pose proof (set_next_rewires _ _ _ _ Hset) as Hr.
    split; [done|]. rewrite list_merge_nil_r. split.
    - split; [done|]. eexists. split; [exact Hl|]. cbn [next].
      eapply lseg_rewires; [exact Hr| |exact H1].
      intros l Hin ->%list_elem_of_singleton. apply Htail.
      by rewrite app_nil_r.
    - eapply rewires_trans; [exact Hr|apply rewires_refl| |];
        intros l Hin; [|done].
      apply list_elem_of_singleton in Hin as ->. apply elem_of_cons. by left. }
  pose proof H1 as (-> & n1 & Hn1 & H1').
  pose proof H2 as (-> & n2 & Hn2 & H2').
  assert (data n1 = d a) as Hda.
  { rewrite <- Hd by (apply elem_of_cons; by left).
    unfold data_of. by rewrite Hn1. }
  assert (data n2 = d b) as Hdb.
  { rewrite <- Hd by (apply elem_of_app; right; apply elem_of_cons; by left).
    unfold data_of. by rewrite Hn2. }
  assert (a ≠ tail) as Hat.
  { intros ->. apply Htail. apply elem_of_cons. by left. }
  assert (b ≠ tail) as Hbt.
  { intros ->. apply Htail. apply elem_of_app. right. apply elem_of_cons. by left. }
  rewrite list_merge_cons.
  simpl merge_loop. rewrite Hn1, Hn2. simpl.
  destruct (decide (data n1 ≤ data n2)) as [Hle|Hgt].
  - rewrite bool_decide_eq_true_2 by done.
    rewrite (decide_True (P := by_key d a b)) by (unfold by_key; lia).
    destruct (set_next_lookup σ tail nt (Some a) Ht) as (σ1 & Hset & Hl).
    pose proof (set_next_rewires _ _ _ _ Hset) as Hr.
    rewrite Hset. simpl.
    assert (σ1 !! a = Some n1) as Ha1.
    { rewrite (rewires_lookup [tail] σ σ1 a); eauto.
      by intros ->%list_elem_of_singleton. }
    rewrite Ha1. simpl. rewrite Hl. simpl.
    assert (∀ l, l ∈ (a :: l1) ++ b :: l2 → l ∉ [tail]) as Hfr.
    { intros l Hin ->%list_elem_of_singleton. done. }
    destruct (IH σ1 a n1 (next n1) (Some b) l1 (b :: l2)) as (σ' & Hrun & Hres & Hr');
      try done.
    + eapply lseg_rewires; [exact Hr| |exact H1'].
      intros l Hin. apply Hfr. apply elem_of_app. left.
      apply elem_of_cons. by right.
    + eapply lseg_rewires; [exact Hr| |exact H2].
      intros l Hin. apply Hfr. apply elem_of_app. by right.
    + intros l Hin. rewrite <- Hd by (simpl; apply elem_of_cons; by right).
      eapply rewires_data_of; [exact Hr|].
      eapply lseg_app_is_Some; [exact H1'|exact H2|done].
    + simpl in *. lia.
    + exists σ'. split; [done|]. split.
      * split; [done|]. exists (mk_node (data nt) (Some a)).
        split; [|split; [done|apply Hres]].
        rewrite (rewires_lookup (a :: l1 ++ b :: l2) σ1 σ' tail); eauto.
      * eapply rewires_trans; [exact Hr|exact Hr'| |]; intros l Hin.
        -- apply list_elem_of_singleton in Hin as ->. apply elem_of_cons. by left.
        -- apply elem_of_cons. by right.
  - rewrite bool_decide_eq_false_2 by done.
    rewrite (decide_False (P := by_key d a b)) by (unfold by_key; lia).
    destruct (set_next_lookup σ tail nt (Some b) Ht) as (σ1 & Hset & Hl).
    pose proof (set_next_rewires _ _ _ _ Hset) as Hr.
    rewrite Hset. simpl.
    assert (σ1 !! b = Some n2) as Hb1.
    { rewrite (rewires_lookup [tail] σ σ1 b); eauto.
      by intros ->%list_elem_of_singleton. }
    rewrite Hb1. simpl. rewrite Hl. simpl.
    assert (∀ l, l ∈ (a :: l1) ++ b :: l2 → l ∉ [tail]) as Hfr.
    { intros l Hin ->%list_elem_of_singleton. done. }
    assert (NoDup (b :: (a :: l1) ++ l2)) as Hnd'.
    { eapply NoDup_Permutation_proper; [|exact Hnd].
      by rewrite Permutation_middle. }
    destruct (IH σ1 b n2 (Some a) (next n2) (a :: l1) l2) as (σ' & Hrun & Hres & Hr');
      try done.
    + eapply lseg_rewires; [exact Hr| |exact H1].
      intros l Hin. apply Hfr. apply elem_of_app. by left.
    + eapply lseg_rewires; [exact Hr| |exact H2'].
      intros l Hin. apply Hfr. apply elem_of_app. right. apply elem_of_cons. by right.
    + intros l Hin.
      assert (l ∈ (a :: l1) ++ b :: l2) as Hin'.
      { apply elem_of_app in Hin as [?|?]; apply elem_of_app; [by left|].
        right. apply elem_of_cons. by right. }
      rewrite <- Hd by done.
      eapply rewires_data_of; [exact Hr|].
      eapply lseg_app_is_Some; [exact H1|exact H2|done].
    + simpl in *. lia.
    + exists σ'. split; [done|]. split.
      * split; [done|]. exists (mk_node (data nt) (Some b)).
        split; [|split; [done|apply Hres]].
        rewrite (rewires_lookup (b :: (a :: l1) ++ l2) σ1 σ' tail); eauto.
        intros Hin. apply Htail. revert Hin.
        rewrite !elem_of_cons, !elem_of_app, !elem_of_cons. tauto.
      * eapply rewires_trans; [exact Hr|exact Hr'| |]; intros l Hin.
        -- apply list_elem_of_singleton in Hin as ->. apply elem_of_cons. by left.
        -- revert Hin.
           rewrite !elem_of_cons, !elem_of_app, !elem_of_cons. tauto.
Qed.

Lemma merge_sorted_lists_nodes_spec (d : loc → Z) fuel σ p1 p2 l1 l2 :
  is_list σ p1 l1 → is_list σ p2 l2 → NoDup (l1 ++ l2) →
  (∀ l, l ∈ l1 ++ l2 → data_of σ l = d l) →
  (length l1 + length l2 < fuel)%nat →
  ∃ σ' p', merge_sorted_lists_nodes fuel σ p1 p2 = Some (σ', p') ∧
    is_list σ' p' (list_merge (by_key d) l1 l2) ∧
    rewires (l1 ++ l2) σ σ'.
Proof.
  intros H1 H2 Hnd Hd Hf. unfold merge_sorted_lists_nodes, alloc.
  set (dummy := fresh (dom σ)).
  set (σ0 := <[dummy := mk_node 0 None]> σ).
  assert (σ !! dummy = None) as Hfresh.
  { apply not_elem_of_dom. apply is_fresh. }
  assert (∀ l, is_Some (σ !! l) → σ0 !! l = σ !! l) as Hσ0.
  { intros l [n Hn]. unfold σ0. rewrite lookup_insert_ne; [done|].
    intros <-. congruence. }
  assert (dummy ∉ l1 ++ l2) as Hdl.
  { intros Hin. pose proof (lseg_app_is_Some _ _ _ _ _ _ _ _ H1 H2 Hin) as [n Hn].
    congruence. }
  destruct (merge_loop_spec d fuel σ0 dummy (mk_node 0 None) p1 p2 l1 l2)
    as (σ' & Hrun & Hres & Hr); try done.
  - unfold σ0. apply lookup_insert_eq.
  - eapply lseg_frame; [|exact H1]. intros l Hl. apply Hσ0.
    eapply lseg_is_Some; [exact H1|done].
  - eapply lseg_frame; [|exact H2]. intros l Hl. apply Hσ0.
    eapply lseg_is_Some; [exact H2|done].
  - by apply NoDup_cons.
  - intros l Hl. rewrite <- Hd by done. unfold data_of. rewrite Hσ0; [done|].
    eapply lseg_app_is_Some; [exact H1|exact H2|done].
  - rewrite Hrun. simpl. destruct Hres as (_ & nd & Hnd' & Hres).
    rewrite Hnd'. simpl. exists σ', (next nd). split; [done|]. split; [done|].
    intros l n Hn. assert (l ≠ dummy) as Hne by (intros ->; congruence).
    destruct (Hr l n) as (n' & Hn' & Hdat & Hsame).
    { rewrite Hσ0; eauto. }
    exists n'. split; [done|]. split; [done|].
    intros Hl. apply Hsame. intros [->|?]%elem_of_cons; done.
Qed.

Lemma sort_spec (d : loc → Z) : ∀ fuel σ p ls,
  is_list σ p ls → (∀ l, l ∈ ls → data_of σ l = d l) →
  (length ls + 2 ≤ fuel)%nat →
  ∃ σ' p' ls', sort fuel σ p = Some (σ', p') ∧ is_list σ' p' ls' ∧
    ls' ≡ₚ ls ∧ Sorted (by_key d) ls' ∧ rewires ls σ σ' ∧
    ((length ls ≤ 1)%nat → σ' = σ ∧ p' = p).
Proof.
  induction fuel as [|fuel IH]; intros σ p ls Hls Hd Hf; [lia|].
  destruct ls as [|l ls].
  { simpl in Hls. subst p. exists σ, None, []. simpl.
    repeat split; auto using rewires_refl. }
  pose proof (is_list_NoDup _ _ _ Hls) as Hnd.
  pose proof Hls as (-> & n & Hn & Hls'). cbn [sort]. rewrite Hn. simpl.
  destruct ls as [|l2 ls].
  { simpl in Hls'. rewrite Hls'. exists σ, (Some l), [l].
    split; [done|]. split; [exact Hls|].
    repeat split; auto using rewires_refl. }
  pose proof Hls' as (Hnext & _). rewrite Hnext.
  destruct (get_middle_loop_spec fuel σ (Some l) (Some l)
              (l :: l2 :: ls) (l :: l2 :: ls))
    as (a & m & b & Hmid & Hsplit & Hlen); try done.
  { simpl in *. lia. }
  rewrite Hmid. simpl.
  assert (length (l :: l2 :: ls) = length a + 1 + length b)%nat as Hlens.
  { rewrite Hsplit, length_app. simpl. lia. }
  assert (1 ≤ length b)%nat as Hb by (simpl in *; lia).
  rewrite Hsplit in Hls, Hnd, Hd.
  apply lseg_app in Hls as (r & Ha & Hmb).
  pose proof Hmb as (-> & nm & Hnm & Hbl).
  rewrite Hnm. simpl.
  apply NoDup_app in Hnd as (Hnda & Hdisj & Hndmb).
  apply NoDup_cons in Hndmb as [Hmb' Hndb].
  assert (m ∉ a) as Hma.
  { intros Hin. apply (Hdisj m Hin). apply elem_of_cons. by left. }
  destruct (set_next_lookup σ m nm None Hnm) as (σ1 & Hset & Hm1).
  pose proof (set_next_rewires _ _ _ _ Hset) as Hr1.
  rewrite Hset. simpl.
  (* the left half, cut after the middle node *)
  assert (is_list σ1 (Some l) (a ++ [m])) as Hleft.
  { apply lseg_app. exists (Some m). split.
    - eapply lseg_rewires; [exact Hr1| |exact Ha].
      intros k Hk ->%list_elem_of_singleton. done.
    - split; [done|]. eexists. split; [exact Hm1|]. done. }
  assert (∀ k, k ∈ a ++ m :: b → is_Some (σ !! k)) as Hdom.
  { intros k Hk. eapply lseg_app_is_Some; [exact Ha|exact Hmb|done]. }
  destruct (IH σ1 (Some l) (a ++ [m])) as (σ2 & pl & lsl & Hrun1 & Hl2 & Hp1 & Hs1 & Hr2 & _).
  { done. }
  { intros k Hk. rewrite <- Hd.
    - eapply rewires_data_of; [exact Hr1|]. apply Hdom.
      revert Hk. rewrite !elem_of_app, !elem_of_cons, elem_of_nil. tauto.
    - revert Hk. rewrite !elem_of_app, !elem_of_cons, elem_of_nil. tauto. }
  { rewrite length_app. simpl in *. lia. }
  rewrite Hrun1. simpl.
  assert (rewires (a ++ [m]) σ σ2) as Hr02.
  { eapply rewires_trans; [exact Hr1|exact Hr2| |done].
    intros k ->%list_elem_of_singleton. apply elem_of_app. right.
    apply elem_of_cons. by left. }
  assert (∀ k, k ∈ b → k ∉ a ++ [m]) as Hba.
  { intros k Hk [Hin|Hin]%elem_of_app.
    - apply (Hdisj k Hin). apply elem_of_cons. by right.
    - apply list_elem_of_singleton in Hin as ->. done. }
  assert (is_list σ2 (next nm) b) as Hright.
  { eapply lseg_rewires; [exact Hr02| |exact Hbl]. done. }
  destruct (IH σ2 (next nm) b) as (σ3 & pr & lsr & Hrun2 & Hl3 & Hp2 & Hs2 & Hr3 & _).
  { done. }
  { intros k Hk. rewrite <- Hd.
    - eapply rewires_data_of; [exact Hr02|]. apply Hdom.
      apply elem_of_app. right. apply elem_of_cons. by right.
    - apply elem_of_app. right. apply elem_of_cons. by right. }
  { simpl in *. lia. }
  rewrite Hrun2. simpl.
  assert (rewires (a ++ m :: b) σ σ3) as Hr03.
  { eapply rewires_trans; [exact Hr02|exact Hr3| |]; intros k;
      rewrite !elem_of_app, !elem_of_cons, ?elem_of_nil; tauto. }
  assert (is_list σ3 pl lsl) as Hl3'.
  { eapply lseg_rewires; [exact Hr3| |exact Hl2].
    intros k Hk Hkb. apply (Hba k Hkb). by rewrite <- Hp1. }
  assert (lsl ++ lsr ≡ₚ a ++ m :: b) as Hperm.
  { rewrite Hp1, Hp2, <- app_assoc. done. }
  destruct (merge_sorted_lists_nodes_spec d fuel σ3 pl pr lsl lsr)
    as (σ4 & p4 & Hrun3 & Hl4 & Hr4); try done.
  { rewrite Hperm. apply NoDup_app. split; [done|]. split; [|by apply NoDup_cons].
    done. }
  { intros k Hk. rewrite Hperm in Hk. rewrite <- Hd by done.
    eapply rewires_data_of; [exact Hr03|]. by apply Hdom. }
  { apply Permutation_length in Hperm. rewrite !length_app in Hperm.
    simpl in Hperm, Hlens, Hf. lia. }
  rewrite Hrun3. exists σ4, p4, (list_merge (by_key d) lsl lsr).
  split; [done|]. split; [done|]. split; [|split; [|split]].
  - rewrite merge_Permutation, Hperm, Hsplit. done.
  - apply Sorted_list_merge; [apply by_key_total|done|done].
  - rewrite Hsplit. eapply rewires_trans; [exact Hr03|exact Hr4|done|].
    intros k Hk. by rewrite <- Hperm.
  - intros Hle. simpl in Hle. lia.
Qed.

(** C8: on a finite linked list, merge_sort_linked_list returns a list whose
    element sequence (read by to_list) is in non-decreasing order and is a
    permutation of the input's element sequence; an empty or single-element
    list is returned unchanged. *)
Theorem merge_sort_linked_list_sorted_permutation σ linked_list ls fuel :
  is_list σ (head linked_list) ls → (length ls + 2 ≤ fuel)%nat →
  ∃ σ' sorted vs vs',
    to_list fuel σ linked_list = Some vs ∧
    merge_sort_linked_list fuel σ linked_list = Some (σ', sorted) ∧
    to_list fuel σ' sorted = Some vs' ∧
    Sorted Z.le vs' ∧ vs' ≡ₚ vs ∧
    ((length vs ≤ 1)%nat → σ' = σ ∧ sorted = linked_list).
Proof.
  intros Hls Hf.
  assert (to_list fuel σ linked_list = Some (values σ ls)) as Hto.
  { unfold to_list. rewrite (to_list_loop_spec σ ls) by (done || lia). done. }
  destruct linked_list as [p]. simpl in Hls.
  destruct ls as [|l ls].
  { simpl in Hls. subst p. exists σ, (mk_list None), [], [].
    repeat split; try done. }
  pose proof Hls as (-> & n & Hn & Hls').
  destruct ls as [|l2 ls].
  { simpl in Hls'. exists σ, (mk_list (Some l)), (values σ [l]), (values σ [l]).
    split; [done|]. split; [|split; [done|]].
    - unfold merge_sort_linked_list. simpl. rewrite Hn. simpl. by rewrite Hls'.
    - repeat split; try done. repeat constructor. }
  pose proof Hls' as (Hnext & _).
  destruct (sort_spec (data_of σ) fuel σ (Some l) (l :: l2 :: ls))
    as (σ' & p' & ls' & Hrun & Hl' & Hperm & Hsorted & Hr & _); try done.
  exists σ', (mk_list p'), (values σ (l :: l2 :: ls)), (values σ' ls').
  split; [done|]. split; [|split; [|split; [|split]]].
  - unfold merge_sort_linked_list. simpl. rewrite Hn. simpl. rewrite Hnext.
    rewrite Hrun. done.
  - unfold to_list. simpl. rewrite (to_list_loop_spec σ' ls'); [done|done|].
    apply Permutation_length in Hperm. lia.
  - assert (values σ' ls' = data_of σ <$> ls') as ->.
    { apply list_fmap_ext. intros i k Hk. eapply rewires_data_of; [exact Hr|].
      eapply (lseg_is_Some σ _ _ (l :: l2 :: ls)); [exact Hls|].
      rewrite <- Hperm. by eapply list_elem_of_lookup_2. }
    eapply Sorted_fmap; [|exact Hsorted]. done.
  - assert (values σ' ls' = data_of σ <$> ls') as ->.
    { apply list_fmap_ext. intros i k Hk. eapply rewires_data_of; [exact Hr|].
      eapply (lseg_is_Some σ _ _ (l :: l2 :: ls)); [exact Hls|].
      rewrite <- Hperm. by eapply list_elem_of_lookup_2. }
    unfold values. by rewrite Hperm.
  - unfold values. simpl. lia.
Qed.

Lemma demo_is_list : is_list demo_store (head demo_list) [0; 1; 2; 3; 4]%nat.
Proof. simpl. repeat (split; [reflexivity|]; eexists; split; [reflexivity|]). reflexivity. Qed.

Lemma reverse_linked_list_reverses_witness :
  ∃ σ' reversed vs,
    to_list 7 demo_store demo_list = Some vs ∧
    reverse_linked_list 7 demo_store demo_list = Some (σ', reversed) ∧
    to_list 7 σ' reversed = Some (rev vs) ∧
    is_list σ' (head reversed) (rev [0; 1; 2; 3; 4]%nat) ∧
    dom σ' = dom demo_store ∧
    (∀ l, data <$> σ' !! l = data <$> demo_store !! l).
Proof.
  apply (reverse_linked_list_reverses demo_store demo_list [0; 1; 2; 3; 4]%nat 7).
  - exact demo_is_list.
  - simpl. lia.
Defined.

Lemma merge_sort_linked_list_sorted_permutation_witness :
  ∃ σ' sorted vs vs',
    to_list 7 demo_store demo_list = Some vs ∧
    merge_sort_linked_list 7 demo_store demo_list = Some (σ', sorted) ∧
    to_list 7 σ' sorted = Some vs' ∧
    Sorted Z.le vs' ∧ vs' ≡ₚ vs ∧
    ((length vs ≤ 1)%nat → σ' = demo_store ∧ sorted = demo_list).
Proof.
  apply (merge_sort_linked_list_sorted_permutation demo_store demo_list
           [0; 1; 2; 3; 4]%nat 7).
  - exact demo_is_list.
  - simpl. lia.
Defined.

Example merge_sort_demo :
  ('(σ', sorted) ← merge_sort_linked_list 7 demo_store demo_list;
   to_list 7 σ' sorted) = Some [1; 3; 5; 8; 9].
Proof. vm_compute. reflexivity. Qed.

Example reverse_demo :
  ('(σ', reversed) ← reverse_linked_list 7 demo_store demo_list;
   to_list 7 σ' reversed) = Some [9; 1; 8; 3; 5].
Proof. vm_compute. reflexivity. Qed.

Lemma alloc_spec σ d :
  σ !! (alloc σ d).2 = None ∧
  (alloc σ d).1 = <[(alloc σ d).2 := mk_node d None]> σ.
Proof. unfold alloc. simpl. split; [|done]. apply not_elem_of_dom, is_fresh. Qed.

Lemma lseg_insert_fresh σ p q ls l n :
  σ !! l = None → lseg σ p q ls → lseg (<[l := n]> σ) p q ls.
Proof.
  intros Hl H. eapply lseg_frame; [|exact H]. intros k Hk.
  rewrite lookup_insert_ne; [done|]. intros <-.
  destruct (lseg_is_Some _ _ _ _ _ H Hk) as [? ?]. congruence.
Qed.

Lemma values_insert_fresh σ p q ls l n :
  σ !! l = None → lseg σ p q ls → values (<[l := n]> σ) ls = values σ ls.
Proof.
  intros Hl H. unfold values. apply list_fmap_ext. intros i k Hk.
  unfold data_of. rewrite lookup_insert_ne; [done|]. intros <-.
  apply list_elem_of_lookup_2 in Hk.
  destruct (lseg_is_Some _ _ _ _ _ H Hk) as [? ?]. congruence.
Qed.

Lemma insert_at_beginning_spec σ self d ls :
  is_list σ (head self) ls →
  ∃ σ' new_node,
    insert_at_beginning σ self d = Some (σ', mk_list (Some new_node)) ∧
    σ !! new_node = None ∧
    σ' = <[new_node := mk_node d (head self)]> σ ∧
    is_list σ' (Some new_node) (new_node :: ls) ∧
    values σ' (new_node :: ls) = d :: values σ ls.
Proof.
  intros Hls. destruct (alloc_spec σ d) as [Hfresh Hσ1].
  unfold insert_at_beginning. destruct (alloc σ d) as [σ1 l] eqn:Ha.
  simpl in Hfresh, Hσ1. subst σ1.
  unfold set_next. rewrite lookup_insert_eq. simpl. rewrite insert_insert_eq.
  eexists _, l. split; [done|]. split; [done|]. split; [done|]. split.
  - split; [done|]. eexists. split; [apply lookup_insert_eq|]. simpl.
    by apply lseg_insert_fresh.
  - unfold values at 1. simpl. unfold data_of at 1. rewrite lookup_insert_eq.
    simpl. f_equal. by eapply values_insert_fresh.
Qed.

(** X1: insert_at_beginning puts a new node in front of the list: the
    element sequence becomes data followed by the old sequence, and the
    nodes that existed before are left as they were. *)
Theorem insert_at_beginning_prepends σ self d ls fuel :
  is_list σ (head self) ls → (length ls < fuel)%nat →
  ∃ σ' self' vs,
    to_list fuel σ self = Some vs ∧
    insert_at_beginning σ self d = Some (σ', self') ∧
    to_list (S fuel) σ' self' = Some (d :: vs) ∧
    (∀ l, is_Some (σ !! l) → σ' !! l = σ !! l).
Proof.
  intros Hls Hf.
  destruct (insert_at_beginning_spec σ self d ls Hls)
    as (σ' & l & Hrun & Hfresh & Hσ' & Hls' & Hvs).
  exists σ', (mk_list (Some l)), (values σ ls).
  split; [|split; [done|split]].
  - unfold to_list. by rewrite (to_list_loop_spec σ ls).
  - unfold to_list.
    rewrite (to_list_loop_spec σ' (l :: ls)) by (done || simpl; lia).
    by rewrite Hvs.
  - intros k [n Hn]. rewrite Hσ', lookup_insert_ne; [done|].
    intros <-. congruence.
Qed.

Lemma last_node_loop_spec σ : ∀ pre fuel h z,
  lseg σ (Some h) (Some z) pre →
  (∃ nz, σ !! z = Some nz ∧ next nz = None) →
  (length pre < fuel)%nat →
  last_node_loop fuel σ h = Some z.
Proof.
  induction pre as [|x pre IH]; intros [|fuel] h z Hseg (nz & Hz & Hnone) Hf;
    simpl in Hf; try lia.
  - simpl in Hseg. injection Hseg as ->. simpl. rewrite Hz. simpl.
    by rewrite Hnone.
  - destruct Hseg as (Hh & n & Hn & Hseg). injection Hh as ->.
    simpl. rewrite Hn. simpl.
    destruct pre as [|y pre].
    + simpl in Hseg. rewrite Hseg. apply IH; [done|eauto|lia].
    + pose proof Hseg as (Hy & _). rewrite Hy.
      apply IH; [by rewrite <- Hy|eauto|lia].
Qed.

Lemma is_list_snoc σ p ls z :
  is_list σ p (ls ++ [z]) ↔
  lseg σ p (Some z) ls ∧ ∃ nz, σ !! z = Some nz ∧ next nz = None.
Proof.
  rewrite lseg_app. split.
  - intros (r & Hpre & -> & nz & Hz & Hnone). eauto.
  - intros (Hpre & nz & Hz & Hnone). exists (Some z). split; [done|].
    split; [done|]. eauto.
Qed.

Lemma insert_at_end_spec σ self d ls fuel :
  is_list σ (head self) ls → (length ls ≤ fuel)%nat →
  ∃ σ' self' new_node,
    insert_at_end fuel σ self d = Some (σ', self') ∧
    σ !! new_node = None ∧
    is_list σ' (head self') (ls ++ [new_node]) ∧
    values σ' (ls ++ [new_node]) = values σ ls ++ [d] ∧
    (ls ≠ [] → self' = self) ∧
    (∀ l, is_Some (σ !! l) → data <$> σ' !! l = data <$> σ !! l) ∧
    (∀ l, is_Some (σ !! l) → Some l ≠ last ls → σ' !! l = σ !! l).
Proof.
  intros Hls Hf. destruct (alloc_spec σ d) as [Hfresh Hσ1].
  unfold insert_at_end. destruct (alloc σ d) as [σ1 l] eqn:Ha.
  simpl in Hfresh, Hσ1. subst σ1.
  destruct (head self) as [h|] eqn:Hhead.
  2:{ destruct ls as [|x ls]; [|by destruct Hls].
      eexists _, _, l. split; [done|]. split; [done|]. split; [|split; [|split; [done|split]]].
      - simpl. split; [done|]. eexists. split; [apply lookup_insert_eq|done].
      - unfold values. simpl. unfold data_of. by rewrite lookup_insert_eq.
      - intros k [n Hn]. rewrite lookup_insert_ne; [done|]. intros <-. congruence.
      - intros k [n Hn] _. rewrite lookup_insert_ne; [done|]. intros <-. congruence. }
  destruct (decide (ls = [])) as [->|Hne]; [done|].
  destruct (exists_last Hne) as (pre & z & ->).
  pose proof (is_list_NoDup _ _ _ Hls) as Hnd.
  apply NoDup_app in Hnd as (_ & Hdisj & _).
  assert (z ∉ pre) as Hzpre.
  { intros Hin. apply (Hdisj z Hin). apply elem_of_cons. by left. }
  pose proof Hls as Hls0.
  apply is_list_snoc in Hls as (Hpre & nz & Hz & Hnone).
  assert (l ≠ z) as Hlz by (intros ->; congruence).
  rewrite (last_node_loop_spec (<[l:=mk_node d None]> σ) pre fuel h z).
  2:{ by apply lseg_insert_fresh. }
  2:{ exists nz. by rewrite lookup_insert_ne. }
  2:{ rewrite length_app in Hf. simpl in Hf. lia. }
  simpl. unfold set_next. rewrite lookup_insert_ne by done. rewrite Hz. simpl.
  eexists _, self, l. split; [done|]. split; [done|].
  assert (l ∉ pre) as Hlpre.
  { intros Hin. destruct (lseg_is_Some _ _ _ _ _ Hpre Hin) as [? ?]. congruence. }
  split; [|split; [|split; [done|split]]].
  - rewrite Hhead. rewrite <- app_assoc. apply lseg_app. exists (Some z). split.
    + eapply lseg_frame; [|exact Hpre]. intros k Hk.
      rewrite !lookup_insert_ne; [done| |]; by intros <-.
    + split; [done|]. eexists. split; [apply lookup_insert_eq|]. simpl.
      split; [done|]. exists (mk_node d None). split; [|done].
      rewrite lookup_insert_ne by done. apply lookup_insert_eq.
  - unfold values. rewrite !fmap_app. simpl. f_equal; [f_equal|].
    + apply list_fmap_ext. intros i k Hk. apply list_elem_of_lookup_2 in Hk.
      unfold data_of. rewrite !lookup_insert_ne; [done| |]; by intros <-.
    + unfold data_of. rewrite lookup_insert_eq. simpl. by rewrite Hz.
    + unfold data_of. rewrite lookup_insert_ne by done.
      by rewrite lookup_insert_eq.
  - intros k [n Hn]. assert (k ≠ l) by (intros ->; congruence).
    destruct (decide (k = z)) as [->|?].
    + rewrite lookup_insert_eq, Hz. done.
    + rewrite !lookup_insert_ne by done. done.
  - intros k [n Hn] Hlast. rewrite last_snoc in Hlast.
    assert (k ≠ l) by (intros ->; congruence).
    rewrite !lookup_insert_ne; [done|done|]. intros <-. done.
Qed.

(** X2: insert_at_end appends a new node: the element sequence becomes the
    old sequence followed by data; on an empty list the new node becomes the
    head; the data of the nodes that existed before is unchanged. *)
Theorem insert_at_end_appends σ self d ls fuel :
  is_list σ (head self) ls → (length ls < fuel)%nat →
  ∃ σ' self' vs,
    to_list fuel σ self = Some vs ∧
    insert_at_end fuel σ self d = Some (σ', self') ∧
    to_list (S fuel) σ' self' = Some (vs ++ [d]) ∧
    (ls ≠ [] → self' = self) ∧
    (∀ l, is_Some (σ !! l) → data <$> σ' !! l = data <$> σ !! l).
Proof.
  intros Hls Hf.
  destruct (insert_at_end_spec σ self d ls fuel Hls)
    as (σ' & self' & l & Hrun & Hfresh & Hls' & Hvs & Hsame & Hdata & _); [lia|].
  exists σ', self', (values σ ls).
  split; [|split; [done|split; [|done]]].
  - unfold to_list. by rewrite (to_list_loop_spec σ ls).
  - unfold to_list.
    rewrite (to_list_loop_spec σ' (ls ++ [l])); [by rewrite Hvs|done|].
    rewrite length_app. simpl. lia.
Qed.

Lemma insert_all_at_end_spec : ∀ vs fuel σ self ls,
  is_list σ (head self) ls → (length ls + length vs ≤ fuel)%nat →
  ∃ σ' self' ls',
    insert_all_at_end fuel σ self vs = Some (σ', self') ∧
    is_list σ' (head self') ls' ∧
    values σ' ls' = values σ ls ++ vs.
Proof.
  induction vs as [|v vs IH]; intros fuel σ self ls Hls Hf.
  - exists σ, self, ls. simpl. by rewrite app_nil_r.
  - simpl in Hf.
    destruct (insert_at_end_spec σ self v ls fuel Hls)
      as (σ1 & self1 & l & Hrun & _ & Hls1 & Hvs1 & _); [lia|].
    destruct (IH fuel σ1 self1 (ls ++ [l]) Hls1) as (σ' & self' & ls' & Hrun' & Hls' & Hvs').
    { rewrite length_app. simpl. lia. }
    exists σ', self', ls'. split; [simpl; by rewrite Hrun|]. split; [done|].
    by rewrite Hvs', Hvs1, <- app_assoc.
Qed.

(** X3: starting from an empty list and calling insert_at_end for each value
    of a sequence, to_list reads the sequence back. *)
Theorem insert_at_end_to_list_round_trip σ vs fuel :
  (length vs < fuel)%nat →
  ∃ σ' self,
    insert_all_at_end fuel σ (mk_list None) vs = Some (σ', self) ∧
    to_list fuel σ' self = Some vs.
Proof.
  intros Hf.
  destruct (insert_all_at_end_spec vs fuel σ (mk_list None) []) as (σ' & self & ls & Hrun & Hls & Hvs);
    [done|simpl; lia|].
  exists σ', self. split; [done|]. unfold to_list.
  rewrite (to_list_loop_spec σ' ls); [by rewrite Hvs|done|].
  apply (f_equal length) in Hvs. unfold values in Hvs.
  rewrite length_fmap in Hvs. simpl in Hvs. lia.
Qed.

Lemma Sorted_values_by_key σ ls :
  Sorted Z.le (values σ ls) ↔ Sorted (by_key (data_of σ)) ls.
Proof.
  unfold values. induction ls as [|l ls IH]; simpl.
  - split; constructor.
  - split; intros H; apply Sorted_inv in H as [Hs Hhd]; constructor;
      try (by apply IH); destruct ls; simpl in *; constructor;
      by apply HdRel_inv in Hhd.
Qed.

Lemma merge_sorted_lists_spec σ list1 list2 l1 l2 fuel :
  is_list σ (head list1) l1 → is_list σ (head list2) l2 →
  NoDup (l1 ++ l2) → (length l1 + length l2 < fuel)%nat →
  ∃ σ' merged_list,
    merge_sorted_lists fuel σ list1 list2 = Some (σ', merged_list) ∧
    is_list σ' (head merged_list) (list_merge (by_key (data_of σ)) l1 l2) ∧
    rewires (l1 ++ l2) σ σ'.
Proof.
  intros H1 H2 Hnd Hf.
  destruct (merge_sorted_lists_nodes_spec (data_of σ) fuel σ
              (head list1) (head list2) l1 l2) as (σ' & p' & Hrun & Hls & Hr);
    try done.
  exists σ', (mk_list p'). split; [|done].
  revert Hrun. unfold merge_sorted_lists, merge_sorted_lists_nodes.
  destruct (alloc σ 0) as [σ0 dummy].
  destruct (merge_loop fuel σ0 dummy (head list1) (head list2)) as [σ1|];
    simpl; [|done].
  destruct (σ1 !! dummy); simpl; [|done]. by intros [= -> ->].
Qed.

(** X4: merge_sorted_lists on two lists that share no node returns a list
    holding exactly the elements of both; when both inputs are sorted the
    result is sorted. *)
Theorem merge_sorted_lists_merges σ list1 list2 l1 l2 fuel :
  is_list σ (head list1) l1 → is_list σ (head list2) l2 →
  NoDup (l1 ++ l2) → (length l1 + length l2 < fuel)%nat →
  ∃ σ' merged_list vs1 vs2 vs,
    to_list fuel σ list1 = Some vs1 ∧ to_list fuel σ list2 = Some vs2 ∧
    merge_sorted_lists fuel σ list1 list2 = Some (σ', merged_list) ∧
    to_list fuel σ' merged_list = Some vs ∧
    vs ≡ₚ vs1 ++ vs2 ∧
    (Sorted Z.le vs1 → Sorted Z.le vs2 → Sorted Z.le vs).
Proof.
  intros H1 H2 Hnd Hf.
  destruct (merge_sorted_lists_spec σ list1 list2 l1 l2 fuel H1 H2 Hnd Hf)
    as (σ' & merged & Hrun & Hls & Hr).
  set (m := list_merge (by_key (data_of σ)) l1 l2) in *.
  assert (m ≡ₚ l1 ++ l2) as Hperm by apply merge_Permutation.
  assert (values σ' m = data_of σ <$> m) as Hvals.
  { apply list_fmap_ext. intros i k Hk. eapply rewires_data_of; [exact Hr|].
    apply list_elem_of_lookup_2 in Hk. rewrite Hperm in Hk.
    eapply lseg_app_is_Some; [exact H1|exact H2|done]. }
  exists σ', merged, (values σ l1), (values σ l2), (values σ' m).
  split; [|split; [|split; [done|split; [|split]]]].
  - unfold to_list. rewrite (to_list_loop_spec σ l1); [done|done|lia].
  - unfold to_list. rewrite (to_list_loop_spec σ l2); [done|done|lia].
  - unfold to_list. rewrite (to_list_loop_spec σ' m); [done|done|].
    apply Permutation_length in Hperm. rewrite length_app in Hperm. lia.
  - rewrite Hvals. unfold values. by rewrite Hperm, fmap_app.
  - intros Hs1 Hs2. rewrite Hvals.
    apply Sorted_values_by_key in Hs1, Hs2.
    change (data_of σ <$> m) with (values σ m). apply Sorted_values_by_key.
    apply Sorted_list_merge; [apply by_key_total|done|done].
Qed.

Lemma is_list_next σ p ls a k b :
  is_list σ p ls → ls = a ++ k :: b →
  ∃ n, σ !! k = Some n ∧ next n = hd_error b.
Proof.
  intros Hls ->. apply lseg_app in Hls as (r & _ & -> & n & Hn & Hb).
  exists n. split; [done|]. destruct b as [|y b]; [done|]. by destruct Hb.
Qed.

Lemma is_list_head σ p ls : is_list σ p ls → p = hd_error ls.
Proof. destruct ls; [done|]. by intros [-> _]. Qed.

(** X5: reversing a finite list twice gives back the list it started from:
    the same head, and every node with its original next pointer. *)
Theorem reverse_linked_list_involutive σ linked_list ls fuel :
  is_list σ (head linked_list) ls → (length ls < fuel)%nat →
  ∃ σ1 reversed,
    reverse_linked_list fuel σ linked_list = Some (σ1, reversed) ∧
    reverse_linked_list fuel σ1 reversed = Some (σ, linked_list).
Proof.
  intros Hls Hf.
  destruct (reverse_loop_spec ls fuel σ None (head linked_list) [])
    as (σ1 & p1 & Hrun1 & Hl1 & Hr1 & Hdom1); try done.
  { intros l _ Hn. by apply elem_of_nil in Hn. }
  rewrite app_nil_r in Hl1.
  destruct (reverse_loop_spec (rev ls) fuel σ1 None p1 [])
    as (σ2 & p2 & Hrun2 & Hl2 & Hr2 & Hdom2); try done.
  { intros l _ Hn. by apply elem_of_nil in Hn. }
  { by rewrite length_rev. }
  rewrite app_nil_r, rev_involutive in Hl2.
  exists σ1, (mk_list p1). unfold reverse_linked_list.
  rewrite Hrun1. simpl. split; [done|]. rewrite Hrun2. simpl.
  assert (p2 = head linked_list) as ->.
  { rewrite (is_list_head _ _ _ Hl2). symmetry. by apply (is_list_head σ). }
  assert (σ2 = σ) as ->; [|by destruct linked_list].
  apply map_eq. intros k. destruct (σ !! k) as [n|] eqn:Hn.
  - destruct (decide (k ∈ ls)) as [Hin|Hnin].
    + apply list_elem_of_split in Hin as (a & b & Heq).
      destruct (is_list_next _ _ _ _ _ _ Hls Heq) as (n0 & Hn0 & Hnext0).
      destruct (is_list_next _ _ _ _ _ _ Hl2 Heq) as (n2 & Hn2 & Hnext2).
      rewrite Hn in Hn0. injection Hn0 as <-.
      destruct (Hr1 k n Hn) as (n1 & Hn1 & Hd1 & _).
      destruct (Hr2 k n1 Hn1) as (n2' & Hn2' & Hd2 & _).
      rewrite Hn2 in Hn2'. injection Hn2' as <-. rewrite Hn2. f_equal.
      destruct n, n2. simpl in *. congruence.
    + rewrite (rewires_lookup (rev ls) σ1 σ2 k Hr2).
      * rewrite (rewires_lookup ls σ σ1 k Hr1); eauto.
      * rewrite (rewires_lookup ls σ σ1 k Hr1); eauto.
      * intros Hin. apply Hnin. apply list_elem_of_In, in_rev.
        by apply list_elem_of_In.
  - apply not_elem_of_dom. rewrite Hdom2, Hdom1. by apply not_elem_of_dom.
Qed.

Lemma merge_sort_linked_list_spec σ linked_list ls fuel :
  is_list σ (head linked_list) ls → (length ls + 2 ≤ fuel)%nat →
  ∃ σ' sorted ls',
    merge_sort_linked_list fuel σ linked_list = Some (σ', sorted) ∧
    is_list σ' (head sorted) ls' ∧ ls' ≡ₚ ls ∧
    values σ' ls' = data_of σ <$> ls' ∧
    Sorted Z.le (values σ' ls').
Proof.
  intros Hls Hf. destruct linked_list as [p]. simpl in Hls.
  unfold merge_sort_linked_list. simpl.
  destruct ls as [|l ls].
  { simpl in Hls. subst p. exists σ, (mk_list None), []. repeat split; try done. }
  pose proof Hls as (-> & n & Hn & Hls'). rewrite Hn. simpl.
  destruct ls as [|l2 ls].
  { simpl in Hls'. rewrite Hls'. exists σ, (mk_list (Some l)), [l].
    split; [done|]. split; [exact Hls|]. split; [done|]. split; [done|].
    repeat constructor. }
  pose proof Hls' as (Hnext & _). rewrite Hnext.
  destruct (sort_spec (data_of σ) fuel σ (Some l) (l :: l2 :: ls))
    as (σ' & p' & ls' & Hrun & Hl' & Hperm & Hsorted & Hr & _); try done.
  rewrite Hrun. simpl. exists σ', (mk_list p'), ls'.
  split; [done|]. split; [done|]. split; [done|].
  assert (values σ' ls' = data_of σ <$> ls') as Hvals.
  { apply list_fmap_ext. intros i k Hk. eapply rewires_data_of; [exact Hr|].
    eapply (lseg_is_Some σ _ _ (l :: l2 :: ls)); [exact Hls|].
    rewrite <- Hperm. by eapply list_elem_of_lookup_2. }
  split; [done|]. rewrite Hvals.
  eapply Sorted_fmap; [|exact Hsorted]. done.
Qed.

(** X6: the sequence merge_sort_linked_list returns depends only on the
    elements of the list, not on their order: two lists holding the same
    elements (for instance a list and its reversal) sort to the same
    sequence. *)
Theorem merge_sort_linked_list_canonical σ1 list1 ls1 σ2 list2 ls2 fuel :
  is_list σ1 (head list1) ls1 → is_list σ2 (head list2) ls2 →
  values σ1 ls1 ≡ₚ values σ2 ls2 →
  (length ls1 + 2 ≤ fuel)%nat →
  ∃ σ1' sorted1 σ2' sorted2 vs,
    merge_sort_linked_list fuel σ1 list1 = Some (σ1', sorted1) ∧
    merge_sort_linked_list fuel σ2 list2 = Some (σ2', sorted2) ∧
    to_list fuel σ1' sorted1 = Some vs ∧
    to_list fuel σ2' sorted2 = Some vs.
Proof.
  intros H1 H2 Hperm Hf.
  assert (length ls2 = length ls1) as Hlen.
  { apply Permutation_length in Hperm. unfold values in Hperm.
    by rewrite !length_fmap in Hperm. }
  destruct (merge_sort_linked_list_spec σ1 list1 ls1 fuel H1 Hf)
    as (σ1' & s1 & ls1' & Hrun1 & Hl1 & Hp1 & Hv1 & Hs1).
  destruct (merge_sort_linked_list_spec σ2 list2 ls2 fuel H2)
    as (σ2' & s2 & ls2' & Hrun2 & Hl2 & Hp2 & Hv2 & Hs2); [lia|].
  exists σ1', s1, σ2', s2, (values σ1' ls1').
  split; [done|]. split; [done|]. split.
  - unfold to_list. rewrite (to_list_loop_spec σ1' ls1'); [done|done|].
    apply Permutation_length in Hp1. lia.
  - unfold to_list. rewrite (to_list_loop_spec σ2' ls2'); [|done|].
    2:{ apply Permutation_length in Hp2. lia. }
    simpl. f_equal. symmetry.
    apply (Sorted_unique Z.le); [done|done|].
    rewrite Hv1, Hv2, Hp1, Hp2. exact Hperm.
Qed.

(** X7: get_middle of a list of n >= 1 nodes is the node at index
    (n - 1) // 2, the first of the two middle nodes when n is even; of an
    empty list it is None. *)
Theorem get_middle_index σ p ls fuel :
  is_list σ p ls → (length ls < fuel)%nat →
  get_middle fuel σ p = Some (ls !! ((length ls - 1) / 2)%nat).
Proof.
  intros Hls Hf. destruct ls as [|l ls].
  { simpl in Hls. by subst p. }
  pose proof Hls as (-> & _). unfold get_middle.
  destruct (get_middle_loop_spec fuel σ (Some l) (Some l) (l :: ls) (l :: ls))
    as (a & m & b & Hrun & Heq & Hlen); try done.
  rewrite Hrun. f_equal.
  assert (((length (l :: ls) - 1) / 2)%nat = length a) as ->.
  { symmetry. apply (Nat.div_unique _ 2 _ (length (l :: ls) - 1 - 2 * length a)); lia. }
  rewrite Heq. rewrite lookup_app_r by lia. by rewrite Nat.sub_diag.
Qed.

Lemma demo_reversed_is_list :
  is_list demo_store_reversed (head demo_list) [0; 1; 2; 3; 4]%nat.
Proof.
  simpl. repeat (split; [reflexivity|]; eexists; split; [reflexivity|]).
  reflexivity.
Qed.

Lemma merge_demo_is_list1 :
  is_list merge_demo_store (head merge_demo_list1) [0; 1; 2]%nat.
Proof.
  simpl. repeat (split; [reflexivity|]; eexists; split; [reflexivity|]).
  reflexivity.
Qed.

Lemma merge_demo_is_list2 :
  is_list merge_demo_store (head merge_demo_list2) [3; 4; 5]%nat.
Proof.
  simpl. repeat (split; [reflexivity|]; eexists; split; [reflexivity|]).
  reflexivity.
Qed.

Example merge_sorted_lists_demo :
  ('(σ', merged) ← merge_sorted_lists 7 merge_demo_store
                     merge_demo_list1 merge_demo_list2;
   to_list 7 σ' merged) = Some [1; 2; 3; 4; 5; 6].
Proof. vm_compute. reflexivity. Qed.

Lemma insert_at_beginning_prepends_witness :
  ∃ σ' self' vs,
    to_list 7 demo_store demo_list = Some vs ∧
    insert_at_beginning demo_store demo_list 7 = Some (σ', self') ∧
    to_list 8 σ' self' = Some (7 :: vs) ∧
    (∀ l, is_Some (demo_store !! l) → σ' !! l = demo_store !! l).
Proof.
  apply (insert_at_beginning_prepends demo_store demo_list 7 [0; 1; 2; 3; 4]%nat 7).
  - exact demo_is_list.
  - simpl. lia.
Defined.

Lemma insert_at_end_appends_witness :
  ∃ σ' self' vs,
    to_list 7 demo_store demo_list = Some vs ∧
    insert_at_end 7 demo_store demo_list 7 = Some (σ', self') ∧
    to_list 8 σ' self' = Some (vs ++ [7]) ∧
    ([0; 1; 2; 3; 4]%nat ≠ [] → self' = demo_list) ∧
    (∀ l, is_Some (demo_store !! l) → data <$> σ' !! l = data <$> demo_store !! l).
Proof.
  apply (insert_at_end_appends demo_store demo_list 7 [0; 1; 2; 3; 4]%nat 7).
  - exact demo_is_list.
  - simpl. lia.
Defined.

Lemma insert_at_end_to_list_round_trip_witness :
  ∃ σ' self,
    insert_all_at_end 6 ∅ (mk_list None) [5; 3; 8; 1; 9] = Some (σ', self) ∧
    to_list 6 σ' self = Some [5; 3; 8; 1; 9].
Proof.
  apply (insert_at_end_to_list_round_trip ∅ [5; 3; 8; 1; 9] 6). simpl. lia.
Defined.

Lemma merge_sorted_lists_merges_witness :
  ∃ σ' merged_list vs1 vs2 vs,
    to_list 7 merge_demo_store merge_demo_list1 = Some vs1 ∧
    to_list 7 merge_demo_store merge_demo_list2 = Some vs2 ∧
    merge_sorted_lists 7 merge_demo_store merge_demo_list1 merge_demo_list2
      = Some (σ', merged_list) ∧
    to_list 7 σ' merged_list = Some vs ∧
    vs ≡ₚ vs1 ++ vs2 ∧
    (Sorted Z.le vs1 → Sorted Z.le vs2 → Sorted Z.le vs).
Proof.
  apply (merge_sorted_lists_merges merge_demo_store merge_demo_list1
           merge_demo_list2 [0; 1; 2]%nat [3; 4; 5]%nat 7).
  - exact merge_demo_is_list1.
  - exact merge_demo_is_list2.
  - apply (bool_decide_unpack _). vm_compute. exact I.
  - simpl. lia.
Defined.

Lemma reverse_linked_list_involutive_witness :
  ∃ σ1 reversed,
    reverse_linked_list 7 demo_store demo_list = Some (σ1, reversed) ∧
    reverse_linked_list 7 σ1 reversed = Some (demo_store, demo_list).
Proof.
  apply (reverse_linked_list_involutive demo_store demo_list [0; 1; 2; 3; 4]%nat 7).
  - exact demo_is_list.
  - simpl. lia.
Defined.

Lemma merge_sort_linked_list_canonical_witness :
  ∃ σ1' sorted1 σ2' sorted2 vs,
    merge_sort_linked_list 7 demo_store demo_list = Some (σ1', sorted1) ∧
    merge_sort_linked_list 7 demo_store_reversed demo_list = Some (σ2', sorted2) ∧
    to_list 7 σ1' sorted1 = Some vs ∧
    to_list 7 σ2' sorted2 = Some vs.
Proof.
  apply (merge_sort_linked_list_canonical demo_store demo_list [0; 1; 2; 3; 4]%nat
           demo_store_reversed demo_list [0; 1; 2; 3; 4]%nat 7).
  - exact demo_is_list.
  - exact demo_reversed_is_list.
  - change ([5; 3; 8; 1; 9] ≡ₚ reverse [5; 3; 8; 1; 9]).
    symmetry. apply reverse_Permutation.
  - simpl. lia.
Defined.

Lemma get_middle_index_witness :
  get_middle 7 demo_store (head demo_list)
  = Some ([0; 1; 2; 3; 4]%nat !! ((length [0; 1; 2; 3; 4]%nat - 1) / 2)%nat).
Proof.
  apply (get_middle_index demo_store (head demo_list) [0; 1; 2; 3; 4]%nat 7).
  - exact demo_is_list.
  - simpl. lia.
Defined.

End Task1.

Module Task3.
Local Open Scope Z_scope.

Inductive exn := ValueError | KeyError.

Inductive result (A : Type) := Ok (a : A) | Raise (e : exn).
Arguments Ok {A} a.
Arguments Raise {A} e.

#[local] Instance result_bind : MBind result := λ A B f m,
  match m with Ok a => f a | Raise e => Raise e end.

(* for x in xs: s = body(s, x), leaving at the first exception *)
Fixpoint for_each {S A} (body : S → A → result S) (s : S) (xs : list A)
    : result S :=
  match xs with
  | [] => Ok s
  | x :: xs' => s' ← body s x; for_each body s' xs'
  end.

(* Numbers.  The source annotates weights as float, and Python does not
   enforce the annotation.  This module takes the weights to be Python ints:
   sums and comparisons of ints are exact, also against float('inf'), so a
   distance is an integer or float('inf').  Float weights, on which sums are
   rounded, may overflow to inf and nan passes every comparison, are the
   subject of the module Task3Float below. *)
Inductive dist := Fin (d : Z) | Inf.

#[local] Instance dist_eq_dec : EqDecision dist.
Proof. solve_decision. Defined.

Definition dist_lt (a b : dist) : Prop :=
  match a, b with
  | Fin x, Fin y => x < y
  | Fin _, Inf => True
  | Inf, _ => False
  end.

#[local] Instance dist_lt_dec a b : Decision (dist_lt a b).
Proof. destruct a, b; simpl; apply _. Defined.

Definition dist_add (a : dist) (w : Z) : dist :=
  match a with Fin x => Fin (x + w) | Inf => Inf end.

Record Edge := mk_edge { destination : Z; weight : Z }.

(* Edge(destination, weight), with __post_init__ *)
Definition new_edge (destination weight : Z) : result Edge :=
  if decide (weight < 0) then Raise ValueError
  else Ok (mk_edge destination weight).

Record Graph := mk_graph { vertices : Z; adjacency_list : gmap Z (list Edge) }.

(* Graph(vertices=n, adjacency_list=adj), with __post_init__ *)
Definition new_graph (vertices : Z) (adj : gmap Z (list Edge)) : result Graph :=
  if decide (vertices ≤ 0) then Raise ValueError
  else Ok (mk_graph vertices
             (foldl (λ a i, if decide (i ∈ dom a) then a else <[i := []]> a)
                adj (seqZ 0 vertices))).

(* add_edge mutates the graph: the graph after the call and the outcome *)
Definition add_edge (self : Graph) (source destination weight : Z)
    : Graph * result unit :=
  if decide (0 ≤ source < vertices self ∧ 0 ≤ destination < vertices self) then
    match new_edge destination weight with
    | Raise e => (self, Raise e)
    | Ok edge =>
        match adjacency_list self !! source with
        | None => (self, Raise KeyError)
        | Some es =>
            (mk_graph (vertices self)
               (<[source := es ++ [edge]]> (adjacency_list self)), Ok ())
        end
    end
  else (self, Raise ValueError).


Definition get_neighbors (self : Graph) (vertex : Z) : list Edge :=
  default [] (adjacency_list self !! vertex).

Record DijkstraResult := mk_result {
  distances : gmap Z dist;
  predecessors : gmap Z (option Z);
  source : Z
}.

(* d[k] where a missing key raises KeyError *)
Definition item {V} (d : gmap Z V) (k : Z) : result V :=
  match d !! k with Some v => Ok v | None => Raise KeyError end.

Fixpoint get_path_loop (fuel : nat) (self : DijkstraResult)
    (current : option Z) (path : list Z) : option (list Z) :=
  match current with
  | None => Some path
  | Some c =>
      match fuel with
      | O => None
      | S fuel' =>
          get_path_loop fuel' self
            (default None (predecessors self !! c)) (path ++ [c])
      end
  end.

(* The outer option is None when the fuel runs out. *)
Definition get_path (fuel : nat) (self : DijkstraResult) (destination : Z)
    : option (option (list Z)) :=
  match distances self !! destination with
  | None => Some None
  | Some d =>
      if decide (d = Inf) then Some None
      else path ← get_path_loop fuel self (Some destination) [];
           Some (Some (reverse path))
  end.

Definition get_distance (self : DijkstraResult) (destination : Z) : dist :=
  default Inf (distances self !! destination).

(* heapq on tuples (distance, vertex), by its contract: heappop removes and
   returns a smallest tuple in the lexicographic order. *)
Abbreviation entry := (dist * Z)%type.

Definition entry_le (a b : entry) : Prop :=
  dist_lt a.1 b.1 ∨ (a.1 = b.1 ∧ a.2 ≤ b.2).

#[local] Instance entry_le_dec a b : Decision (entry_le a b).
Proof. unfold entry_le. apply _. Defined.

Definition heappush (heap : list entry) (e : entry) : list entry := e :: heap.

Fixpoint heappop (heap : list entry) : option (entry * list entry) :=
  match heap with
  | [] => None
  | x :: heap' =>
      match heappop heap' with
      | None => Some (x, [])
      | Some (m, rest) =>
          if decide (entry_le x m) then Some (x, heap')
          else Some (m, x :: rest)
      end
  end.

Record loop_state := mk_state {
  st_distances : gmap Z dist;
  st_predecessors : gmap Z (option Z);
  min_heap : list entry;
  visited : gset Z
}.

(* body of the loop over the edges of current_vertex *)
Definition relax (current_vertex : Z) (st : loop_state) (edge : Edge)
    : result loop_state :=
  let neighbor := destination edge in
  let weight := weight edge in
  if decide (neighbor ∈ visited st) then Ok st
  else
    dcur ← item (st_distances st) current_vertex;
    let new_distance := dist_add dcur weight in
    dn ← item (st_distances st) neighbor;
    if decide (dist_lt new_distance dn) then
      Ok (mk_state (<[neighbor := new_distance]> (st_distances st))
                   (<[neighbor := Some current_vertex]> (st_predecessors st))
                   (heappush (min_heap st) (new_distance, neighbor))
                   (visited st))
    else Ok st.

(* One iteration of the while loop on the popped entry. *)
Definition iteration (graph : Graph) (st : loop_state)
    (current : entry) (heap' : list entry) : result loop_state :=
  let '(current_distance, current_vertex) := current in
  if decide (current_vertex ∈ visited st) then
    Ok (mk_state (st_distances st) (st_predecessors st) heap' (visited st))
  else
    let st' := mk_state (st_distances st) (st_predecessors st) heap'
                        ({[current_vertex]} ∪ visited st) in
    dcur ← item (st_distances st') current_vertex;
    if decide (dist_lt dcur current_distance) then Ok st'
    else for_each (relax current_vertex) st' (get_neighbors graph current_vertex).

(* while min_heap: ...; None when the fuel runs out *)
Fixpoint while_loop (fuel : nat) (graph : Graph) (st : loop_state)
    : option (result loop_state) :=
  match heappop (min_heap st) with
  | None => Some (Ok st)
  | Some (current, heap') =>
      match fuel with
      | O => None
      | S fuel' =>
          match iteration graph st current heap' with
          | Raise e => Some (Raise e)
          | Ok st' => while_loop fuel' graph st'
          end
      end
  end.

Definition initial_state (graph : Graph) (source : Z) : loop_state :=
  let distances : gmap Z dist :=
    list_to_map ((λ i, (i, Inf)) <$> seqZ 0 (vertices graph)) in
  let predecessors : gmap Z (option Z) :=
    list_to_map ((λ i, (i, None)) <$> seqZ 0 (vertices graph)) in
  mk_state (<[source := Fin 0]> distances) predecessors [(Fin 0, source)] ∅.

Definition find_shortest_paths (fuel : nat) (graph : Graph) (source : Z)
    : option (result DijkstraResult) :=
  if decide (0 ≤ source < vertices graph) then
    r ← while_loop fuel graph (initial_state graph source);
    Some (st ← r;
          Ok (mk_result (st_distances st) (st_predecessors st) source))
  else Some (Raise ValueError).

(* The first graph of main(). *)
Definition add_edges (g : Graph) (es : list (Z * Z * Z)) : Graph :=
  foldl (λ g '(s, d, w), (add_edge g s d w).1) g es.

Definition demo_graph : Graph :=
  match new_graph 6 ∅ with
  | Ok g => add_edges g [(0, 1, 4); (0, 2, 2); (1, 2, 1); (1, 3, 5); (2, 3, 8);
                         (2, 4, 10); (3, 4, 2); (3, 5, 6); (4, 5, 3)]
  | Raise _ => mk_graph 0 ∅
  end.


(* Specification side. *)
Definition in_range (g : Graph) (v : Z) : Prop := 0 ≤ v < vertices g.

Definition edge (g : Graph) (u : Z) (e : Edge) : Prop := e ∈ get_neighbors g u.

(* every edge leaving a vertex of the graph leads to a vertex of the graph *)
Definition well_formed (g : Graph) : Prop :=
  ∀ u e, in_range g u → edge g u e → in_range g (destination e).

Definition nonneg_weights (g : Graph) : Prop :=
  ∀ u e, in_range g u → edge g u e → 0 ≤ weight e.

(* path g s v L: a directed path from s to v of total weight L *)
Inductive path (g : Graph) (s : Z) : Z → Z → Prop :=
| path_nil : path g s s 0
| path_snoc u e L :
    path g s u L → edge g u e → path g s (destination e) (L + weight e).

Definition reachable (g : Graph) (s v : Z) : Prop := ∃ L, path g s v L.

Definition shortest (g : Graph) (s v d : Z) : Prop :=
  path g s v d ∧ ∀ L, path g s v L → d ≤ L.

(* a list of vertices joined by edges of the graph, with its total weight *)
Inductive vpath (g : Graph) : list Z → Z → Prop :=
| vpath_one v : vpath g [v] 0
| vpath_cons u e p L :
    edge g u e → vpath g (destination e :: p) L →
    vpath g (u :: destination e :: p) (weight e + L).

(* graphs obtained from the constructor by add_edge calls *)
Inductive built : Graph → Prop :=
| built_new n adj g :
    (∀ v es e, adj !! v = Some es → e ∈ es →
       ∃ d w, new_edge d w = Ok e) →
    new_graph n adj = Ok g → built g
| built_add g s d w :
    built g → built (add_edge g s d w).1.

(* graphs obtained from Graph(vertices=n) by add_edge calls, as main() does *)
Inductive constructed : Graph → Prop :=
| constructed_new n g : new_graph n ∅ = Ok g → constructed g
| constructed_add g s d w :
    constructed g → constructed (add_edge g s d w).1.

(* Graph(2, {0: [Edge(5, 1)]}): the constructor takes an adjacency list as
   it is, here with an edge that leaves the graph. *)
Definition dangling_graph : Graph :=
  mk_graph 2 (list_to_map [(0, [mk_edge 5 1]); (1, [])]).


(* every vertex of the graph has its adjacency entry *)
Definition has_keys (g : Graph) : Prop :=
  ∀ v, in_range g v → is_Some (adjacency_list g !! v).

Definition step (g : Graph) (st st' : loop_state) : Prop :=
  ∃ current heap', heappop (min_heap st) = Some (current, heap') ∧
    iteration g st current heap' = Ok st'.

(* number of edges leaving the vertices of the graph outside V *)
Definition pending (g : Graph) (V : gset Z) : nat :=
  sum_list_with (λ v, if decide (v ∈ V) then 0%nat else length (get_neighbors g v))
    (seqZ 0 (vertices g)).

Definition edge_count (g : Graph) : nat := pending g ∅.

(* The loop invariant.  C tells for which edges leaving a visited
   vertex the relaxation has been done already. *)
Record inv (g : Graph) (s : Z) (C : Z → Edge → Prop) (st : loop_state)
    : Prop := mk_inv {
  inv_dom : ∀ v, in_range g v ↔ is_Some (st_distances st !! v);
  inv_sound : ∀ v d, st_distances st !! v = Some (Fin d) → path g s v d;
  inv_src : st_distances st !! s = Some (Fin 0);
  inv_vis : ∀ v, v ∈ visited st →
    ∃ d, st_distances st !! v = Some (Fin d) ∧ ∀ L, path g s v L → d ≤ L;
  inv_closed : ∀ u e du, u ∈ visited st → edge g u e → C u e →
    st_distances st !! u = Some (Fin du) →
    ∃ dv, st_distances st !! destination e = Some (Fin dv) ∧
      dv ≤ du + weight e;
  inv_heap_in : ∀ v d, v ∉ visited st →
    st_distances st !! v = Some (Fin d) → (Fin d, v) ∈ min_heap st;
  inv_heap_key : ∀ k v, (k, v) ∈ min_heap st →
    ∃ d dk, k = Fin dk ∧ st_distances st !! v = Some (Fin d) ∧ d ≤ dk;
  inv_first : s ∈ visited st ∨
    ∀ v d, st_distances st !! v = Some (Fin d) → v = s;
  inv_pred : ∀ v u, st_predecessors st !! v = Some (Some u) →
    v ≠ s ∧ u ∈ visited st ∧
    ∃ e du, edge g u e ∧ destination e = v ∧
      st_distances st !! u = Some (Fin du) ∧
      st_distances st !! v = Some (Fin (du + weight e));
  inv_pred_fin : ∀ v d, st_distances st !! v = Some (Fin d) → v ≠ s →
    ∃ u, st_predecessors st !! v = Some (Some u);
  inv_order : ∃ ord, NoDup ord ∧ (∀ v, v ∈ ord ↔ v ∈ visited st) ∧
    ∀ v u, st_predecessors st !! v = Some (Some u) →
      ∀ o1 o2, ord = o1 ++ v :: o2 → u ∈ o2
}.

Definition all_edges : Z → Edge → Prop := λ _ _, True.

Definition relaxed (cur : Z) (done : list Edge) : Z → Edge → Prop :=
  λ u e, u ≠ cur ∨ e ∈ done.

Definition potential (g : Graph) (st : loop_state) : nat :=
  (length (min_heap st) + pending g (visited st))%nat.


(* Checking a concrete graph by computation. *)
Definition edges_all (P : Edge → bool) (g : Graph) : bool :=
  forallb (λ u, forallb P (get_neighbors g u)) (seqZ 0 (vertices g)).

(* the distances of all vertices after a run, as print_results reads them *)
Definition run_distances (fuel : nat) (g : Graph) (s : Z) : option (list dist) :=
  match find_shortest_paths fuel g s with
  | Some (Ok r) => Some (get_distance r <$> seqZ 0 (vertices g))
  | _ => None
  end.

Definition run_paths (fuel : nat) (g : Graph) (s : Z)
    : option (list (option (list Z))) :=
  match find_shortest_paths fuel g s with
  | Some (Ok r) =>
      Some ((λ v, default None (get_path fuel r v)) <$> seqZ 0 (vertices g))
  | _ => None
  end.

(* A graph holding a negative weight (an Edge whose weight was assigned
   after its construction): the run ends normally, and vertex 1 is left at
   distance 2 although 0 -> 2 -> 1 weighs 1. *)
Definition negative_graph : Graph :=
  mk_graph 3 (list_to_map [(0, [mk_edge 1 2; mk_edge 2 3]); (1, []);
                           (2, [mk_edge 1 (-2)])]).

Definition stale_state : loop_state :=
  mk_state {[0 := Fin 0]} {[0 := None]} [(Fin 0, 0)] {[0]}.


Lemma entry_le_refl a : entry_le a a.
Proof. right. split; [done|lia]. Qed.

Lemma entry_le_trans a b c : entry_le a b → entry_le b c → entry_le a c.
Proof.
  unfold entry_le.
  destruct a as [[x|] va], b as [[y|] vb], c as [[z|] vc]; simpl;
    intros [?|[Hab ?]] [?|[Hbc ?]]; try done; try discriminate;
    try (injection Hab as ->); try (injection Hbc as ->);
    first [left; lia | left; done | right; split; [done|lia]].
Qed.

Lemma entry_le_total a b : ¬ entry_le a b → entry_le b a.
Proof.
  unfold entry_le. destruct a as [[x|] va], b as [[y|] vb]; simpl; intros Hn.
  - destruct (decide (y < x)); [by left|].
    destruct (decide (x = y)) as [->|?]; [|exfalso; apply Hn; left; lia].
    right. split; [done|]. destruct (decide (vb ≤ va)); [done|].
    exfalso. apply Hn. right. split; [done|lia].
  - exfalso. apply Hn. by left.
  - by left.
  - right. split; [done|]. destruct (decide (vb ≤ va)); [done|].
    exfalso. apply Hn. right. split; [done|lia].
Qed.

Lemma heappop_spec heap m rest :
  heappop heap = Some (m, rest) →
  heap ≡ₚ m :: rest ∧ ∀ e, e ∈ heap → entry_le m e.
Proof.
  revert m rest. induction heap as [|x heap IH]; intros m rest; simpl; [done|].
  destruct (heappop heap) as [[m' rest']|] eqn:Hpop.
  - destruct (IH m' rest' eq_refl) as [Hperm Hmin].
    destruct (decide (entry_le x m')) as [Hle|Hnle]; intros [= <- <-].
    + split; [done|]. intros e [->|He]%elem_of_cons.
      * apply entry_le_refl.
      * eapply entry_le_trans; [exact Hle|by apply Hmin].
    + split; [rewrite Hperm; apply perm_swap|].
      intros e [->|He]%elem_of_cons; [|by apply Hmin].
      by apply entry_le_total.
  - intros [= <- <-]. destruct heap as [|y heap].
    + split; [done|]. intros e ->%list_elem_of_singleton. apply entry_le_refl.
    + simpl in Hpop. destruct (heappop heap) as [[? ?]|];
        [destruct (decide _)|]; done.
Qed.

Lemma heappop_None heap : heappop heap = None → heap = [].
Proof.
  destruct heap as [|x heap]; [done|]. simpl.
  destruct (heappop heap) as [[? ?]|]; [destruct (decide _)|]; done.
Qed.

Lemma lookup_const_map {A} (l : list Z) (c : A) (v : Z) :
  (list_to_map ((λ i, (i, c)) <$> l) : gmap Z A) !! v
  = if decide (v ∈ l) then Some c else None.
Proof.
  induction l as [|x l IH].
  - case_decide as Hin; [by apply elem_of_nil in Hin|]. apply lookup_empty.
  - cbn [fmap list_fmap list_to_map foldr]. rewrite lookup_insert. simpl.
    destruct (decide (x = v)) as [->|Hne].
    + rewrite decide_True; [done|]. apply elem_of_cons. by left.
    + rewrite IH. destruct (decide (v ∈ l)) as [Hin|Hnin].
      * rewrite decide_True; [done|]. apply elem_of_cons. by right.
      * rewrite decide_False; [done|]. intros [->|?]%elem_of_cons; done.
Qed.

Lemma item_Ok {V} (d : gmap Z V) k v : d !! k = Some v → item d k = Ok v.
Proof. intros H. unfold item. by rewrite H. Qed.

Section Correctness.
Variable g : Graph.
Variable s : Z.
Hypothesis Hwf : well_formed g.
Hypothesis Hnn : nonneg_weights g.
Hypothesis Hs : in_range g s.

Lemma path_in_range v L : path g s v L → in_range g v.
Proof. induction 1; eauto. Qed.

Lemma path_nonneg v L : path g s v L → 0 ≤ L.
Proof.
  induction 1 as [|u e L Hp IH He]; [lia|].
  pose proof (Hnn u e (path_in_range _ _ Hp) He). lia.
Qed.

Lemma inv_weaken (C C' : Z → Edge → Prop) st :
  (∀ u e, u ∈ visited st → edge g u e → C' u e → C u e) →
  inv g s C st → inv g s C' st.
Proof.
  intros HC [H1 H2 H3 H4 H5 H6 H7 H8 H9 H10 H11].
  constructor; try done. intros u e du Hu He HC'. apply H5; auto.
Qed.

(* every path to an unvisited vertex crosses a queued vertex *)
Lemma frontier st v L :
  inv g s all_edges st → path g s v L → v ∉ visited st →
  ∃ x dx, (x ∉ visited st) ∧ st_distances st !! x = Some (Fin dx) ∧ dx ≤ L.
Proof.
  intros Hinv Hp. induction Hp as [|u e L Hp IH He]; intros Hv.
  - exists s, 0. split; [done|]. split; [apply (inv_src _ _ _ _ Hinv)|lia].
  - pose proof (Hnn u e (path_in_range _ _ Hp) He) as Hw.
    destruct (decide (u ∈ visited st)) as [Hu|Hu].
    + destruct (inv_vis _ _ _ _ Hinv u Hu) as (du & Hdu & Hopt).
      destruct (inv_closed _ _ _ _ Hinv u e du Hu He I Hdu) as (dv & Hdv & Hle).
      exists (destination e), dv. split; [done|]. split; [done|].
      specialize (Hopt L Hp). lia.
    + destruct (IH Hu) as (x & dx & Hx & Hdx & Hle).
      exists x, dx. split; [done|]. split; [done|]. lia.
Qed.

Lemma initial_state_inv : inv g s all_edges (initial_state g s).
Proof.
  unfold initial_state. constructor; simpl.
  - intros v. rewrite lookup_insert. destruct (decide (s = v)) as [<-|Hne].
    + split; eauto.
    + rewrite lookup_const_map. unfold in_range.
      destruct (decide (v ∈ seqZ 0 (vertices g))) as [Hin|Hnin].
      * apply elem_of_seqZ in Hin. split; [eauto|lia].
      * rewrite elem_of_seqZ in Hnin. split; [lia|]. by intros [? ?].
  - intros v d. rewrite lookup_insert. destruct (decide (s = v)) as [<-|Hne].
    + intros [= <-]. constructor.
    + rewrite lookup_const_map. by destruct (decide _).
  - by rewrite lookup_insert_eq.
  - intros v Hv. by apply not_elem_of_empty in Hv.
  - intros u e du Hu. by apply not_elem_of_empty in Hu.
  - intros v d _. rewrite lookup_insert. destruct (decide (s = v)) as [<-|Hne].
    + intros [= <-]. apply elem_of_cons. by left.
    + rewrite lookup_const_map. by destruct (decide _).
  - intros k v [[= -> ->]|Hin]%elem_of_cons.
    + exists 0, 0. rewrite lookup_insert_eq. split; [done|]. split; [done|lia].
    + by apply elem_of_nil in Hin.
  - right. intros v d. rewrite lookup_insert.
    destruct (decide (s = v)) as [<-|Hne]; [done|].
    rewrite lookup_const_map. by destruct (decide _).
  - intros v u. rewrite lookup_const_map. by destruct (decide _).
  - intros v d. rewrite lookup_insert. destruct (decide (s = v)) as [<-|Hne].
    + done.
    + rewrite lookup_const_map. by destruct (decide _).
  - exists []. split; [constructor|]. split.
    + intros v. split; intros Hv; [by apply elem_of_nil in Hv|].
      by apply not_elem_of_empty in Hv.
    + intros v u. rewrite lookup_const_map. by destruct (decide _).
Qed.

Lemma inv_visited_source st C cur d :
  inv g s C st → cur ∈ visited st → st_distances st !! cur = Some (Fin d) →
  s ∈ visited st.
Proof.
  intros Hinv Hcur Hd. destruct (inv_first _ _ _ _ Hinv) as [?|Hall]; [done|].
  by rewrite <- (Hall cur d Hd).
Qed.

Lemma relax_keep cur d done st e :
  inv g s (relaxed cur done) st → cur ∈ visited st →
  st_distances st !! cur = Some (Fin d) → edge g cur e →
  (∃ dv, st_distances st !! destination e = Some (Fin dv) ∧
     dv ≤ d + weight e) →
  inv g s (relaxed cur (e :: done)) st.
Proof.
  intros Hinv Hcur Hd He Hle. pose proof Hinv as [H1 H2 H3 H4 H5 H6 H7 H8 H9 H10 H11].
  constructor; try done.
  intros u e' du Hu He' [Hne|[->|Hin]%elem_of_cons] Hdu.
  - apply (H5 u e' du); try done. by left.
  - destruct (decide (u = cur)) as [->|Hne].
    + rewrite Hd in Hdu. injection Hdu as <-. done.
    + apply (H5 u e du); try done. by left.
  - apply (H5 u e' du); try done. by right.
Qed.

Lemma relax_inv cur d done st e :
  inv g s (relaxed cur done) st → cur ∈ visited st → in_range g cur →
  st_distances st !! cur = Some (Fin d) → edge g cur e →
  ∃ st', relax cur st e = Ok st' ∧
    inv g s (relaxed cur (e :: done)) st' ∧
    visited st' = visited st ∧
    (∀ v, v ∈ visited st → st_distances st' !! v = st_distances st !! v) ∧
    (length (min_heap st') ≤ S (length (min_heap st)))%nat.
Proof.
  intros Hinv Hcur Hcr Hd He.
  pose proof (Hwf cur e Hcr He) as Hxr.
  pose proof (Hnn cur e Hcr He) as Hw.
  pose proof (inv_visited_source _ _ _ _ Hinv Hcur Hd) as Hsv.
  pose proof (inv_sound _ _ _ _ Hinv cur d Hd) as Hpath.
  unfold relax. set (x := destination e) in *.
  destruct (decide (x ∈ visited st)) as [Hx|Hx].
  { exists st. split; [done|]. split; [|by repeat split; try lia].
    eapply relax_keep; try done.
    destruct (inv_vis _ _ _ _ Hinv x Hx) as (dx & Hdx & Hopt).
    exists dx. split; [done|]. apply Hopt.
    by apply (path_snoc _ _ cur e d). }
  rewrite (item_Ok _ _ _ Hd). cbn [mbind result_bind].
  destruct (proj1 (inv_dom _ _ _ _ Hinv x) Hxr) as [dn Hdn].
  rewrite (item_Ok _ _ _ Hdn). cbn [mbind result_bind dist_add].
  destruct (decide (dist_lt (Fin (d + weight e)) dn)) as [Hlt|Hnlt].
  2:{ exists st. split; [done|]. split; [|by repeat split; try lia].
      eapply relax_keep; try done.
      destruct dn as [dx|]; simpl in Hnlt; [|done].
      exists dx. split; [done|lia]. }
  assert (x ≠ s) as Hxs by (intros ->; done).
  assert (x ≠ cur) as Hxc by (intros ->; done).
  pose proof Hinv as [H1 H2 H3 H4 H5 H6 H7 H8 H9 H10 H11].
  eexists. split; [done|]. split; [|simpl; repeat split; try lia].
  2:{ intros v Hv. rewrite lookup_insert_ne; [done|]. by intros <-. }
  constructor; simpl.
  - intros v. rewrite lookup_insert. destruct (decide (x = v)) as [<-|?].
    + split; eauto.
    + apply H1.
  - intros v dv. rewrite lookup_insert. destruct (decide (x = v)) as [<-|?].
    + intros [= <-]. by apply (path_snoc _ _ cur e d).
    + apply H2.
  - by rewrite lookup_insert_ne.
  - intros v Hv. rewrite lookup_insert_ne by (by intros <-). by apply H4.
  - intros u e' du Hu He' HC.
    rewrite lookup_insert_ne by (by intros <-). intros Hdu.
    assert (relaxed cur done u e' ∨ (u = cur ∧ e' = e)) as [Hold|[-> ->]].
    { destruct HC as [?|[->|?]%elem_of_cons].
      - left. by left.
      - destruct (decide (u = cur)); [by right|]. left. by left.
      - left. by right. }
    + destruct (H5 u e' du Hu He' Hold Hdu) as (dv & Hdv & Hle).
      rewrite lookup_insert. destruct (decide (x = destination e')) as [Heq|?].
      * exists (d + weight e). split; [done|].
        rewrite <- Heq, Hdn in Hdv. injection Hdv as ->. simpl in Hlt. lia.
      * by exists dv.
    + rewrite Hd in Hdu. injection Hdu as <-.
      exists (d + weight e). fold x. rewrite lookup_insert_eq. split; [done|lia].
  - intros v dv Hv. rewrite lookup_insert.
    destruct (decide (x = v)) as [<-|?].
    + intros [= <-]. apply elem_of_cons. by left.
    + intros Hdv. apply elem_of_cons. right. by apply H6.
  - intros k v [[= -> ->]|Hin]%elem_of_cons.
    + exists (d + weight e), (d + weight e). rewrite lookup_insert_eq.
      split; [done|]. split; [done|lia].
    + destruct (H7 k v Hin) as (d0 & dk & -> & Hd0 & Hle).
      rewrite lookup_insert. destruct (decide (x = v)) as [<-|?].
      * exists (d + weight e), dk. split; [done|]. split; [done|].
        rewrite Hdn in Hd0. injection Hd0 as ->. simpl in Hlt. lia.
      * by exists d0, dk.
  - by left.
  - intros v u. rewrite lookup_insert. destruct (decide (x = v)) as [<-|?].
    + intros [= <-]. split; [done|]. split; [done|].
      exists e, d. split; [done|]. split; [done|].
      rewrite lookup_insert_ne by done. split; [done|].
      by rewrite lookup_insert_eq.
    + intros Hp. destruct (H9 v u Hp) as (Hvs & Hu & e0 & du & He0 & Hdst & Hdu & Hdv).
      split; [done|]. split; [done|]. exists e0, du.
      split; [done|]. split; [done|].
      rewrite !lookup_insert_ne; [done|done|by intros <-].
  - intros v dv. rewrite !lookup_insert.
    destruct (decide (x = v)) as [<-|?]; [by eauto|]. apply H10.
  - destruct H11 as (ord & Hnd & Hord & Hpo). exists ord.
    split; [done|]. split; [done|].
    intros v u. rewrite lookup_insert. destruct (decide (x = v)) as [<-|?].
    + intros _ o1 o2 ->. exfalso. apply Hx, Hord.
      apply elem_of_app. right. apply elem_of_cons. by left.
    + apply Hpo.
Qed.

Lemma relax_all_inv cur d : ∀ todo done st,
  inv g s (relaxed cur done) st → cur ∈ visited st → in_range g cur →
  st_distances st !! cur = Some (Fin d) →
  (∀ e, e ∈ todo → edge g cur e) →
  ∃ st', for_each (relax cur) st todo = Ok st' ∧
    inv g s (relaxed cur (rev todo ++ done)) st' ∧
    visited st' = visited st ∧
    (∀ v, v ∈ visited st → st_distances st' !! v = st_distances st !! v) ∧
    (length (min_heap st') ≤ length (min_heap st) + length todo)%nat.
Proof.
  induction todo as [|e todo IH]; intros done st Hinv Hcur Hcr Hd Hedges.
  - exists st. simpl. split; [done|]. split; [exact Hinv|].
    split; [done|]. split; [done|]. lia.
  - destruct (relax_inv cur d done st e) as (st1 & Hrun & Hinv1 & Hv1 & Hd1 & Hl1);
      try done.
    { apply Hedges, elem_of_cons. by left. }
    destruct (IH (e :: done) st1) as (st' & Hrun' & Hinv' & Hv' & Hd' & Hl');
      try done.
    { by rewrite Hv1. }
    { by rewrite Hd1. }
    { intros e' He'. apply Hedges, elem_of_cons. by right. }
    exists st'. split; [simpl; by rewrite Hrun|]. split.
    { simpl. by rewrite <- app_assoc. }
    split; [congruence|]. split.
    { intros v Hv. rewrite Hd', Hd1; [done|done|by rewrite Hv1]. }
    simpl. lia.
Qed.

Lemma pending_visit V cur :
  in_range g cur → cur ∉ V →
  (pending g ({[cur]} ∪ V) + length (get_neighbors g cur))%nat = pending g V.
Proof.
  intros Hr Hc. unfold pending.
  assert (cur ∈ seqZ 0 (vertices g)) as Hin
    by (apply elem_of_seqZ; unfold in_range in Hr; lia).
  pose proof (NoDup_seqZ 0 (vertices g)) as Hnd.
  revert Hin Hnd. generalize (seqZ 0 (vertices g)) as l.
  assert (∀ l : list Z, cur ∉ l →
    sum_list_with (λ v, if decide (v ∈ {[cur]} ∪ V) then 0%nat
                        else length (get_neighbors g v)) l
    = sum_list_with (λ v, if decide (v ∈ V) then 0%nat
                          else length (get_neighbors g v)) l) as Hsame.
  { induction l as [|x l IH]; intros Hx; simpl; [done|].
    rewrite IH by (intros ?; apply Hx, elem_of_cons; by right).
    assert (x ≠ cur) by (intros ->; apply Hx, elem_of_cons; by left).
    destruct (decide (x ∈ V)).
    - rewrite decide_True; [done|]. apply elem_of_union. by right.
    - rewrite decide_False; [done|].
      intros [?%elem_of_singleton|?]%elem_of_union; done. }
  induction l as [|x l IH]; intros Hin Hnd; simpl.
  - by apply elem_of_nil in Hin.
  - apply NoDup_cons in Hnd as [Hx Hnd].
    destruct (decide (x = cur)) as [->|Hne].
    + rewrite Hsame by done.
      rewrite decide_True by (apply elem_of_union; left; by apply elem_of_singleton).
      rewrite decide_False by done. lia.
    + apply elem_of_cons in Hin as [?|Hin]; [done|].
      specialize (IH Hin Hnd).
      destruct (decide (x ∈ V)).
      * rewrite decide_True by (apply elem_of_union; by right). lia.
      * rewrite decide_False; [lia|].
        intros [?%elem_of_singleton|?]%elem_of_union; done.
Qed.

Lemma iteration_inv st k cur heap' :
  inv g s all_edges st → heappop (min_heap st) = Some ((k, cur), heap') →
  ∃ st', iteration g st (k, cur) heap' = Ok st' ∧
    inv g s all_edges st' ∧
    (∀ v, v ∈ visited st → v ∈ visited st') ∧
    (∀ v, v ∈ visited st → st_distances st' !! v = st_distances st !! v) ∧
    (potential g st' < potential g st)%nat ∧
    cur ∈ visited st' ∧
    (cur ∉ visited st →
       ∃ d, k = Fin d ∧ st_distances st !! cur = Some (Fin d) ∧
         shortest g s cur d ∧ st_distances st' !! cur = Some (Fin d)).
Proof.
  intros Hinv Hpop. apply heappop_spec in Hpop as [Hperm Hmin].
  pose proof Hinv as [H1 H2 H3 H4 H5 H6 H7 H8 H9 H10 H11].
  assert ((k, cur) ∈ min_heap st) as Hin
    by (rewrite Hperm; apply elem_of_cons; by left).
  destruct (H7 k cur Hin) as (d & dk & -> & Hd & Hle).
  assert (in_range g cur) as Hcr by (apply H1; eauto).
  assert (length (min_heap st) = S (length heap')) as Hlen
    by (by rewrite Hperm).
  assert (∀ e, e ∈ heap' → e ∈ min_heap st) as Hsub.
  { intros e He. rewrite Hperm. apply elem_of_cons. by right. }
  unfold iteration.
  destruct (decide (cur ∈ visited st)) as [Hvis|Hvis].
  { eexists. split; [done|]. split; [|simpl; repeat split; try done].
    - constructor; simpl; try done.
      + intros v dv Hv Hdv. specialize (H6 v dv Hv Hdv). rewrite Hperm in H6.
        apply elem_of_cons in H6 as [[= _ ->]|?]; done.
      + intros k' v Hk. apply H7. by apply Hsub.
    - unfold potential. simpl. lia. }
  assert (dk = d) as ->.
  { specialize (H6 cur d Hvis Hd). apply Hmin in H6.
    destruct H6 as [Hlt|[Heq _]]; [simpl in Hlt; lia|].
    simpl in Heq. injection Heq as ->. lia. }
  set (st2 := mk_state (st_distances st) (st_predecessors st) heap'
                       ({[cur]} ∪ visited st)).
  assert (∀ L, path g s cur L → d ≤ L) as Hopt.
  { intros L Hp. destruct (frontier st cur L Hinv Hp Hvis) as (x & dx & Hx & Hdx & HL).
    specialize (H6 x dx Hx Hdx). apply Hmin in H6.
    destruct H6 as [Hlt|[Heq _]]; [simpl in Hlt; lia|].
    simpl in Heq. injection Heq as ->. lia. }
  assert (inv g s (relaxed cur []) st2) as Hinv2.
  { constructor; simpl; try done.
    - intros v [->%elem_of_singleton|Hv]%elem_of_union; [by exists d|by apply H4].
    - intros u e du [->%elem_of_singleton|Hu]%elem_of_union He [Hne|Hnil] Hdu;
        try done; try (by apply elem_of_nil in Hnil).
      by apply (H5 u e du).
    - intros v dv Hv Hdv. assert (v ∉ visited st) as Hv'.
      { intros ?. apply Hv, elem_of_union. by right. }
      specialize (H6 v dv Hv' Hdv). rewrite Hperm in H6.
      apply elem_of_cons in H6 as [[= _ ->]|?]; [|done].
      exfalso. apply Hv, elem_of_union. left. by apply elem_of_singleton.
    - intros k' v Hk. apply H7. by apply Hsub.
    - left. destruct H8 as [?|Hall].
      + apply elem_of_union. by right.
      + rewrite <- (Hall cur d Hd). apply elem_of_union. left.
        by apply elem_of_singleton.
    - intros v u Hp. destruct (H9 v u Hp) as (? & ? & ?).
      split; [done|]. split; [|done]. apply elem_of_union. by right.
    - destruct H11 as (ord & Hnd & Hord & Hpo). exists (cur :: ord).
      split; [|split].
      + apply NoDup_cons. split; [|done]. by rewrite Hord.
      + intros v. rewrite elem_of_cons, elem_of_union, elem_of_singleton, Hord.
        done.
      + intros v u Hp [|y o1] o2 Heq; simpl in Heq.
        * injection Heq as <- <-. apply Hord. by apply (H9 cur u Hp).
        * injection Heq as <- ->. by apply (Hpo v u Hp o1 o2). }
  change (item (st_distances st2) cur) with (item (st_distances st) cur).
  rewrite (item_Ok _ _ _ Hd). cbn [mbind result_bind].
  rewrite decide_False by (simpl; lia).
  destruct (relax_all_inv cur d (get_neighbors g cur) [] st2)
    as (st' & Hrun & Hinv' & Hv' & Hd' & Hl'); try done.
  { apply elem_of_union. left. by apply elem_of_singleton. }
  exists st'. split; [done|]. split; [|split; [|split; [|split; [|split]]]].
  - eapply inv_weaken; [|exact Hinv'].
    intros u e Hu He _. unfold relaxed.
    destruct (decide (u = cur)) as [->|?]; [right|by left].
    rewrite app_nil_r. apply list_elem_of_In, in_rev.
    rewrite rev_involutive. by apply list_elem_of_In.
  - intros v Hv. rewrite Hv'. apply elem_of_union. by right.
  - intros v Hv. apply Hd'. apply elem_of_union. by right.
  - unfold potential. rewrite Hv'. simpl in Hl'.
    pose proof (pending_visit (visited st) cur Hcr Hvis). simpl. lia.
  - rewrite Hv'. apply elem_of_union. left. by apply elem_of_singleton.
  - intros _. exists d. split; [done|]. split; [done|]. split.
    + split; [by apply H2|done].
    + rewrite Hd'; [done|]. apply elem_of_union. left.
      by apply elem_of_singleton.
Qed.



Lemma while_loop_inv : ∀ fuel st,
  inv g s all_edges st → (potential g st ≤ fuel)%nat →
  ∃ st', while_loop fuel g st = Some (Ok st') ∧
    inv g s all_edges st' ∧ min_heap st' = [] ∧ rtc (step g) st st'.
Proof.
  induction fuel as [|fuel IH]; intros st Hinv Hpot.
  - unfold potential in Hpot. destruct (min_heap st) as [|x h] eqn:Hh;
      [|simpl in Hpot; lia].
    exists st. simpl. rewrite Hh. simpl.
    split; [done|]. split; [done|]. split; [done|]. apply rtc_refl.
  - simpl. destruct (heappop (min_heap st)) as [[[k cur] heap']|] eqn:Hpop.
    + destruct (iteration_inv st k cur heap' Hinv Hpop)
        as (st1 & Hrun & Hinv1 & _ & _ & Hlt & _).
      rewrite Hrun. destruct (IH st1 Hinv1) as (st' & Hrun' & Hinv' & Hh & Hsteps);
        [lia|].
      exists st'. split; [done|]. split; [done|]. split; [done|].
      eapply rtc_l; [|exact Hsteps]. by exists (k, cur), heap'.
    + exists st. apply heappop_None in Hpop.
      split; [done|]. split; [done|]. split; [done|]. apply rtc_refl.
Qed.

(* at the end of the loop *)
Lemma final_visited st v :
  inv g s all_edges st → min_heap st = [] → reachable g s v → v ∈ visited st.
Proof.
  intros Hinv Hh [L Hp]. destruct (decide (v ∈ visited st)) as [?|Hv]; [done|].
  destruct (frontier st v L Hinv Hp Hv) as (x & dx & Hx & Hdx & _).
  pose proof (inv_heap_in _ _ _ _ Hinv x dx Hx Hdx) as Hin.
  rewrite Hh in Hin. by apply elem_of_nil in Hin.
Qed.

Lemma final_distances st v :
  inv g s all_edges st → min_heap st = [] → in_range g v →
  is_Some (st_distances st !! v) ∧
  (∀ d, st_distances st !! v = Some (Fin d) ↔ shortest g s v d) ∧
  (st_distances st !! v = Some Inf ↔ ¬ reachable g s v).
Proof.
  intros Hinv Hh Hv. pose proof (proj1 (inv_dom _ _ _ _ Hinv v) Hv) as Hsome.
  split; [done|]. split.
  - intros d. split.
    + intros Hd. pose proof (inv_sound _ _ _ _ Hinv v d Hd) as Hp.
      split; [done|].
      assert (v ∈ visited st) as Hvis by (eapply final_visited; try done; by exists d).
      destruct (inv_vis _ _ _ _ Hinv v Hvis) as (d' & Hd' & Hopt).
      rewrite Hd in Hd'. by injection Hd' as <-.
    + intros [Hp Hmin].
      assert (v ∈ visited st) as Hvis by (eapply final_visited; try done; by exists d).
      destruct (inv_vis _ _ _ _ Hinv v Hvis) as (d' & Hd' & Hopt).
      pose proof (inv_sound _ _ _ _ Hinv v d' Hd') as Hp'.
      specialize (Hopt d Hp). specialize (Hmin d' Hp').
      rewrite Hd'. do 2 f_equal. lia.
  - split.
    + intros Hinf Hreach.
      pose proof (final_visited st v Hinv Hh Hreach) as Hvis.
      destruct (inv_vis _ _ _ _ Hinv v Hvis) as (d' & Hd' & _). congruence.
    + intros Hun. destruct Hsome as [[d|] Hd]; [|done].
      exfalso. apply Hun. exists d. by apply (inv_sound _ _ _ _ Hinv).
Qed.

Lemma vpath_snoc p L : vpath g p L → ∀ u e,
  last p = Some u → edge g u e →
  vpath g (p ++ [destination e]) (L + weight e).
Proof.
  induction 1 as [v|u0 e0 p L He0 Hp IH]; intros u e Hlast He.
  - simpl in Hlast. injection Hlast as ->. simpl.
    replace (0 + weight e) with (weight e + 0) by lia.
    apply vpath_cons; [done|constructor].
  - rewrite last_cons_cons in Hlast. simpl.
    replace (weight e0 + L + weight e) with (weight e0 + (L + weight e)) by lia.
    apply vpath_cons; [done|]. by apply (IH u e).
Qed.

Lemma get_path_loop_spec st ord :
  inv g s all_edges st → NoDup ord → (∀ v, v ∈ ord ↔ v ∈ visited st) →
  (∀ v u, st_predecessors st !! v = Some (Some u) →
     ∀ o1 o2, ord = o1 ++ v :: o2 → u ∈ o2) →
  ∀ fuel o1 v o2 acc d,
    ord = o1 ++ v :: o2 → st_distances st !! v = Some (Fin d) →
    (length o2 < fuel)%nat →
    ∃ c, get_path_loop fuel
           (mk_result (st_distances st) (st_predecessors st) s)
           (Some v) acc = Some (acc ++ v :: c) ∧
      last (v :: c) = Some s ∧ vpath g (reverse (v :: c)) d.
Proof.
  intros Hinv Hnd Hord Hpo.
  induction fuel as [|fuel IH]; intros o1 v o2 acc d Heq Hd Hf; [lia|].
  simpl. destruct (decide (v = s)) as [->|Hvs].
  - assert (default None (st_predecessors st !! s) = None) as ->.
    { destruct (st_predecessors st !! s) as [[u|]|] eqn:Hp; try done.
      by destruct (inv_pred _ _ _ _ Hinv s u Hp). }
    exists []. destruct fuel; simpl; (split; [done|]); (split; [done|]);
      rewrite (inv_src _ _ _ _ Hinv) in Hd; injection Hd as <-; constructor.
  - destruct (inv_pred_fin _ _ _ _ Hinv v d Hd Hvs) as [u Hp]. rewrite Hp. simpl.
    destruct (inv_pred _ _ _ _ Hinv v u Hp) as (_ & Hu & e & du & He & Hdst & Hdu & Hdv).
    rewrite Hd in Hdv. injection Hdv as ->.
    pose proof (Hpo v u Hp o1 o2 Heq) as Hin.
    apply list_elem_of_split in Hin as (o2a & o2b & ->).
    destruct (IH (o1 ++ v :: o2a) u o2b (acc ++ [v]) du) as (c & Hrun & Hlast & Hvp).
    { rewrite Heq, <- app_assoc. done. }
    { done. }
    { rewrite length_app in Hf. simpl in Hf. lia. }
    exists (u :: c). split; [|split].
    + rewrite Hrun, <- app_assoc. done.
    + by rewrite last_cons_cons.
    + rewrite reverse_cons. rewrite <- Hdst.
      apply (vpath_snoc _ _ Hvp u e); [|done].
      by rewrite last_reverse.
Qed.
End Correctness.






Lemma initial_potential g s :
  potential g (initial_state g s) = S (edge_count g).
Proof. reflexivity. Qed.


Lemma new_graph_edges n adj g u e :
  new_graph n adj = Ok g → edge g u e →
  ∃ es, adj !! u = Some es ∧ e ∈ es.
Proof.
  unfold new_graph. destruct (decide (n ≤ 0)); [done|]. intros [= <-].
  unfold edge, get_neighbors. simpl.
  generalize (seqZ 0 n) as l. intros l. revert adj.
  induction l as [|i l IH]; intros adj; simpl.
  - destruct (adj !! u) as [es|] eqn:Hes; simpl; [eauto|].
    intros H. by apply elem_of_nil in H.
  - intros H. apply IH in H as (es & Hes & He).
    destruct (decide (i ∈ dom adj)); [eauto|].
    rewrite lookup_insert in Hes. destruct (decide (i = u)) as [->|?]; [|eauto].
    injection Hes as <-. by apply elem_of_nil in He.
Qed.

Lemma new_edge_weight d w e : new_edge d w = Ok e → 0 ≤ weight e.
Proof.
  unfold new_edge. destruct (decide (w < 0)); [done|].
  intros [= <-]. simpl. lia.
Qed.


Lemma add_edge_vertices g s d w : vertices (add_edge g s d w).1 = vertices g.
Proof.
  unfold add_edge. destruct (decide (_ ∧ _)); [|done].
  destruct (new_edge d w); [|done].
  by destruct (adjacency_list g !! s).
Qed.

Lemma add_edge_well_formed g s d w :
  well_formed g → well_formed (add_edge g s d w).1.
Proof.
  intros Hwf u e. unfold in_range. rewrite add_edge_vertices.
  intros Hu. unfold add_edge.
  destruct (decide (_ ∧ _)) as [[Hs Hd]|]; [|by apply Hwf].
  unfold new_edge. destruct (decide (w < 0)); [by apply Hwf|].
  destruct (adjacency_list g !! s) as [es|] eqn:Hes; [|by apply Hwf].
  unfold edge, get_neighbors. simpl. rewrite lookup_insert.
  destruct (decide (s = u)) as [->|?]; [|by apply Hwf].
  simpl. intros [Hin|Heq%list_elem_of_singleton]%elem_of_app.
  - apply (Hwf u e Hu). unfold edge, get_neighbors. by rewrite Hes.
  - subst e. done.
Qed.

Lemma constructed_well_formed g :
  constructed g → well_formed g ∧ nonneg_weights g.
Proof.
  induction 1 as [n g Hnew|g s d w Hc [IHwf IHnn]].
  - split; intros u e _ He;
      destruct (new_graph_edges _ _ _ _ _ Hnew He) as (es & Hes & _);
      by rewrite lookup_empty in Hes.
  - split; [by apply add_edge_well_formed|].
    intros u e. unfold in_range. rewrite add_edge_vertices. intros Hu.
    unfold add_edge.
    destruct (decide (_ ∧ _)); [|by apply IHnn].
    destruct (new_edge d w) as [e'|] eqn:Hmk; [|by apply IHnn].
    destruct (adjacency_list g !! s) as [es|] eqn:Hes; [|by apply IHnn].
    unfold edge, get_neighbors. simpl. rewrite lookup_insert.
    destruct (decide (s = u)) as [->|?]; [|by apply IHnn].
    simpl. intros [Hin|Heq%list_elem_of_singleton]%elem_of_app.
    + apply (IHnn u e Hu). unfold edge, get_neighbors. by rewrite Hes.
    + subst e. by eapply new_edge_weight.
Qed.

Lemma find_shortest_paths_run g s fuel :
  well_formed g → nonneg_weights g → in_range g s →
  (edge_count g < fuel)%nat →
  ∃ st, find_shortest_paths fuel g s
          = Some (Ok (mk_result (st_distances st) (st_predecessors st) s)) ∧
    inv g s all_edges st ∧ min_heap st = [] ∧
    rtc (step g) (initial_state g s) st.
Proof.
  intros Hwf Hnn Hs Hf.
  destruct (while_loop_inv g s Hwf Hnn Hs fuel (initial_state g s))
    as (st & Hrun & Hinv & Hheap & Hsteps).
  { by apply initial_state_inv. }
  { rewrite initial_potential. lia. }
  exists st. split; [|done]. unfold find_shortest_paths.
  rewrite decide_True by done. rewrite Hrun. done.
Qed.

(** C1, as amended: on a graph whose edges lead to vertices of the graph
    and have non-negative integer weights, and for a source vertex of the
    graph, find_shortest_paths returns a result whose distances give every
    vertex the length of a shortest path from the source, and float('inf')
    exactly to the vertices that cannot be reached; the source is at 0. *)
Theorem find_shortest_paths_shortest_distances g s fuel :
  well_formed g → nonneg_weights g → in_range g s →
  (edge_count g < fuel)%nat →
  ∃ r, find_shortest_paths fuel g s = Some (Ok r) ∧
    distances r !! s = Some (Fin 0) ∧
    ∀ v, in_range g v →
      is_Some (distances r !! v) ∧
      (∀ d, distances r !! v = Some (Fin d) ↔ shortest g s v d) ∧
      (distances r !! v = Some Inf ↔ ¬ reachable g s v).
Proof.
  intros Hwf Hnn Hs Hf.
  destruct (find_shortest_paths_run g s fuel Hwf Hnn Hs Hf)
    as (st & Hrun & Hinv & Hheap & _).
  eexists. split; [exact Hrun|]. simpl. split.
  - apply (inv_src _ _ _ _ Hinv).
  - intros v Hv. by apply (final_distances g s Hwf Hnn Hs).
Qed.












(** C5: an iteration that pops an entry whose vertex is already visited, or
    whose key is greater than distances[vertex], only discards the entry:
    distances and predecessors are unchanged and nothing is pushed. *)
Theorem stale_entry_is_discarded g st k v heap' :
  heappop (min_heap st) = Some ((k, v), heap') →
  v ∈ visited st ∨ (∃ d, st_distances st !! v = Some d ∧ dist_lt d k) →
  ∃ st', iteration g st (k, v) heap' = Ok st' ∧
    st_distances st' = st_distances st ∧
    st_predecessors st' = st_predecessors st ∧
    min_heap st' = heap' ∧
    ∀ fuel, while_loop (S fuel) g st = while_loop fuel g st'.
Proof.
  intros Hpop Hstale.
  assert (∃ st', iteration g st (k, v) heap' = Ok st' ∧
    st_distances st' = st_distances st ∧
    st_predecessors st' = st_predecessors st ∧
    min_heap st' = heap') as (st' & Hrun & Hd & Hp & Hh).
  { unfold iteration. destruct (decide (v ∈ visited st)) as [Hv|Hv].
    - eexists. by split.
    - destruct Hstale as [?|(d & Hd & Hlt)]; [done|].
      simpl. rewrite (item_Ok _ _ _ Hd). cbn [mbind result_bind].
      rewrite decide_True by done. eexists. by split. }
  exists st'. repeat split; try done.
  intros fuel. simpl. by rewrite Hpop, Hrun.
Qed.

Lemma edges_all_spec P g u e :
  edges_all P g = true → in_range g u → edge g u e → P e = true.
Proof.
  unfold edges_all. rewrite forallb_forall. intros Hall Hu He.
  specialize (Hall u). rewrite forallb_forall in Hall.
  apply Hall; [|by apply list_elem_of_In].
  apply list_elem_of_In, elem_of_seqZ. unfold in_range in Hu. lia.
Qed.

Lemma well_formed_check g :
  edges_all (λ e, bool_decide (0 ≤ destination e < vertices g)) g = true →
  well_formed g.
Proof.
  intros Hall u e Hu He.
  apply (edges_all_spec _ g u e Hall Hu) in He. by apply bool_decide_eq_true in He.
Qed.

Lemma nonneg_weights_check g :
  edges_all (λ e, bool_decide (0 ≤ weight e)) g = true → nonneg_weights g.
Proof.
  intros Hall u e Hu He.
  apply (edges_all_spec _ g u e Hall Hu) in He. by apply bool_decide_eq_true in He.
Qed.

Lemma demo_graph_well_formed : well_formed demo_graph.
Proof. apply well_formed_check. vm_compute. reflexivity. Qed.

Lemma demo_graph_nonneg_weights : nonneg_weights demo_graph.
Proof. apply nonneg_weights_check. vm_compute. reflexivity. Qed.

Lemma demo_graph_vertices : vertices demo_graph = 6.
Proof. vm_compute. reflexivity. Qed.

Lemma demo_graph_source : in_range demo_graph 0.
Proof. unfold in_range. rewrite demo_graph_vertices. lia. Qed.

Lemma demo_graph_edge_count : edge_count demo_graph = 9%nat.
Proof. vm_compute. reflexivity. Qed.

Example demo_graph_distances :
  run_distances 20 demo_graph 0
  = Some [Fin 0; Fin 4; Fin 2; Fin 9; Fin 11; Fin 14].
Proof. vm_compute. reflexivity. Qed.

Example demo_graph_paths :
  run_paths 20 demo_graph 0
  = Some [Some [0]; Some [0; 1]; Some [0; 2]; Some [0; 1; 3];
          Some [0; 1; 3; 4]; Some [0; 1; 3; 4; 5]].
Proof. vm_compute. reflexivity. Qed.

Example negative_graph_distances :
  run_distances 10 negative_graph 0 = Some [Fin 0; Fin 2; Fin 3].
Proof. vm_compute. reflexivity. Qed.


(** C1, the claim as stated fails: Graph(2, {0: [Edge(5, 1)]}) is a Graph
    whose only weight is non-negative, and 0 is one of its vertices, but
    find_shortest_paths raises KeyError at distances[5] when it relaxes the
    edge, and returns no result. *)
Lemma find_shortest_paths_dangling_edge_counterexample :
  new_edge 5 1 = Ok (mk_edge 5 1) ∧
  new_graph 2 {[0 := [mk_edge 5 1]]} = Ok dangling_graph ∧
  nonneg_weights dangling_graph ∧ in_range dangling_graph 0 ∧
  (∀ fuel, (0 < fuel)%nat →
     find_shortest_paths fuel dangling_graph 0 = Some (Raise KeyError)).
Proof.
  split; [reflexivity|]. split; [vm_compute; reflexivity|].
  split; [|split].
  - apply nonneg_weights_check. vm_compute. reflexivity.
  - unfold in_range. simpl. lia.
  - intros [|fuel] Hf; [lia|]. reflexivity.
Qed.

Lemma find_shortest_paths_shortest_distances_witness :
  ∃ r, find_shortest_paths 20 demo_graph 0 = Some (Ok r) ∧
    distances r !! 0 = Some (Fin 0) ∧
    ∀ v, in_range demo_graph v →
      is_Some (distances r !! v) ∧
      (∀ d, distances r !! v = Some (Fin d) ↔ shortest demo_graph 0 v d) ∧
      (distances r !! v = Some Inf ↔ ¬ reachable demo_graph 0 v).
Proof.
  apply (find_shortest_paths_shortest_distances demo_graph 0 20).
  - exact demo_graph_well_formed.
  - exact demo_graph_nonneg_weights.
  - exact demo_graph_source.
  - rewrite demo_graph_edge_count. lia.
Defined.




Lemma stale_entry_is_discarded_witness :
  ∃ st', iteration demo_graph stale_state (Fin 0, 0) [] = Ok st' ∧
    st_distances st' = st_distances stale_state ∧
    st_predecessors st' = st_predecessors stale_state ∧
    min_heap st' = [] ∧
    ∀ fuel, while_loop (S fuel) demo_graph stale_state
            = while_loop fuel demo_graph st'.
Proof.
  apply (stale_entry_is_discarded demo_graph stale_state (Fin 0) 0 []).
  - reflexivity.
  - left. change (0 ∈ ({[0]} : gset Z)). apply elem_of_singleton_2. reflexivity.
Defined.

Lemma new_graph_lookup n adj g v :
  new_graph n adj = Ok g →
  adjacency_list g !! v
  = match adj !! v with
    | Some es => Some es
    | None => if decide (0 ≤ v < n) then Some [] else None
    end.
Proof.
  unfold new_graph. destruct (decide (n ≤ 0)); [done|]. intros [= <-]. simpl.
  assert (∀ (l : list Z) (a : gmap Z (list Edge)),
    foldl (λ a i, if decide (i ∈ dom a) then a else <[i := []]> a) a l !! v
    = match a !! v with
      | Some es => Some es
      | None => if decide (v ∈ l) then Some [] else None
      end) as Hfold.
  { induction l as [|i l IH]; intros a; cbn [foldl].
    - destruct (a !! v); [done|]. by rewrite decide_False by apply not_elem_of_nil.
    - rewrite IH. destruct (decide (i ∈ dom a)) as [Hi|Hi].
      + destruct (a !! v) eqn:Hv; [done|].
        destruct (decide (v ∈ l)) as [?|Hl].
        * rewrite decide_True; [done|]. apply elem_of_cons. by right.
        * rewrite decide_False; [done|]. intros [->|?]%elem_of_cons; [|done].
          apply elem_of_dom in Hi as [? ?]. congruence.
      + rewrite lookup_insert. destruct (decide (i = v)) as [->|Hne].
        * apply not_elem_of_dom in Hi. rewrite Hi.
          rewrite decide_True; [done|]. apply elem_of_cons. by left.
        * destruct (a !! v); [done|].
          destruct (decide (v ∈ l)) as [?|Hl].
          -- rewrite decide_True; [done|]. apply elem_of_cons. by right.
          -- rewrite decide_False; [done|]. intros [->|?]%elem_of_cons; done. }
  rewrite Hfold. destruct (adj !! v); [done|].
  destruct (decide (v ∈ seqZ 0 n)) as [Hin|Hnin].
  - apply elem_of_seqZ in Hin. rewrite decide_True; [done|lia].
  - rewrite elem_of_seqZ in Hnin. rewrite decide_False; [done|lia].
Qed.

(** X8: Graph(vertices=n, adjacency_list=adj) raises ValueError when n <= 0;
    otherwise the graph keeps every given adjacency entry and gives each
    vertex 0..n-1 without one an empty list. *)
Theorem new_graph_adjacency n adj :
  (n ≤ 0 → new_graph n adj = Raise ValueError) ∧
  (0 < n → ∃ g, new_graph n adj = Ok g ∧ vertices g = n ∧
     ∀ v, adjacency_list g !! v
          = match adj !! v with
            | Some es => Some es
            | None => if decide (0 ≤ v < n) then Some [] else None
            end).
Proof.
  split.
  - intros Hn. unfold new_graph. by rewrite decide_True.
  - intros Hn. destruct (new_graph n adj) as [g|e] eqn:Hnew.
    + exists g. split; [done|]. split.
      * revert Hnew. unfold new_graph. destruct (decide _); [done|].
        by intros [= <-].
      * intros v. by apply new_graph_lookup.
    + revert Hnew. unfold new_graph. by rewrite decide_False by lia.
Qed.

Lemma add_edge_Ok g s d w es :
  in_range g s → in_range g d → 0 ≤ w →
  adjacency_list g !! s = Some es →
  add_edge g s d w
  = (mk_graph (vertices g) (<[s := es ++ [mk_edge d w]]> (adjacency_list g)),
     Ok ()).
Proof.
  intros Hs Hd Hw Hes. unfold add_edge, new_edge.
  rewrite decide_True by done. rewrite decide_False by lia. by rewrite Hes.
Qed.



(** X10: on a graph whose vertices all have an adjacency entry, add_edge
    raises exactly when a vertex is outside the graph or the weight is
    negative; it then raises ValueError and leaves the graph as it was. *)
Theorem add_edge_raises g s d w :
  has_keys g →
  ((add_edge g s d w).2 = Raise ValueError ↔
     ¬ (in_range g s ∧ in_range g d ∧ 0 ≤ w)) ∧
  (∀ e, (add_edge g s d w).2 = Raise e →
     e = ValueError ∧ (add_edge g s d w).1 = g).
Proof.
  intros Hk.
  destruct (decide (in_range g s ∧ in_range g d ∧ 0 ≤ w)) as [(Hs & Hd & Hw)|Hn].
  - destruct (Hk s Hs) as [es Hes]. rewrite (add_edge_Ok g s d w es) by done.
    simpl. split; [|done]. split; [done|]. intros Hn. exfalso. by apply Hn.
  - assert (add_edge g s d w = (g, Raise ValueError)) as ->.
    { unfold add_edge, new_edge.
      destruct (decide (_ ∧ _)) as [[? ?]|]; [|done].
      rewrite decide_True; [done|]. unfold in_range in Hn. lia. }
    simpl. split; [done|]. by intros e [= <-].
Qed.

Lemma add_edge_has_keys g s d w : has_keys g → has_keys (add_edge g s d w).1.
Proof.
  intros Hk v. unfold in_range. rewrite add_edge_vertices. intros Hv.
  specialize (Hk v Hv). unfold add_edge.
  destruct (decide (_ ∧ _)); [|done]. destruct (new_edge d w); [|done].
  destruct (adjacency_list g !! s) eqn:Hs; [|done]. simpl.
  rewrite lookup_insert. by destruct (decide (s = v)).
Qed.


Lemma constructed_vertices_pos g : constructed g → 0 < vertices g.
Proof.
  induction 1 as [n g Hnew|g s d w Hc IH].
  - revert Hnew. unfold new_graph. destruct (decide (n ≤ 0)); [done|].
    intros [= <-]. simpl. lia.
  - by rewrite add_edge_vertices.
Qed.

Lemma constructed_has_keys g : constructed g → has_keys g.
Proof.
  induction 1 as [n g Hnew|g s d w Hc IH].
  - intros v Hv. rewrite (new_graph_lookup n ∅ g v Hnew), lookup_empty.
    assert (vertices g = n) as Hn.
    { revert Hnew. unfold new_graph. destruct (decide _); [done|].
      by intros [= <-]. }
    unfold in_range in Hv. rewrite Hn in Hv. rewrite decide_True by done. eauto.
  - by apply add_edge_has_keys.
Qed.

Lemma demo_graph_constructed : constructed demo_graph.
Proof.
  unfold demo_graph. destruct (new_graph 6 ∅) as [g|e] eqn:Hnew; [|done].
  unfold add_edges. cbn [foldl]. repeat apply constructed_add.
  by apply (constructed_new 6).
Qed.

Lemma demo_graph_has_keys : has_keys demo_graph.
Proof. apply constructed_has_keys, demo_graph_constructed. Qed.

(** X12: a graph made by Graph(vertices=n) and any calls of add_edge has a
    positive number of vertices, an adjacency entry for each of them, and
    only edges that lead to a vertex of the graph; none of its edges has a
    weight < 0. *)
Theorem constructed_graph_invariant g :
  constructed g →
  0 < vertices g ∧ has_keys g ∧ well_formed g ∧
  ∀ u e, in_range g u → edge g u e → ¬ weight e < 0.
Proof.
  intros Hc. split; [by apply constructed_vertices_pos|].
  split; [by apply constructed_has_keys|].
  destruct (constructed_well_formed g Hc) as [Hwf Hnn]. split; [done|].
  intros u e Hu He. specialize (Hnn u e Hu He). lia.
Qed.


(** X14: in the result of a run on a graph with non-negative weights no edge
    can be relaxed any further: for every edge u -> v with u at a finite
    distance, the test of the relaxation, distances[u] + weight <
    distances[v], is false. *)
Theorem final_distances_triangle_inequality g s fuel :
  well_formed g → nonneg_weights g → in_range g s →
  (edge_count g < fuel)%nat →
  ∃ r, find_shortest_paths fuel g s = Some (Ok r) ∧
    ∀ u e du, edge g u e → distances r !! u = Some (Fin du) →
      ∃ dv, distances r !! destination e = Some dv ∧
        ¬ dist_lt (dist_add (Fin du) (weight e)) dv.
Proof.
  intros Hwf Hnn Hs Hf.
  destruct (find_shortest_paths_run g s fuel Hwf Hnn Hs Hf)
    as (st & Hrun & Hinv & Hheap & _).
  eexists. split; [exact Hrun|]. simpl. intros u e du He Hdu.
  destruct (inv_closed _ _ _ _ Hinv u e du) as (dv & Hdv & Hle); try done.
  { apply (final_visited g s Hwf Hnn Hs st u Hinv Hheap). exists du.
    by apply (inv_sound _ _ _ _ Hinv). }
  exists (Fin dv). split; [done|]. simpl. lia.
Qed.

Lemma get_path_loop_sublist g s st ord :
  inv g s all_edges st →
  (∀ v u, st_predecessors st !! v = Some (Some u) →
     ∀ o1 o2, ord = o1 ++ v :: o2 → u ∈ o2) →
  ∀ fuel o1 v o2 acc p,
    ord = o1 ++ v :: o2 →
    get_path_loop fuel (mk_result (st_distances st) (st_predecessors st) s)
      (Some v) acc = Some p →
    ∃ c, p = acc ++ v :: c ∧ c `sublist_of` o2.
Proof.
  intros Hinv Hpo.
  induction fuel as [|fuel IH]; intros o1 v o2 acc p Heq; simpl; [done|].
  destruct (st_predecessors st !! v) as [[u|]|] eqn:Hp; simpl.
  - pose proof (Hpo v u Hp o1 o2 Heq) as Hin.
    apply list_elem_of_split in Hin as (o2a & o2b & ->).
    intros Hrun.
    destruct (IH (o1 ++ v :: o2a) u o2b (acc ++ [v]) p) as (c & -> & Hsub);
      [by rewrite Heq, <- app_assoc|done|].
    exists (u :: c). split; [by rewrite <- app_assoc|].
    by apply sublist_inserts_l, sublist_skip.
  - destruct fuel; simpl; intros [= <-]; exists []; (split; [done|]);
      apply sublist_nil_l.
  - destruct fuel; simpl; intros [= <-]; exists []; (split; [done|]);
      apply sublist_nil_l.
Qed.

(** X15: on the result of a run on a graph with non-negative weights, every
    path get_path returns is simple: no vertex occurs twice in it, also
    when the graph has cycles of weight zero. *)
Theorem get_path_simple g s fuel pfuel :
  well_formed g → nonneg_weights g → in_range g s →
  (edge_count g < fuel)%nat →
  ∃ r, find_shortest_paths fuel g s = Some (Ok r) ∧
    ∀ v p, get_path pfuel r v = Some (Some p) → NoDup p.
Proof.
  intros Hwf Hnn Hs Hf.
  destruct (find_shortest_paths_run g s fuel Hwf Hnn Hs Hf)
    as (st & Hrun & Hinv & Hheap & _).
  eexists. split; [exact Hrun|]. intros v p. unfold get_path. simpl.
  destruct (st_distances st !! v) as [[d|]|] eqn:Hd; try done.
  rewrite decide_False by done.
  destruct (get_path_loop pfuel _ (Some v) []) as [q|] eqn:Hloop; [|done].
  simpl. intros [= <-].
  destruct (inv_order _ _ _ _ Hinv) as (ord & Hnd & Hord & Hpo).
  assert (v ∈ visited st) as Hvis.
  { eapply (final_visited g s); try done. exists d.
    by apply (inv_sound _ _ _ _ Hinv). }
  apply Hord, list_elem_of_split in Hvis as (o1 & o2 & Heq).
  destruct (get_path_loop_sublist g s st ord Hinv Hpo pfuel o1 v o2 [] q Heq Hloop)
    as (c & -> & Hsub).
  simpl. rewrite reverse_Permutation.
  apply (sublist_NoDup (v :: c) (v :: o2)); [|by apply sublist_skip].
  rewrite Heq in Hnd. by apply NoDup_app in Hnd as (_ & _ & ?).
Qed.

Lemma get_path_total_on_run g s fuel pfuel :
  well_formed g → nonneg_weights g → in_range g s →
  (edge_count g < fuel)%nat → (Z.to_nat (vertices g) ≤ pfuel)%nat →
  ∃ st, find_shortest_paths fuel g s
          = Some (Ok (mk_result (st_distances st) (st_predecessors st) s)) ∧
    inv g s all_edges st ∧ min_heap st = [] ∧
    ∀ v,
      (∀ d, st_distances st !! v = Some (Fin d) →
         ∃ p, get_path pfuel (mk_result (st_distances st) (st_predecessors st) s) v
                = Some (Some p)) ∧
      (get_path pfuel (mk_result (st_distances st) (st_predecessors st) s) v
         = Some None ↔
       st_distances st !! v = None ∨ st_distances st !! v = Some Inf).
Proof.
  intros Hwf Hnn Hs Hf Hpf.
  destruct (find_shortest_paths_run g s fuel Hwf Hnn Hs Hf)
    as (st & Hrun & Hinv & Hheap & _).
  exists st. split; [exact Hrun|]. split; [done|]. split; [done|]. intros v.
  assert (∀ d, st_distances st !! v = Some (Fin d) →
    ∃ p, get_path pfuel (mk_result (st_distances st) (st_predecessors st) s) v
           = Some (Some p)) as Hfinite.
  { intros d Hd.
    destruct (inv_order _ _ _ _ Hinv) as (ord & Hnd & Hord & Hpo).
    assert (v ∈ visited st) as Hvis.
    { eapply (final_visited g s); try done. exists d.
      by apply (inv_sound _ _ _ _ Hinv). }
    apply Hord, list_elem_of_split in Hvis as (o1 & o2 & Heq).
    assert (length ord ≤ Z.to_nat (vertices g))%nat as Hlen.
    { rewrite <- (length_seqZ 0). apply submseteq_length, NoDup_submseteq; [done|].
      intros x Hx. apply Hord in Hx.
      destruct (inv_vis _ _ _ _ Hinv x Hx) as (dx & Hdx & _).
      assert (in_range g x) as Hr by (apply (inv_dom _ _ _ _ Hinv); eauto).
      apply elem_of_seqZ. unfold in_range in Hr. lia. }
    destruct (get_path_loop_spec g s st ord Hinv Hnd Hord Hpo pfuel o1 v o2 [] d)
      as (c & Hloop & _); try done.
    { rewrite Heq, length_app in Hlen. simpl in Hlen. lia. }
    exists (reverse (v :: c)).
    unfold get_path. simpl. rewrite Hd. rewrite decide_False by done.
    rewrite Hloop. done. }
  split; [exact Hfinite|]. split.
  - intros Hnone. destruct (st_distances st !! v) as [[d|]|] eqn:Hd; auto.
    destruct (Hfinite d eq_refl) as (p & Hp). congruence.
  - unfold get_path. simpl. intros [->| ->]; [done|].
    by rewrite decide_True.
Qed.

(** X16: on the result of a run on a graph with non-negative weights, every
    v that cannot be reached from the source, among them every v that is not
    a vertex of the graph, has get_distance(v) = float('inf') and
    get_path(v) = None; and for every v get_path(v) is None exactly when
    get_distance(v) is float('inf'). *)
Theorem unreachable_get_distance_get_path g s fuel pfuel :
  well_formed g → nonneg_weights g → in_range g s →
  (edge_count g < fuel)%nat → (Z.to_nat (vertices g) ≤ pfuel)%nat →
  ∃ r, find_shortest_paths fuel g s = Some (Ok r) ∧
    ∀ v, (¬ reachable g s v →
            get_distance r v = Inf ∧ get_path pfuel r v = Some None) ∧
         (¬ in_range g v → ¬ reachable g s v) ∧
         (get_path pfuel r v = Some None ↔ get_distance r v = Inf).
Proof.
  intros Hwf Hnn Hs Hf Hpf.
  destruct (get_path_total_on_run g s fuel pfuel Hwf Hnn Hs Hf Hpf)
    as (st & Hrun & Hinv & Hheap & Hpath).
  eexists. split; [exact Hrun|]. intros v.
  assert (¬ in_range g v → ¬ reachable g s v) as Hout.
  { intros Hv [L Hp]. apply Hv. by apply (path_in_range g s Hwf Hs v L). }
  assert (get_path pfuel (mk_result (st_distances st) (st_predecessors st) s) v
            = Some None ↔
          get_distance (mk_result (st_distances st) (st_predecessors st) s) v
            = Inf) as Hiff.
  { rewrite (proj2 (Hpath v)). unfold get_distance. simpl.
    destruct (st_distances st !! v) as [[d|]|]; simpl; split;
      try done; try (intros [?|?]; done); auto. }
  assert (¬ reachable g s v →
          get_distance (mk_result (st_distances st) (st_predecessors st) s) v
            = Inf) as Hdist.
  { intros Hnr. unfold get_distance. simpl.
    destruct (decide (in_range g v)) as [Hv|Hv].
    - destruct (final_distances g s Hwf Hnn Hs st v Hinv Hheap Hv)
        as (_ & _ & Hinf).
      apply Hinf in Hnr. by rewrite Hnr.
    - assert (st_distances st !! v = None) as ->; [|done].
      apply eq_None_not_Some. intros Hsome.
      by apply Hv, (inv_dom _ _ _ _ Hinv). }
  split; [|split; [done|done]].
  intros Hnr. split; [by apply Hdist|]. apply Hiff. by apply Hdist.
Qed.

Lemma new_graph_adjacency_witness :
  ∃ g, new_graph 6 ∅ = Ok g ∧ vertices g = 6 ∧
    ∀ v, adjacency_list g !! v
         = match (∅ : gmap Z (list Edge)) !! v with
           | Some es => Some es
           | None => if decide (0 ≤ v < 6) then Some [] else None
           end.
Proof. apply (proj2 (new_graph_adjacency 6 ∅)). lia. Defined.


Lemma add_edge_raises_witness :
  ((add_edge demo_graph 0 9 1).2 = Raise ValueError ↔
     ¬ (in_range demo_graph 0 ∧ in_range demo_graph 9 ∧ 0 ≤ 1)) ∧
  (∀ e, (add_edge demo_graph 0 9 1).2 = Raise e →
     e = ValueError ∧ (add_edge demo_graph 0 9 1).1 = demo_graph).
Proof. apply (add_edge_raises demo_graph 0 9 1). exact demo_graph_has_keys. Defined.


Lemma constructed_graph_invariant_witness :
  0 < vertices demo_graph ∧ has_keys demo_graph ∧
  well_formed demo_graph ∧
  ∀ u e, in_range demo_graph u → edge demo_graph u e → ¬ weight e < 0.
Proof.
  apply (constructed_graph_invariant demo_graph). exact demo_graph_constructed.
Defined.


Lemma final_distances_triangle_inequality_witness :
  ∃ r, find_shortest_paths 20 demo_graph 0 = Some (Ok r) ∧
    ∀ u e du, edge demo_graph u e → distances r !! u = Some (Fin du) →
      ∃ dv, distances r !! destination e = Some dv ∧
        ¬ dist_lt (dist_add (Fin du) (weight e)) dv.
Proof.
  apply (final_distances_triangle_inequality demo_graph 0 20).
  - exact demo_graph_well_formed.
  - exact demo_graph_nonneg_weights.
  - exact demo_graph_source.
  - rewrite demo_graph_edge_count. lia.
Defined.

Lemma get_path_simple_witness :
  ∃ r, find_shortest_paths 20 demo_graph 0 = Some (Ok r) ∧
    ∀ v p, get_path 6 r v = Some (Some p) → NoDup p.
Proof.
  apply (get_path_simple demo_graph 0 20 6).
  - exact demo_graph_well_formed.
  - exact demo_graph_nonneg_weights.
  - exact demo_graph_source.
  - rewrite demo_graph_edge_count. lia.
Defined.

Lemma unreachable_get_distance_get_path_witness :
  ∃ r, find_shortest_paths 20 demo_graph 0 = Some (Ok r) ∧
    ∀ v, (¬ reachable demo_graph 0 v →
            get_distance r v = Inf ∧ get_path 6 r v = Some None) ∧
         (¬ in_range demo_graph v → ¬ reachable demo_graph 0 v) ∧
         (get_path 6 r v = Some None ↔ get_distance r v = Inf).
Proof.
  apply (unreachable_get_distance_get_path demo_graph 0 20 6).
  - exact demo_graph_well_formed.
  - exact demo_graph_nonneg_weights.
  - exact demo_graph_source.
  - rewrite demo_graph_edge_count. lia.
  - rewrite demo_graph_vertices. simpl. lia.
Defined.

End Task3.

Module Task3Float.
Local Open Scope Z_scope.
#[local] Existing Instance Task3.result_bind.

(* The classes and the algorithm of task3.py once more, with the weights the
   annotations name: floats (IEEE binary64, the kernel's primitive floats).
   Sums are rounded and may overflow to inf; a comparison with nan is
   false.  distances[source] = 0 is the int 0, which adds and compares as
   the float 0.0 does. *)
Record Edge := mk_edge { destination : Z; weight : float }.

(* Edge(destination, weight), with __post_init__ *)
Definition new_edge (destination : Z) (weight : float) : Task3.result Edge :=
  if PrimFloat.ltb weight PrimFloat.zero then Task3.Raise Task3.ValueError
  else Task3.Ok (mk_edge destination weight).

Record Graph := mk_graph { vertices : Z; adjacency_list : gmap Z (list Edge) }.

(* Graph(vertices=n, adjacency_list=adj), with __post_init__ *)
Definition new_graph (vertices : Z) (adj : gmap Z (list Edge))
    : Task3.result Graph :=
  if decide (vertices ≤ 0) then Task3.Raise Task3.ValueError
  else Task3.Ok (mk_graph vertices
             (foldl (λ a i, if decide (i ∈ dom a) then a else <[i := []]> a)
                adj (seqZ 0 vertices))).

Definition add_edge (self : Graph) (source destination : Z) (weight : float)
    : Graph * Task3.result unit :=
  if decide (0 ≤ source < vertices self ∧ 0 ≤ destination < vertices self) then
    match new_edge destination weight with
    | Task3.Raise e => (self, Task3.Raise e)
    | Task3.Ok edge =>
        match adjacency_list self !! source with
        | None => (self, Task3.Raise Task3.KeyError)
        | Some es =>
            (mk_graph (vertices self)
               (<[source := es ++ [edge]]> (adjacency_list self)), Task3.Ok ())
        end
    end
  else (self, Task3.Raise Task3.ValueError).

Definition get_neighbors (self : Graph) (vertex : Z) : list Edge :=
  default [] (adjacency_list self !! vertex).

Record DijkstraResult := mk_result {
  distances : gmap Z float;
  predecessors : gmap Z (option Z);
  source : Z
}.

(* heapq on tuples (distance, vertex): Python orders two tuples by their
   first components when these differ (==), else by the second ones. *)
Abbreviation entry := (float * Z)%type.

Definition entry_lt (a b : entry) : bool :=
  if PrimFloat.eqb a.1 b.1 then bool_decide (a.2 < b.2)
  else PrimFloat.ltb a.1 b.1.

Definition heappush (heap : list entry) (e : entry) : list entry := e :: heap.

(* heappop by its contract: it removes and returns a smallest tuple *)
Fixpoint heappop (heap : list entry) : option (entry * list entry) :=
  match heap with
  | [] => None
  | x :: heap' =>
      match heappop heap' with
      | None => Some (x, [])
      | Some (m, rest) =>
          if entry_lt m x then Some (m, x :: rest) else Some (x, heap')
      end
  end.

Record loop_state := mk_state {
  st_distances : gmap Z float;
  st_predecessors : gmap Z (option Z);
  min_heap : list entry;
  visited : gset Z
}.

(* The body of the for loop over the neighbours. *)
Definition relax (current_vertex : Z) (st : loop_state) (edge : Edge)
    : Task3.result loop_state :=
  let neighbor := destination edge in
  let weight := weight edge in
  if decide (neighbor ∈ visited st) then Task3.Ok st
  else
    dcur ← Task3.item (st_distances st) current_vertex;
    let new_distance := PrimFloat.add dcur weight in
    dn ← Task3.item (st_distances st) neighbor;
    if PrimFloat.ltb new_distance dn then
      Task3.Ok (mk_state (<[neighbor := new_distance]> (st_distances st))
                   (<[neighbor := Some current_vertex]> (st_predecessors st))
                   (heappush (min_heap st) (new_distance, neighbor))
                   (visited st))
    else Task3.Ok st.

(* One iteration of the while loop on the popped entry. *)
Definition iteration (graph : Graph) (st : loop_state)
    (current : entry) (heap' : list entry) : Task3.result loop_state :=
  let '(current_distance, current_vertex) := current in
  if decide (current_vertex ∈ visited st) then
    Task3.Ok (mk_state (st_distances st) (st_predecessors st) heap' (visited st))
  else
    let st' := mk_state (st_distances st) (st_predecessors st) heap'
                        ({[current_vertex]} ∪ visited st) in
    dcur ← Task3.item (st_distances st') current_vertex;
    if PrimFloat.ltb dcur current_distance then Task3.Ok st'
    else Task3.for_each (relax current_vertex) st'
           (get_neighbors graph current_vertex).

(* while min_heap: ...; None when the fuel runs out *)
Fixpoint while_loop (fuel : nat) (graph : Graph) (st : loop_state)
    : option (Task3.result loop_state) :=
  match heappop (min_heap st) with
  | None => Some (Task3.Ok st)
  | Some (current, heap') =>
      match fuel with
      | O => None
      | S fuel' =>
          match iteration graph st current heap' with
          | Task3.Raise e => Some (Task3.Raise e)
          | Task3.Ok st' => while_loop fuel' graph st'
          end
      end
  end.

Definition initial_state (graph : Graph) (source : Z) : loop_state :=
  let distances : gmap Z float :=
    list_to_map ((λ i, (i, PrimFloat.infinity)) <$> seqZ 0 (vertices graph)) in
  let predecessors : gmap Z (option Z) :=
    list_to_map ((λ i, (i, None)) <$> seqZ 0 (vertices graph)) in
  mk_state (<[source := PrimFloat.zero]> distances) predecessors
    [(PrimFloat.zero, source)] ∅.

Definition find_shortest_paths (fuel : nat) (graph : Graph) (source : Z)
    : option (Task3.result DijkstraResult) :=
  if decide (0 ≤ source < vertices graph) then
    r ← while_loop fuel graph (initial_state graph source);
    Some (st ← r;
          Task3.Ok (mk_result (st_distances st) (st_predecessors st) source))
  else Some (Task3.Raise Task3.ValueError).

Definition get_distance (self : DijkstraResult) (destination : Z) : float :=
  default PrimFloat.infinity (distances self !! destination).

(* graphs obtained from the constructor by add_edge calls *)
Inductive built : Graph → Prop :=
| built_new n adj g :
    (∀ v es e, adj !! v = Some es → e ∈ es →
       ∃ d w, new_edge d w = Task3.Ok e) →
    new_graph n adj = Task3.Ok g → built g
| built_add g s d w :
    built g → built (add_edge g s d w).1.

(* Graph(vertices=2) *)
Definition two_vertices : Graph := mk_graph 2 (list_to_map [(0, []); (1, [])]).


(* ... after add_edge(0, 1, float('inf')) instead *)
Definition inf_graph : Graph :=
  mk_graph 2 (list_to_map [(0, [mk_edge 1 PrimFloat.infinity]); (1, [])]).

(* 0 -> 1 -> 2 with both weights 2.0 ** 1023 *)
Definition huge_graph : Graph :=
  mk_graph 3 (list_to_map [(0, [mk_edge 1 0x1p+1023%float]);
                           (1, [mk_edge 2 0x1p+1023%float]); (2, [])]).

(* result.get_distance(v) on the result of a run *)
Definition run_distance (fuel : nat) (g : Graph) (s v : Z) : option float :=
  match find_shortest_paths fuel g s with
  | Some (Task3.Ok r) => Some (get_distance r v)
  | _ => None
  end.






(* The exactness that the theorems of Task3 rest on is lost on floats: a
   vertex that can be reached is left at inf when the weight of its edge is
   inf, and when the sum along its path overflows. *)
Example inf_weight_leaves_vertex_at_inf :
  add_edge two_vertices 0 1 PrimFloat.infinity = (inf_graph, Task3.Ok ()) ∧
  run_distance 5 inf_graph 0 1 = Some PrimFloat.infinity.
Proof. split; vm_compute; reflexivity. Qed.

Example overflow_leaves_vertex_at_inf :
  run_distance 5 huge_graph 0 1 = Some 0x1p+1023%float ∧
  run_distance 5 huge_graph 0 2 = Some PrimFloat.infinity.
Proof. split; vm_compute; reflexivity. Qed.


End Task3Float.

Module Task5.

Inductive Node : Type :=
  mk_node { left : option Node; right : option Node; val : Z;
            color : string; id : string }.

Fixpoint size (n : Node) : nat :=
  match n with
  | mk_node l r _ _ _ =>
      S (match l with Some a => size a | None => 0 end
         + match r with Some b => size b | None => 0 end)
  end.

Definition total_size (ns : list Node) : nat := foldr (fun n k => size n + k) 0 ns.

Definition push (child : option Node) (nodes : list Node) : list Node :=
  match child with Some c => c :: nodes | None => nodes end.

Definition append (nodes : list Node) (child : option Node) : list Node :=
  match child with Some c => nodes ++ [c] | None => nodes end.

Lemma total_size_app a b : total_size (a ++ b) = total_size a + total_size b.
Proof. induction a; simpl; lia. Qed.

Equations? dfs_loop (stack visited : list Node) : list Node
  by wf (total_size stack) lt :=
  dfs_loop [] visited := visited;
  dfs_loop (node :: stack) visited :=
    dfs_loop (push (left node) (push (right node) stack)) (visited ++ [node]).
Proof.
  destruct node as [[l|] [r|] v c i]; simpl; lia.
Qed.

Equations? bfs_loop (queue visited : list Node) : list Node
  by wf (total_size queue) lt :=
  bfs_loop [] visited := visited;
  bfs_loop (node :: queue) visited :=
    bfs_loop (append (append queue (left node)) (right node)) (visited ++ [node]).
Proof.
  destruct node as [[l|] [r|] v c i]; simpl; rewrite ?total_size_app; simpl; lia.
Qed.

Definition dfs_traversal (root : option Node) : list Node :=
  match root with None => [] | Some r => dfs_loop [r] [] end.
Definition bfs_traversal (root : option Node) : list Node :=
  match root with None => [] | Some r => bfs_loop [r] [] end.


Definition leaf (v : Z) (i : string) : Node := mk_node None None v "skyblue" i.
Definition demo_tree : Node :=
  mk_node (Some (mk_node (Some (leaf 3 "d")) (Some (leaf 4 "e")) 1 "skyblue" "b"))
          (Some (leaf 2 "c")) 0 "skyblue" "a".

(* Specification side: recursive preorder and per-depth levels. *)
Fixpoint preorder (n : Node) : list Node :=
  match n with
  | mk_node l r _ _ _ =>
      n :: match l with Some a => preorder a | None => [] end
        ++ match r with Some b => preorder b | None => [] end
  end.

Definition children (n : Node) : list Node :=
  option_list (left n) ++ option_list (right n).

Fixpoint level (d : nat) (n : Node) : list Node :=
  match d with
  | O => [n]
  | S d' => flat_map (level d') (children n)
  end.

Fixpoint height (n : Node) : nat :=
  match n with
  | mk_node l r _ _ _ =>
      S (Nat.max match l with Some a => height a | None => 0 end
                 match r with Some b => height b | None => 0 end)
  end.

Definition level_order (n : Node) : list Node :=
  flat_map (fun d => level d n) (seq 0 (height n)).

(* n is a node of the tree rooted at root *)
Inductive node_of (root : Node) : Node -> Prop :=
| node_of_root : node_of root root
| node_of_left n c : node_of root n -> left n = Some c -> node_of root c
| node_of_right n c : node_of root n -> right n = Some c -> node_of root c.

Definition distinct_nodes (root : Node) : Prop := NoDup (id <$> preorder root).

(* a occurs in l at some position before an occurrence of b *)
Definition precedes (l : list Node) (a b : Node) : Prop :=
  exists l1 l2 l3, l = l1 ++ a :: l2 ++ b :: l3.

Definition forest_height (q : list Node) : nat :=
  foldr (fun n k => Nat.max (height n) k) 0 q.

Definition levels_upto (h : nat) (q : list Node) : list Node :=
  flat_map (fun d => flat_map (level d) q) (seq 0 h).

Lemma preorder_unfold n :
  preorder n = n :: flat_map preorder (children n).
Proof.
  destruct n as [[l|] [r|] v c i]; unfold children; simpl;
    rewrite ?app_nil_r; reflexivity.
Qed.

Lemma push_children node stack :
  push (left node) (push (right node) stack) = children node ++ stack.
Proof. unfold children. destruct (left node), (right node); reflexivity. Qed.

Lemma append_children node queue :
  append (append queue (left node)) (right node) = queue ++ children node.
Proof.
  unfold children. destruct (left node), (right node); simpl;
    rewrite <- ?app_assoc, ?app_nil_r; reflexivity.
Qed.

Lemma total_size_children n : size n = S (total_size (children n)).
Proof. destruct n as [[l|] [r|] v c i]; unfold children; simpl; lia. Qed.

Lemma dfs_loop_spec k : forall stack visited,
  total_size stack <= k ->
  dfs_loop stack visited = visited ++ flat_map preorder stack.
Proof.
  induction k as [|k IH]; intros [|node stack] visited Hk; simp dfs_loop.
  - simpl. now rewrite app_nil_r.
  - simpl in Hk. pose proof (total_size_children node). lia.
  - simpl. now rewrite app_nil_r.
  - rewrite push_children. rewrite IH.
    + rewrite flat_map_app. simpl. rewrite (preorder_unfold node).
      simpl. rewrite <- !app_assoc. reflexivity.
    + simpl in Hk. rewrite total_size_app.
      pose proof (total_size_children node). lia.
Qed.

Lemma Node_children_ind (P : Node -> Prop) :
  (forall n, (forall c, c ∈ children n -> P c) -> P n) -> forall n, P n.
Proof.
  intros step n. remember (size n) as k eqn:Hk.
  revert n Hk. induction k as [k IH] using lt_wf_ind. intros n ->.
  apply step. intros c Hc. apply (IH (size c)); [|reflexivity].
  rewrite (total_size_children n).
  apply list_elem_of_split in Hc as (l1 & l2 & ->).
  rewrite total_size_app. simpl. lia.
Qed.

Lemma height_unfold n : height n = S (forest_height (children n)).
Proof.
  destruct n as [[l|] [r|] v c i]; unfold children; simpl; f_equal; lia.
Qed.

Lemma forest_height_app a b :
  forest_height (a ++ b) = Nat.max (forest_height a) (forest_height b).
Proof. induction a; simpl; lia. Qed.

Lemma forest_height_children q :
  forest_height (flat_map children q) <= pred (forest_height q).
Proof.
  induction q as [|n q IH]; simpl; [lia|].
  rewrite forest_height_app, (height_unfold n). lia.
Qed.

Lemma forest_height_0 q : forest_height q = 0 -> q = [].
Proof.
  destruct q as [|n q]; [reflexivity|]. simpl.
  rewrite (height_unfold n). lia.
Qed.

Lemma flat_map_level_S d q :
  flat_map (level (S d)) q = flat_map (level d) (flat_map children q).
Proof.
  induction q as [|n q IH]; [reflexivity|].
  cbn [flat_map]. rewrite flat_map_app, IH. reflexivity.
Qed.

Lemma flat_map_level_0 q : flat_map (level 0) q = q.
Proof.
  induction q as [|n q IH]; [reflexivity|].
  cbn [flat_map level app]. f_equal. exact IH.
Qed.

Lemma levels_upto_nil h : levels_upto h [] = [].
Proof.
  unfold levels_upto. generalize 0. induction h; intros s; simpl; auto.
Qed.

Lemma levels_upto_S h q :
  levels_upto (S h) q = q ++ levels_upto h (flat_map children q).
Proof.
  unfold levels_upto. simpl seq. simpl flat_map at 1.
  rewrite flat_map_level_0. f_equal.
  rewrite <- seq_shift, flat_map_concat_map, map_map, <- flat_map_concat_map.
  apply flat_map_ext. intros d. apply flat_map_level_S.
Qed.

Lemma bfs_loop_spec k : forall q1 q2 visited h,
  total_size (q1 ++ q2) <= k ->
  forest_height (q2 ++ flat_map children q1) <= h ->
  bfs_loop (q1 ++ q2) visited
  = visited ++ q1 ++ levels_upto h (q2 ++ flat_map children q1).
Proof.
  induction k as [|k IH]; intros [|n q1] q2 visited h Hk Hh.
  - destruct q2 as [|n q2]; simpl in *.
    + simp bfs_loop. now rewrite levels_upto_nil, app_nil_r.
    + pose proof (total_size_children n). lia.
  - simpl in Hk. pose proof (total_size_children n). lia.
  - destruct q2 as [|n q2]; simpl app at 1.
    + simp bfs_loop. simpl. now rewrite levels_upto_nil, app_nil_r.
    + simp bfs_loop. rewrite append_children.
      simpl in Hh, Hk. rewrite app_nil_r in Hh.
      pose proof (height_unfold n) as Hn.
      destruct h as [|h]; [lia|].
      pose proof (forest_height_children (n :: q2)) as Hc. simpl in Hc.
      rewrite (IH q2 (children n) _ h).
      * simpl. rewrite levels_upto_S. simpl.
        rewrite app_nil_r, <- !app_assoc. simpl. reflexivity.
      * pose proof (total_size_children n).
        rewrite total_size_app in *. lia.
      * lia.
  - simpl app at 1. simp bfs_loop. rewrite append_children.
    rewrite <- app_assoc.
    rewrite (IH q1 (q2 ++ children n) _ h).
    + simpl. rewrite <- !app_assoc. reflexivity.
    + simpl in Hk. pose proof (total_size_children n).
      rewrite !total_size_app in *. lia.
    + simpl in Hh. now rewrite <- app_assoc.
Qed.

Lemma levels_upto_singleton n :
  levels_upto (height n) [n] = level_order n.
Proof.
  unfold levels_upto, level_order. apply flat_map_ext.
  intros d. simpl. apply app_nil_r.
Qed.

Lemma flat_map_preorder_children q :
  flat_map preorder q ≡ₚ q ++ flat_map preorder (flat_map children q).
Proof.
  induction q as [|n q IH]; [reflexivity|].
  simpl. rewrite flat_map_app, (preorder_unfold n), IH. simpl.
  constructor. rewrite !app_assoc. apply Permutation_app_tail.
  apply Permutation_app_comm.
Qed.

Lemma levels_upto_preorder h : forall q,
  forest_height q <= h -> levels_upto h q ≡ₚ flat_map preorder q.
Proof.
  induction h as [|h IH]; intros q Hq.
  - rewrite (forest_height_0 q) by lia. reflexivity.
  - rewrite levels_upto_S, flat_map_preorder_children.
    apply Permutation_app_head, IH.
    pose proof (forest_height_children q). lia.
Qed.

Lemma elem_of_preorder_trans : forall m n c,
  n ∈ preorder m -> c ∈ preorder n -> c ∈ preorder m.
Proof.
  induction m as [m IH] using Node_children_ind. intros n c Hn Hc.
  rewrite preorder_unfold in Hn. apply elem_of_cons in Hn as [->|Hn]; [done|].
  rewrite preorder_unfold. apply elem_of_cons. right.
  apply list_elem_of_In, in_flat_map in Hn as (k & Hk & Hn).
  apply list_elem_of_In, in_flat_map. exists k. split; [done|].
  apply list_elem_of_In. apply list_elem_of_In in Hk, Hn. eauto.
Qed.

Lemma elem_of_preorder_self n : n ∈ preorder n.
Proof. rewrite preorder_unfold. apply elem_of_cons. now left. Qed.

Lemma elem_of_preorder_child n c : c ∈ children n -> c ∈ preorder n.
Proof.
  intros Hc. rewrite preorder_unfold. apply elem_of_cons. right.
  apply list_elem_of_In, in_flat_map. exists c.
  split; apply list_elem_of_In; [done|apply elem_of_preorder_self].
Qed.

Lemma node_of_preorder root n : node_of root n <-> n ∈ preorder root.
Proof.
  split.
  - induction 1 as [|n c _ IH Hl|n c _ IH Hr].
    + apply elem_of_preorder_self.
    + apply (elem_of_preorder_trans _ n); [done|].
      apply elem_of_preorder_child. unfold children. rewrite Hl.
      simpl. apply elem_of_cons. now left.
    + apply (elem_of_preorder_trans _ n); [done|].
      apply elem_of_preorder_child. unfold children. rewrite Hr.
      apply elem_of_app. right. simpl. apply elem_of_cons. now left.
  - enough (forall m, node_of root m -> n ∈ preorder m -> node_of root n)
      as Hgen by (apply Hgen; constructor).
    induction m as [m IH] using Node_children_ind. intros Hm Hn.
    rewrite preorder_unfold in Hn. apply elem_of_cons in Hn as [->|Hn]; [done|].
    apply list_elem_of_In, in_flat_map in Hn as (k & Hk & Hn).
    apply list_elem_of_In in Hk, Hn. apply (IH k); [done| |done].
    unfold children in Hk. apply elem_of_app in Hk as [Hk|Hk].
    + destruct (left m) eqn:E; simpl in Hk; [|by apply elem_of_nil in Hk].
      apply list_elem_of_singleton in Hk as ->. by eapply node_of_left.
    + destruct (right m) eqn:E; simpl in Hk; [|by apply elem_of_nil in Hk].
      apply list_elem_of_singleton in Hk as ->. by eapply node_of_right.
Qed.

Lemma dfs_traversal_preorder root : dfs_traversal (Some root) = preorder root.
Proof.
  unfold dfs_traversal. rewrite (dfs_loop_spec (size root)) by (simpl; lia).
  simpl. apply app_nil_r.
Qed.

Lemma bfs_traversal_level_order root :
  bfs_traversal (Some root) = level_order root.
Proof.
  unfold bfs_traversal.
  pose proof (bfs_loop_spec (size root) [] [root] [] (height root)) as H.
  simpl in H. rewrite H by lia. apply levels_upto_singleton.
Qed.

(** C10: on a finite binary tree whose nodes are pairwise distinct objects,
    dfs_traversal lists exactly the nodes of the tree, each once, in
    preorder, and bfs_traversal lists a permutation of them level by level
    (depth d before depth d+1, left to right); both give [] for None. *)
Theorem traversals_preorder_and_level_order (root : Node) :
  distinct_nodes root ->
  dfs_traversal (Some root) = preorder root /\
  (forall n, n ∈ dfs_traversal (Some root) <-> node_of root n) /\
  NoDup (dfs_traversal (Some root)) /\
  bfs_traversal (Some root)
    = flat_map (fun d => level d root) (seq 0 (height root)) /\
  bfs_traversal (Some root) ≡ₚ dfs_traversal (Some root) /\
  dfs_traversal None = [] /\ bfs_traversal None = [].
Proof.
  intros Hd. rewrite dfs_traversal_preorder, bfs_traversal_level_order.
  repeat split; try reflexivity.
  - by apply node_of_preorder.
  - by apply node_of_preorder.
  - by apply (NoDup_fmap_1 id).
  - rewrite <- levels_upto_singleton, levels_upto_preorder by (simpl; lia).
    simpl. by rewrite app_nil_r.
Qed.

Lemma demo_tree_distinct : distinct_nodes demo_tree.
Proof.
  unfold distinct_nodes. apply (bool_decide_unpack _). vm_compute. exact I.
Qed.

Lemma traversals_preorder_and_level_order_witness :
  id <$> dfs_traversal (Some demo_tree) = ["a"; "b"; "d"; "e"; "c"] /\
  id <$> bfs_traversal (Some demo_tree) = ["a"; "b"; "c"; "d"; "e"].
Proof.
  destruct (traversals_preorder_and_level_order demo_tree demo_tree_distinct)
    as (Hdfs & _ & _ & Hbfs & _).
  rewrite Hdfs, Hbfs. split; reflexivity.
Defined.

Lemma length_preorder n : length (preorder n) = size n.
Proof.
  induction n as [n IH] using Node_children_ind.
  rewrite preorder_unfold, total_size_children. simpl. f_equal.
  induction (children n) as [|c cs IHc]; [reflexivity|].
  simpl. rewrite length_app, IH by (apply elem_of_cons; now left).
  rewrite IHc; [reflexivity|].
  intros k Hk. apply IH. apply elem_of_cons. now right.
Qed.

Lemma level_order_head n : head (level_order n) = Some n.
Proof.
  unfold level_order. rewrite (height_unfold n). reflexivity.
Qed.

Lemma level_order_preorder n : level_order n ≡ₚ preorder n.
Proof.
  rewrite <- levels_upto_singleton, levels_upto_preorder by (simpl; lia).
  simpl. by rewrite app_nil_r.
Qed.

(** X23: on every binary tree, with no assumption on the nodes,
    dfs_traversal and bfs_traversal both start at the root and return as
    many nodes as the tree has. *)
Theorem traversals_start_at_root_and_count root :
  head (dfs_traversal (Some root)) = Some root /\
  head (bfs_traversal (Some root)) = Some root /\
  length (dfs_traversal (Some root)) = size root /\
  length (bfs_traversal (Some root)) = size root.
Proof.
  rewrite dfs_traversal_preorder, bfs_traversal_level_order.
  split; [by rewrite preorder_unfold|]. split; [apply level_order_head|].
  split; [apply length_preorder|].
  rewrite level_order_preorder. apply length_preorder.
Qed.

Lemma elem_of_flat_map_1 {A B} (f : A -> list B) (l : list A) a b :
  a ∈ l -> b ∈ f a -> b ∈ flat_map f l.
Proof.
  intros Ha Hb. apply list_elem_of_In, in_flat_map. exists a.
  split; by apply list_elem_of_In.
Qed.

Lemma elem_of_flat_map_inv {A B} (f : A -> list B) (l : list A) b :
  b ∈ flat_map f l -> exists a, a ∈ l /\ b ∈ f a.
Proof.
  intros Hb. apply list_elem_of_In, in_flat_map in Hb as (a & Ha & Hb).
  exists a. split; by apply list_elem_of_In.
Qed.

Lemma precedes_preorder : forall m n c,
  n ∈ preorder m -> c ∈ children n -> precedes (preorder m) n c.
Proof.
  induction m as [m IH] using Node_children_ind. intros n c Hn Hc.
  rewrite preorder_unfold in Hn |- *.
  apply elem_of_cons in Hn as [->|Hn].
  - assert (c ∈ flat_map preorder (children m)) as Hin.
    { apply (elem_of_flat_map_1 _ _ c); [done|apply elem_of_preorder_self]. }
    apply list_elem_of_split in Hin as (l2 & l3 & ->).
    by exists [], l2, l3.
  - apply elem_of_flat_map_inv in Hn as (k & Hk & Hn).
    destruct (IH k Hk n c Hn Hc) as (l1 & l2 & l3 & Heq).
    apply list_elem_of_split in Hk as (a & b & ->).
    rewrite flat_map_app. simpl. rewrite Heq.
    exists (m :: flat_map preorder a ++ l1), l2, (l3 ++ flat_map preorder b).
    simpl. rewrite <- ?app_assoc. simpl. rewrite <- ?app_assoc. reflexivity.
Qed.

Lemma level_S_children d : forall m,
  level (S d) m = flat_map children (level d m).
Proof.
  induction d as [|d IH]; intros m.
  - cbn [level]. rewrite flat_map_level_0. simpl. by rewrite app_nil_r.
  - change (level (S (S d)) m) with (flat_map (level (S d)) (children m)).
    change (level (S d) m) with (flat_map (level d) (children m)).
    induction (children m) as [|k ks IHk]; [reflexivity|].
    cbn [flat_map]. rewrite flat_map_app, IH, IHk. reflexivity.
Qed.

Lemma height_le_forest_height q k : k ∈ q -> height k <= forest_height q.
Proof.
  induction q as [|x q IH]; intros Hk; [by apply elem_of_nil in Hk|].
  simpl. apply elem_of_cons in Hk as [->|Hk]; [lia|].
  specialize (IH Hk). lia.
Qed.

Lemma level_lt_height d : forall m x, x ∈ level d m -> d < height m.
Proof.
  induction d as [|d IH]; intros m x Hx; rewrite (height_unfold m); [lia|].
  cbn [level] in Hx. apply elem_of_flat_map_inv in Hx as (k & Hk & Hx).
  specialize (IH k x Hx). pose proof (height_le_forest_height _ _ Hk). lia.
Qed.

Lemma node_of_level root n : node_of root n -> exists d, n ∈ level d root.
Proof.
  induction 1 as [|n c _ [d IH] Hl|n c _ [d IH] Hr].
  - exists 0. simpl. apply elem_of_cons. now left.
  - exists (S d). rewrite level_S_children.
    apply (elem_of_flat_map_1 _ _ n); [done|]. unfold children. rewrite Hl.
    simpl. apply elem_of_cons. now left.
  - exists (S d). rewrite level_S_children.
    apply (elem_of_flat_map_1 _ _ n); [done|]. unfold children. rewrite Hr.
    apply elem_of_app. right. simpl. apply elem_of_cons. now left.
Qed.

Lemma precedes_level_order m n c d :
  n ∈ level d m -> c ∈ children n -> precedes (level_order m) n c.
Proof.
  intros Hn Hc.
  assert (c ∈ level (S d) m) as Hcl.
  { rewrite level_S_children. by apply (elem_of_flat_map_1 _ _ n). }
  pose proof (level_lt_height _ _ _ Hcl) as Hh.
  apply list_elem_of_split in Hn as (x1 & x2 & Hx).
  apply list_elem_of_split in Hcl as (y1 & y2 & Hy).
  unfold level_order.
  replace (height m) with (d + (2 + (height m - d - 2))) by lia.
  rewrite seq_app, flat_map_app. cbn [seq flat_map Nat.add].
  rewrite Hx, Hy.
  match goal with
  | |- precedes (?A ++ _ ++ _ ++ ?B) _ _ =>
      exists (A ++ x1), (x2 ++ y1), (y2 ++ B)
  end.
  rewrite <- ?app_assoc. simpl. rewrite <- ?app_assoc. simpl.
  rewrite <- ?app_assoc. reflexivity.
Qed.

(** X24: a node is visited before its children: for every node n of the
    tree and every child c of n, n occurs before c in the list returned by
    dfs_traversal, and also in the list returned by bfs_traversal. *)
Theorem parent_visited_before_child root n c :
  node_of root n -> left n = Some c \/ right n = Some c ->
  precedes (dfs_traversal (Some root)) n c /\
  precedes (bfs_traversal (Some root)) n c.
Proof.
  intros Hn Hc.
  assert (c ∈ children n) as Hch.
  { unfold children. apply elem_of_app. destruct Hc as [-> | ->]; [left|right];
      simpl; apply elem_of_cons; now left. }
  rewrite dfs_traversal_preorder, bfs_traversal_level_order. split.
  - apply precedes_preorder; [|done]. by apply node_of_preorder.
  - destruct (node_of_level root n Hn) as [d Hd].
    by apply (precedes_level_order root n c d).
Qed.

Lemma parent_visited_before_child_witness :
  precedes (dfs_traversal (Some demo_tree)) demo_tree (leaf 2 "c") /\
  precedes (bfs_traversal (Some demo_tree)) demo_tree (leaf 2 "c").
Proof.
  apply (parent_visited_before_child demo_tree demo_tree (leaf 2 "c")).
  - apply node_of_root.
  - right. reflexivity.
Defined.

End Task5.

Module Task6.
Local Open Scope Z_scope.

(* {"cost": c, "calories": k} *)
Record item := mk_item { cost : Z; calories : Z }.

(* A Python dict with string keys, in insertion order. *)
Abbreviation dict V := (list (string * V)).

Fixpoint dict_get {V} (d : dict V) (k : string) : option V :=
  match d with
  | [] => None
  | (k', v) :: d' => if decide (k' = k) then Some v else dict_get d' k
  end.

(* d[k] = v: replaces the value of an existing key in place, else appends *)
Fixpoint dict_set {V} (d : dict V) (k : string) (v : V) : dict V :=
  match d with
  | [] => [(k, v)]
  | (k', v') :: d' =>
      if decide (k' = k) then (k, v) :: d' else (k', v') :: dict_set d' k v
  end.

Definition keys {V} (d : dict V) : list string := d.*1.

(* l[i] and l[i] = x with Python's index rules (negative indices count from
   the end, anything else out of range is an IndexError). *)
Definition py_index {A} (l : list A) (i : Z) : option nat :=
  let n := Z.of_nat (length l) in
  if decide (0 ≤ i < n) then Some (Z.to_nat i)
  else if decide (- n ≤ i < 0) then Some (Z.to_nat (n + i))
  else None.

Definition py_get {A} (l : list A) (i : Z) : option A :=
  j ← py_index l i; l !! j.

Definition py_set {A} (l : list A) (i : Z) (x : A) : option (list A) :=
  j ← py_index l i; Some (<[j := x]> l).

(* for x in xs: s = body(s, x), stopping at the first exception *)
Fixpoint for_each {S A} (body : S → A → option S) (s : S) (xs : list A)
    : option S :=
  match xs with
  | [] => Some s
  | x :: xs' => s' ← body s x; for_each body s' xs'
  end.

Definition calculate_totals (items : dict item) (selected : dict Z)
    : option (Z * Z) :=
  for_each (λ '(total_cost, total_calories) '(name, quantity),
      it ← dict_get items name;
      Some (total_cost + cost it * quantity,
            total_calories + calories it * quantity))
    (0, 0) selected.

Definition dp_item (items : dict item) (w : Z)
    (st : list Z * list (dict Z)) (item_name : string)
    : option (list Z * list (dict Z)) :=
  let '(dp, choices) := st in
  it ← dict_get items item_name;
  if decide (cost it ≤ w) then
    prev ← py_get dp (w - cost it);
    let new_value := prev + calories it in
    cur ← py_get dp w;
    if decide (new_value > cur) then
      dp' ← py_set dp w new_value;
      copy ← py_get choices (w - cost it);
      choices' ← py_set choices w copy;
      chosen ← py_get choices' w;
      choices'' ← py_set choices' w
        (dict_set chosen item_name (default 0 (dict_get chosen item_name) + 1));
      Some (dp', choices'')
    else Some st
  else Some st.

Definition dynamic_programming (items : dict item) (budget : Z)
    : option (dict Z) :=
  let item_list := keys items in
  let dp := replicate (Z.to_nat (budget + 1)) 0 in
  let choices := replicate (Z.to_nat (budget + 1)) ([] : dict Z) in
  '(dp, choices) ← for_each
      (λ st w, for_each (dp_item items w) st item_list)
      (dp, choices) (seqZ 1 budget);
  py_get choices budget.

Definition greedy_item (items : dict item) (st : dict Z * Z) (name : string)
    : option (dict Z * Z) :=
  let '(selected, remaining_budget) := st in
  it ← dict_get items name;
  if decide (cost it = 0) then None
  else
    let quantity := remaining_budget `div` cost it in
    if decide (quantity > 0) then
      Some (dict_set selected name quantity,
            remaining_budget - quantity * cost it)
    else Some st.

(* a / b on ints is the true division: its result is the float nearest to
   the quotient.  It raises ZeroDivisionError when b = 0, and OverflowError
   when that float would lie beyond the largest one, that is when
   |a / b| >= 2^1024 - 2^970, the midpoint between the largest float and
   2^1024. *)
Definition float_overflow_threshold : Z := 2 ^ 1024 - 2 ^ 970.

Definition true_div_raises (a b : Z) : Prop :=
  b = 0 ∨ float_overflow_threshold * Z.abs b ≤ Z.abs a.

#[local] Instance true_div_raises_dec a b : Decision (true_div_raises a b).
Proof. unfold true_div_raises. apply _. Defined.

Section Greedy.
(* Lines 41-47: the names of the items sorted by the float ratio
   calories / cost, best first.  The value of the float is not modelled:
   the loop that computes the ratios is kept by the exceptions it can
   raise, and the sorted order is a parameter, of which only that it
   permutes the names is used. *)
Variable ratio_order : dict item → list string.

Definition greedy_algorithm (items : dict item) (budget : Z)
    : option (dict Z) :=
  if decide (Exists (λ e, true_div_raises (calories e.2) (cost e.2)) items)
  then None
  else
    '(selected, _) ← for_each (greedy_item items) ([], budget)
                        (ratio_order items);
    Some selected.
End Greedy.

(* One such order, for the examples: the stable sort by the exact ratios,
   largest first.  The source sorts the ratios rounded to floats; the two
   orders are the same whenever ratios that differ round to floats that
   differ, as for the items of the module. *)
Definition ratio (it : item) : Q := (inject_Z (calories it) / inject_Z (cost it))%Q.

Fixpoint insert_by_ratio (e : string * item) (sorted : dict item) : dict item :=
  match sorted with
  | [] => [e]
  | e' :: rest =>
      if Qle_bool (ratio e'.2) (ratio e.2) then e :: sorted
      else e' :: insert_by_ratio e rest
  end.

Definition exact_ratio_order (items : dict item) : list string :=
  keys (foldr insert_by_ratio [] items).

Definition items : dict item :=
  [("pizza", mk_item 50 300); ("hamburger", mk_item 40 250);
   ("hot-dog", mk_item 30 200); ("pepsi", mk_item 10 100);
   ("cola", mk_item 15 220); ("potato", mk_item 25 350)].

(* One dish whose ratio calories / cost is beyond the floats. *)
Definition rich_items : dict item := [("feast", mk_item 1 (10 ^ 400))].

(* Specification side: totals as plain sums. *)
Definition item_of (items : dict item) (name : string) : item :=
  default (mk_item 0 0) (dict_get items name).

Definition known (items : dict item) (name : string) : Prop :=
  is_Some (dict_get items name).

Definition sel_cost (items : dict item) (sel : dict Z) : Z :=
  foldr (λ e acc, cost (item_of items e.1) * e.2 + acc) 0 sel.

Definition sel_calories (items : dict item) (sel : dict Z) : Z :=
  foldr (λ e acc, calories (item_of items e.1) * e.2 + acc) 0 sel.

(* a multiset of items as the list of its members' names *)
Definition ms_cost (items : dict item) (ms : list string) : Z :=
  foldr (λ n acc, cost (item_of items n) + acc) 0 ms.

Definition ms_calories (items : dict item) (ms : list string) : Z :=
  foldr (λ n acc, calories (item_of items n) + acc) 0 ms.

Definition expand (sel : dict Z) : list string :=
  flat_map (λ e, replicate (Z.to_nat e.2) e.1) sel.

Definition positive_costs (items : dict item) : Prop :=
  Forall (λ e, 0 < cost e.2) items.

(* every ratio calories / cost rounds to a float *)
Definition ratios_representable (items : dict item) : Prop :=
  Forall (λ e, Z.abs (calories e.2) < float_overflow_threshold * Z.abs (cost e.2))
    items.

(* Invariants of the dynamic-programming tables. *)
Definition row_ok (items : dict item) (v dv : Z) (cv : dict Z) : Prop :=
  Forall (λ e, known items e.1 ∧ 0 < e.2) cv ∧
  sel_cost items cv ≤ v ∧ sel_calories items cv = dv ∧ 0 ≤ dv.

Definition table_ok (items : dict item) (N : nat)
    (st : list Z * list (dict Z)) : Prop :=
  length st.1 = N ∧ length st.2 = N ∧
  ∀ (v : nat) dv cv, st.1 !! v = Some dv → st.2 !! v = Some cv →
    row_ok items (Z.of_nat v) dv cv.

Definition opt_row (items : dict item) (dp : list Z) (v : nat) : Prop :=
  ∀ ms dv, Forall (known items) ms → ms_cost items ms ≤ Z.of_nat v →
    dp !! v = Some dv → ms_calories items ms ≤ dv.

(* Invariant of the greedy loop. *)
Definition greedy_ok (items : dict item) (budget : Z) (st : dict Z * Z) : Prop :=
  Forall (λ e, known items e.1 ∧ 0 < e.2) st.1 ∧
  sel_cost items st.1 = budget - st.2 ∧ 0 ≤ st.2 ∧
  ∀ n q, dict_get st.1 n = Some q → st.2 < cost (item_of items n).

Lemma dict_get_Some_elem {V} (d : dict V) k v :
  dict_get d k = Some v → (k, v) ∈ d.
Proof.
  induction d as [|[k' v'] d IH]; simpl; [done|].
  case_decide as Hk.
  - intros [= ->]. subst. apply elem_of_cons. by left.
  - intros H. apply elem_of_cons. right. auto.
Qed.

Lemma dict_get_keys {V} (d : dict V) k : k ∈ keys d → is_Some (dict_get d k).
Proof.
  unfold keys. induction d as [|[k' v'] d IH]; simpl.
  - intros H. by apply elem_of_nil in H.
  - intros [->|H]%elem_of_cons; case_decide; eauto; done.
Qed.

Lemma positive_costs_get items name it :
  positive_costs items → dict_get items name = Some it → 0 < cost it.
Proof.
  intros Hpos Hget. apply dict_get_Some_elem in Hget.
  unfold positive_costs in Hpos. rewrite Forall_forall in Hpos.
  apply (Hpos (name, it)). done.
Qed.

Lemma calculate_totals_acc items sel : ∀ c0 k0,
  Forall (λ e, known items e.1) sel →
  for_each (λ '(total_cost, total_calories) '(name, quantity),
      it ← dict_get items name;
      Some (total_cost + cost it * quantity,
            total_calories + calories it * quantity))
    (c0, k0) sel
  = Some (c0 + sel_cost items sel, k0 + sel_calories items sel).
Proof.
  induction sel as [|[n q] sel IH]; intros c0 k0 Hk; simpl.
  - f_equal. f_equal; lia.
  - apply Forall_cons in Hk as [[it Hit] Hk]. simpl in Hit.
    rewrite Hit. simpl. rewrite IH by done. unfold item_of. rewrite Hit. simpl.
    f_equal. f_equal; lia.
Qed.

Lemma calculate_totals_spec items sel :
  Forall (λ e, known items e.1) sel →
  calculate_totals items sel = Some (sel_cost items sel, sel_calories items sel).
Proof. intros H. unfold calculate_totals. by rewrite calculate_totals_acc. Qed.

Lemma calculate_totals_known_acc items sel : ∀ acc r,
  for_each (λ '(total_cost, total_calories) '(name, quantity),
      it ← dict_get items name;
      Some (total_cost + cost it * quantity,
            total_calories + calories it * quantity))
    acc sel = Some r →
  Forall (λ e, known items e.1) sel.
Proof.
  induction sel as [|[n q] sel IH]; intros [c0 k0] r; simpl; [constructor|].
  destruct (dict_get items n) as [it|] eqn:Hit; simpl; [|done].
  intros H. constructor; [by eexists|]. eauto.
Qed.

Lemma calculate_totals_inv items sel c k :
  calculate_totals items sel = Some (c, k) →
  Forall (λ e, known items e.1) sel ∧
  c = sel_cost items sel ∧ k = sel_calories items sel.
Proof.
  intros H. pose proof (calculate_totals_known_acc _ _ _ _ H) as Hk.
  rewrite calculate_totals_spec in H by done. by injection H as <- <-.
Qed.

Lemma sel_cost_dict_set items sel n q :
  sel_cost items (dict_set sel n q)
  = sel_cost items sel + cost (item_of items n) * (q - default 0 (dict_get sel n)).
Proof.
  induction sel as [|[n' q'] sel IH]; simpl; [lia|].
  case_decide; subst; simpl; [lia|]. rewrite IH. lia.
Qed.

Lemma sel_calories_dict_set items sel n q :
  sel_calories items (dict_set sel n q)
  = sel_calories items sel
    + calories (item_of items n) * (q - default 0 (dict_get sel n)).
Proof.
  induction sel as [|[n' q'] sel IH]; simpl; [lia|].
  case_decide; subst; simpl; [lia|]. rewrite IH. lia.
Qed.

Lemma Forall_dict_set {V} (P : string * V → Prop) (d : dict V) k v :
  Forall P d → P (k, v) → Forall P (dict_set d k v).
Proof.
  intros Hd Hk. induction d as [|[k' v'] d IH]; simpl.
  - by constructor.
  - apply Forall_cons in Hd as [? ?]. case_decide; constructor; auto.
Qed.

Lemma dict_get_Forall {V} (P : string * V → Prop) (d : dict V) k v :
  Forall P d → dict_get d k = Some v → P (k, v).
Proof.
  intros Hd Hk. apply dict_get_Some_elem in Hk.
  rewrite Forall_forall in Hd. auto.
Qed.

Lemma py_get_nat {A} (l : list A) (i : nat) :
  (i < length l)%nat → py_get l (Z.of_nat i) = l !! i.
Proof.
  intros Hi. unfold py_get, py_index.
  rewrite decide_True by lia. simpl. by rewrite Nat2Z.id.
Qed.

Lemma py_set_nat {A} (l : list A) (i : nat) x :
  (i < length l)%nat → py_set l (Z.of_nat i) x = Some (<[i := x]> l).
Proof.
  intros Hi. unfold py_set, py_index.
  rewrite decide_True by lia. simpl. by rewrite Nat2Z.id.
Qed.

Lemma expand_cost items sel :
  Forall (λ e, 0 ≤ e.2) sel → ms_cost items (expand sel) = sel_cost items sel.
Proof.
  induction sel as [|[n q] sel IH]; intros Hq; simpl; [done|].
  apply Forall_cons in Hq as [Hq Hs]. simpl in Hq.
  unfold ms_cost in *. rewrite foldr_app, IH by done.
  rewrite <- (Z2Nat.id q) at 2 by done.
  generalize (Z.to_nat q) as m. induction m as [|m IHm]; simpl; [lia|].
  rewrite IHm. lia.
Qed.

Lemma expand_calories items sel :
  Forall (λ e, 0 ≤ e.2) sel →
  ms_calories items (expand sel) = sel_calories items sel.
Proof.
  induction sel as [|[n q] sel IH]; intros Hq; simpl; [done|].
  apply Forall_cons in Hq as [Hq Hs]. simpl in Hq.
  unfold ms_calories in *. rewrite foldr_app, IH by done.
  rewrite <- (Z2Nat.id q) at 2 by done.
  generalize (Z.to_nat q) as m. induction m as [|m IHm]; simpl; [lia|].
  rewrite IHm. lia.
Qed.

Lemma expand_known items sel :
  Forall (λ e, known items e.1) sel → Forall (known items) (expand sel).
Proof.
  induction sel as [|[n q] sel IH]; intros Hk; simpl; [constructor|].
  apply Forall_cons in Hk as [Hn Hk]. apply Forall_app. split; [|auto].
  apply Forall_forall. intros x [-> _]%elem_of_replicate. done.
Qed.

Lemma ms_cost_nonneg items ms :
  positive_costs items → Forall (known items) ms → 0 ≤ ms_cost items ms.
Proof.
  intros Hpos. induction 1 as [|n ms [it Hit] _ IH]; simpl; [lia|].
  pose proof (positive_costs_get _ _ _ Hpos Hit). unfold item_of.
  rewrite Hit. simpl. lia.
Qed.

Lemma dp_item_spec items N st (w : nat) name it :
  positive_costs items → table_ok items N st → (w < N)%nat →
  dict_get items name = Some it →
  ∃ st', dp_item items (Z.of_nat w) st name = Some st' ∧
    table_ok items N st' ∧
    (∀ v, v ≠ w → st'.1 !! v = st.1 !! v) ∧
    ∃ a b, st.1 !! w = Some a ∧ st'.1 !! w = Some b ∧ a ≤ b ∧
      (cost it ≤ Z.of_nat w →
       ∀ p, st.1 !! Z.to_nat (Z.of_nat w - cost it) = Some p →
         p + calories it ≤ b).
Proof.
  intros Hpos Hok Hw Hget. destruct st as [dp ch].
  pose proof Hok as (Hl1 & Hl2 & Hrows). simpl in Hl1, Hl2, Hrows.
  pose proof (positive_costs_get _ _ _ Hpos Hget) as Hc.
  destruct (lookup_lt_is_Some_2 dp w) as [a Ha]; [lia|].
  unfold dp_item. rewrite Hget. simpl.
  destruct (decide (cost it ≤ Z.of_nat w)) as [Hle|Hgt].
  2:{ exists (dp, ch). split; [done|]. split; [done|]. split; [done|].
      exists a, a. simpl. repeat split; try done; lia. }
  set (j := Z.to_nat (Z.of_nat w - cost it)).
  assert (Z.of_nat w - cost it = Z.of_nat j) as Hj by lia.
  assert (j < w)%nat as Hjw by lia.
  destruct (lookup_lt_is_Some_2 dp j) as [p Hp]; [lia|].
  destruct (lookup_lt_is_Some_2 ch j) as [cj Hcj]; [lia|].
  rewrite Hj, (py_get_nat dp j) by lia. rewrite Hp. simpl.
  rewrite (py_get_nat dp w) by lia. rewrite Ha. simpl.
  destruct (decide (p + calories it > a)) as [Hbetter|Hworse].
  2:{ exists (dp, ch). split; [done|]. split; [done|]. split; [done|].
      exists a, a. simpl. split; [done|]. split; [done|]. split; [lia|].
      intros _ p' [= <-]. lia. }
  rewrite py_set_nat by lia. simpl.
  rewrite py_get_nat by lia. rewrite Hcj. simpl.
  rewrite py_set_nat by lia. simpl.
  rewrite py_get_nat by (rewrite length_insert; lia).
  rewrite list_lookup_insert_eq by lia. simpl.
  rewrite py_set_nat by (rewrite length_insert; lia). simpl.
  rewrite list_insert_insert_eq.
  eexists. split; [done|]. simpl.
  destruct (Hrows j p cj Hp Hcj) as (Hcjk & Hcjc & Hcjv & Hp0).
  destruct (Hrows w a) with (cv := default [] (ch !! w)) as (_ & _ & _ & Ha0).
  { done. } { destruct (lookup_lt_is_Some_2 ch w) as [cw ->]; [lia|]. done. }
  split; [|split].
  - unfold table_ok. simpl. rewrite !length_insert.
    split; [done|]. split; [done|]. intros v dv cv. destruct (decide (v = w)) as [->|Hne].
    + rewrite !list_lookup_insert_eq by lia. intros [= <-] [= <-].
      split; [|split; [|split]].
      * apply Forall_dict_set; [done|]. simpl. split; [by eexists|].
        destruct (dict_get cj name) as [q|] eqn:Hq; simpl; [|lia].
        pose proof (dict_get_Forall _ _ _ _ Hcjk Hq) as [_ Hq0]. simpl in Hq0. lia.
      * rewrite sel_cost_dict_set. unfold item_of. rewrite Hget. simpl. lia.
      * rewrite sel_calories_dict_set. unfold item_of. rewrite Hget.
        simpl. lia.
      * lia.
    + rewrite !list_lookup_insert_ne by done. apply Hrows.
  - intros v Hv. by rewrite list_lookup_insert_ne.
  - exists a, (p + calories it). split; [done|].
    rewrite list_lookup_insert_eq by lia. split; [done|]. split; [lia|].
    intros _ p' [= <-]. lia.
Qed.

Lemma dp_row_spec items N (w : nat) : ∀ names st,
  positive_costs items → table_ok items N st → (w < N)%nat →
  Forall (known items) names →
  ∃ st', for_each (dp_item items (Z.of_nat w)) st names = Some st' ∧
    table_ok items N st' ∧
    (∀ v, v ≠ w → st'.1 !! v = st.1 !! v) ∧
    ∃ a b, st.1 !! w = Some a ∧ st'.1 !! w = Some b ∧ a ≤ b ∧
      ∀ n it, n ∈ names → dict_get items n = Some it →
        cost it ≤ Z.of_nat w →
        ∀ p, st.1 !! Z.to_nat (Z.of_nat w - cost it) = Some p →
          p + calories it ≤ b.
Proof.
  induction names as [|n names IH]; intros st Hpos Hok Hw Hk.
  - exists st. split; [done|]. split; [done|]. split; [done|].
    destruct (lookup_lt_is_Some_2 st.1 w) as [a Ha].
    { destruct Hok as (-> & _). done. }
    exists a, a. repeat split; try done; try lia.
    intros ? ? Hin. by apply elem_of_nil in Hin.
  - apply Forall_cons in Hk as [[it Hit] Hk].
    destruct (dp_item_spec items N st w n it) as (st1 & Hrun1 & Hok1 & Hfr1 & a & b1 & Ha & Hb1 & Hab1 & Hn);
      try done.
    destruct (IH st1) as (st2 & Hrun2 & Hok2 & Hfr2 & a2 & b & Ha2 & Hb & Hab & Hns);
      try done.
    rewrite Hb1 in Ha2. injection Ha2 as <-.
    exists st2. split; [simpl; rewrite Hrun1; done|]. split; [done|]. split.
    { intros v Hv. rewrite Hfr2, Hfr1; done. }
    exists a, b. split; [done|]. split; [done|]. split; [lia|].
    intros n' it' [->|Hin]%elem_of_cons Hget Hle p Hp.
    + rewrite Hit in Hget. injection Hget as <-.
      specialize (Hn Hle p Hp). lia.
    + pose proof (positive_costs_get _ _ _ Hpos Hget).
      eapply Hns; try done. rewrite Hfr1; [done|lia].
Qed.

Lemma known_keys items n : known items n → n ∈ keys items.
Proof.
  intros [it Hit]. apply dict_get_Some_elem in Hit.
  unfold keys. apply list_elem_of_fmap. by exists (n, it).
Qed.

Lemma keys_known items : Forall (known items) (keys items).
Proof. apply Forall_forall. intros n. apply dict_get_keys. Qed.

Lemma dp_table_spec items N : ∀ (len w : nat) st,
  positive_costs items → table_ok items N st →
  (1 ≤ w)%nat → (w + len ≤ N)%nat →
  (∀ v, (v < w)%nat → opt_row items st.1 v) →
  ∃ st', for_each (λ st w, for_each (dp_item items w) st (keys items))
           st (seqZ (Z.of_nat w) (Z.of_nat len)) = Some st' ∧
    table_ok items N st' ∧
    ∀ v, (v < w + len)%nat → opt_row items st'.1 v.
Proof.
  induction len as [|len IH]; intros w st Hpos Hok Hw Hlen Hopt.
  - exists st. split; [done|]. split; [done|].
    intros v Hv. apply Hopt. lia.
  - rewrite seqZ_cons by lia. cbn [for_each].
    destruct (dp_row_spec items N w (keys items) st)
      as (st1 & Hrun & Hok1 & Hfr & a & b & Ha & Hb & Hab & Hbest);
      try done; [lia|apply keys_known|].
    rewrite Hrun. simpl.
    replace (Z.succ (Z.of_nat w)) with (Z.of_nat (S w)) by lia.
    replace (Z.pred (Z.of_nat (S len))) with (Z.of_nat len) by lia.
    destruct (IH (S w) st1) as (st' & Hrun' & Hok' & Hopt');
      try done; try lia.
    2:{ exists st'. split; [done|]. split; [done|].
        intros v Hv. apply Hopt'. lia. }
    intros v Hv. destruct (decide (v = w)) as [->|Hne].
    2:{ intros ms dv Hk Hc. rewrite Hfr by done. apply Hopt; [lia|done|done]. }
    intros ms dv Hk Hc. rewrite Hb. intros [= <-].
    pose proof Hok as (Hl1 & Hl2 & Hrows).
    destruct ms as [|n ms]; simpl.
    + destruct (lookup_lt_is_Some_2 st.2 w) as [cw Hcw]; [lia|].
      destruct (Hrows w a cw Ha Hcw) as (_ & _ & _ & Ha0). lia.
    + apply Forall_cons in Hk as [Hn Hk].
      pose proof Hn as [it Hit].
      pose proof (positive_costs_get _ _ _ Hpos Hit) as Hcost.
      pose proof (ms_cost_nonneg _ _ Hpos Hk) as Hms.
      simpl in Hc. unfold item_of in Hc |- *. rewrite Hit in Hc |- *.
      simpl in Hc |- *.
      set (j := Z.to_nat (Z.of_nat w - cost it)).
      destruct (lookup_lt_is_Some_2 st.1 j) as [p Hp]; [lia|].
      assert (ms_calories items ms ≤ p) as Hrec.
      { apply (Hopt j); [lia|done|lia|done]. }
      assert (p + calories it ≤ b) as Hstep.
      { apply (Hbest n it); [by apply known_keys|done|lia|done]. }
      lia.
Qed.

Lemma dynamic_programming_spec items budget :
  positive_costs items → 0 ≤ budget →
  ∃ selected, dynamic_programming items budget = Some selected ∧
    Forall (λ e, known items e.1 ∧ 0 < e.2) selected ∧
    sel_cost items selected ≤ budget ∧
    ∀ ms, Forall (known items) ms → ms_cost items ms ≤ budget →
      ms_calories items ms ≤ sel_calories items selected.
Proof.
  intros Hpos Hb. unfold dynamic_programming.
  set (N := Z.to_nat (budget + 1)).
  destruct (dp_table_spec items N (Z.to_nat budget) 1
              (replicate N 0, replicate N []))
    as ([dp ch] & Hrun & Hok & Hopt); try done; try lia.
  { split; [apply length_replicate|]. split; [apply length_replicate|].
    simpl. intros v dv cv [-> _]%lookup_replicate [-> _]%lookup_replicate.
    split; [constructor|]. simpl. lia. }
  { intros v Hv ms dv Hk Hc. assert (v = 0)%nat as -> by lia.
    simpl. intros [-> _]%lookup_replicate.
    destruct ms as [|n ms]; simpl; [lia|].
    apply Forall_cons in Hk as [[it Hit] Hk].
    pose proof (positive_costs_get _ _ _ Hpos Hit).
    pose proof (ms_cost_nonneg _ _ Hpos Hk).
    simpl in Hc. unfold item_of in Hc. rewrite Hit in Hc. simpl in Hc. lia. }
  replace (Z.of_nat 1) with 1 in Hrun by done.
  rewrite Z2Nat.id in Hrun by done. rewrite Hrun. simpl.
  destruct Hok as (Hl1 & Hl2 & Hrows). simpl in Hl1, Hl2, Hrows.
  set (b := Z.to_nat budget).
  destruct (lookup_lt_is_Some_2 dp b) as [dv Hdv]; [lia|].
  destruct (lookup_lt_is_Some_2 ch b) as [cv Hcv]; [lia|].
  assert (py_get ch budget = Some cv) as Hres.
  { rewrite <- Hcv, <- (py_get_nat ch b) by lia. f_equal. lia. }
  exists cv. split; [done|].
  destruct (Hrows b dv cv Hdv Hcv) as (Hk & Hc & Hcal & _).
  split; [done|]. split; [lia|].
  intros ms Hms Hcost. rewrite Hcal.
  apply (Hopt b); [lia|done|lia|done].
Qed.

(** C6: with positive item costs and a budget >= 0, dynamic_programming
    returns a selection (items with positive multiplicities) whose total cost
    is at most the budget and whose total calories are the maximum over all
    selections of the items, with any multiplicities, that cost at most the
    budget. *)
Theorem dynamic_programming_unbounded_knapsack_optimum items budget :
  positive_costs items → 0 ≤ budget →
  ∃ selected total_cost total_calories,
    dynamic_programming items budget = Some selected ∧
    Forall (λ e, 0 < e.2) selected ∧
    calculate_totals items selected = Some (total_cost, total_calories) ∧
    total_cost ≤ budget ∧
    ∀ other c k,
      Forall (λ e, 0 ≤ e.2) other →
      calculate_totals items other = Some (c, k) → c ≤ budget →
      k ≤ total_calories.
Proof.
  intros Hpos Hb.
  destruct (dynamic_programming_spec items budget Hpos Hb)
    as (sel & Hrun & Hsel & Hcost & Hopt).
  exists sel, (sel_cost items sel), (sel_calories items sel).
  split; [done|]. split; [|split; [|split; [done|]]].
  - eapply Forall_impl; [exact Hsel|]. by intros e [_ ?].
  - apply calculate_totals_spec. eapply Forall_impl; [exact Hsel|].
    by intros e [? _].
  - intros other c k Hq Htot Hc.
    apply calculate_totals_inv in Htot as (Hk & -> & ->).
    rewrite <- expand_calories by done. apply Hopt.
    + by apply expand_known.
    + by rewrite expand_cost.
Qed.

Lemma dict_get_dict_set {V} (d : dict V) k k' v :
  dict_get (dict_set d k v) k'
  = if decide (k = k') then Some v else dict_get d k'.
Proof.
  induction d as [|[k0 v0] d IH]; simpl.
  - done.
  - destruct (decide (k0 = k)) as [->|Hne]; simpl.
    + by destruct (decide (k = k')).
    + rewrite IH. destruct (decide (k0 = k')) as [->|?]; [|done].
      by rewrite decide_False.
Qed.

Lemma greedy_item_spec items budget st name :
  positive_costs items → greedy_ok items budget st → known items name →
  ∃ st', greedy_item items st name = Some st' ∧ greedy_ok items budget st'.
Proof.
  intros Hpos (Hsel & Hcost & Hrem & Hdone) [it Hit].
  destruct st as [selected remaining]. simpl in *.
  pose proof (positive_costs_get _ _ _ Hpos Hit) as Hc.
  unfold greedy_item. rewrite Hit. simpl.
  rewrite decide_False by lia.
  destruct (decide (remaining `div` cost it > 0)) as [Hq|Hq].
  2:{ eexists. split; [done|]. by repeat split. }
  eexists. split; [done|].
  assert (dict_get selected name = None) as Hfresh.
  { destruct (dict_get selected name) as [q|] eqn:Hget; [|done].
    specialize (Hdone name q Hget). unfold item_of in Hdone.
    rewrite Hit in Hdone. simpl in Hdone.
    rewrite Z.div_small in Hq by lia. lia. }
  pose proof (Z.mod_pos_bound remaining (cost it) Hc) as Hmod.
  pose proof (Z.div_mod remaining (cost it)) as Hdm.
  split; [|split; [|split]]; simpl.
  - apply Forall_dict_set; [done|]. simpl. split; [by eexists|lia].
  - rewrite sel_cost_dict_set, Hfresh. unfold item_of. rewrite Hit. simpl. lia.
  - nia.
  - intros n q. rewrite dict_get_dict_set.
    destruct (decide (name = n)) as [<-|Hne].
    + intros _. unfold item_of. rewrite Hit. simpl. nia.
    + intros Hget. specialize (Hdone n q Hget). nia.
Qed.

Lemma greedy_loop_spec items budget : ∀ names st,
  positive_costs items → greedy_ok items budget st →
  Forall (known items) names →
  ∃ st', for_each (greedy_item items) st names = Some st' ∧
    greedy_ok items budget st'.
Proof.
  induction names as [|n names IH]; intros st Hpos Hok Hk.
  - by exists st.
  - apply Forall_cons in Hk as [Hn Hk].
    destruct (greedy_item_spec items budget st n) as (st1 & Hrun & Hok1);
      try done.
    destruct (IH st1) as (st' & Hrun' & Hok'); try done.
    exists st'. split; [|done]. simpl. by rewrite Hrun.
Qed.

Lemma ratios_defined items :
  positive_costs items → ratios_representable items →
  ¬ Exists (λ e, true_div_raises (calories e.2) (cost e.2)) items.
Proof.
  intros Hpos Hrep. rewrite Exists_exists. intros (e & He & Hraise).
  unfold positive_costs in Hpos. unfold ratios_representable in Hrep.
  rewrite Forall_forall in Hpos, Hrep.
  specialize (Hpos e He). specialize (Hrep e He).
  destruct Hraise as [H0|Hover]; lia.
Qed.

Lemma greedy_algorithm_spec ratio_order items budget :
  positive_costs items → ratios_representable items → 0 ≤ budget →
  ratio_order items ≡ₚ keys items →
  ∃ selected, greedy_algorithm ratio_order items budget = Some selected ∧
    Forall (λ e, known items e.1 ∧ 0 < e.2) selected ∧
    sel_cost items selected ≤ budget.
Proof.
  intros Hpos Hrep Hb Hperm. unfold greedy_algorithm.
  rewrite decide_False by (by apply ratios_defined).
  destruct (greedy_loop_spec items budget (ratio_order items) ([], budget))
    as ([sel rem] & Hrun & Hsel & Hcost & Hrem & _); try done.
  - split; [constructor|]. simpl. split; [lia|]. split; [done|]. done.
  - rewrite Hperm. apply keys_known.
  - rewrite Hrun. simpl in *. exists sel. split; [done|]. split; [done|]. lia.
Qed.

Lemma insert_by_ratio_perm e sorted : insert_by_ratio e sorted ≡ₚ e :: sorted.
Proof.
  induction sorted as [|e' rest IH]; simpl; [done|].
  destruct (Qle_bool _ _); [done|]. rewrite IH. apply perm_swap.
Qed.

Lemma exact_ratio_order_perm items : exact_ratio_order items ≡ₚ keys items.
Proof.
  unfold exact_ratio_order, keys. apply fmap_Permutation.
  induction items as [|e items IH]; simpl; [done|].
  by rewrite insert_by_ratio_perm, IH.
Qed.

(** C7, as amended: with positive item costs, ratios calories / cost that
    round to a float (|calories| < (2^1024 - 2^970) * cost) and a budget
    >= 0, the selection returned by greedy_algorithm costs at most the
    budget, and the selection returned by dynamic_programming has at least
    as many total calories. The order in which the greedy loop visits the
    items may be any permutation of them. *)
Theorem greedy_within_budget_dp_at_least_greedy ratio_order items budget :
  positive_costs items → ratios_representable items → 0 ≤ budget →
  ratio_order items ≡ₚ keys items →
  ∃ greedy_result greedy_cost greedy_calories dp_result dp_cost dp_calories,
    greedy_algorithm ratio_order items budget = Some greedy_result ∧
    calculate_totals items greedy_result = Some (greedy_cost, greedy_calories) ∧
    greedy_cost ≤ budget ∧
    dynamic_programming items budget = Some dp_result ∧
    calculate_totals items dp_result = Some (dp_cost, dp_calories) ∧
    greedy_calories ≤ dp_calories.
Proof.
  intros Hpos Hrep Hb Hperm.
  destruct (greedy_algorithm_spec ratio_order items budget Hpos Hrep Hb Hperm)
    as (gsel & Hgrun & Hgsel & Hgcost).
  destruct (dynamic_programming_spec items budget Hpos Hb)
    as (dsel & Hdrun & Hdsel & Hdcost & Hopt).
  exists gsel, (sel_cost items gsel), (sel_calories items gsel),
    dsel, (sel_cost items dsel), (sel_calories items dsel).
  assert (Forall (λ e, known items e.1) gsel) as Hgk.
  { eapply Forall_impl; [exact Hgsel|]. by intros e [? _]. }
  assert (Forall (λ e, 0 ≤ e.2) gsel) as Hgq.
  { eapply Forall_impl; [exact Hgsel|]. intros e [_ ?]. lia. }
  split; [done|]. split; [by apply calculate_totals_spec|]. split; [done|].
  split; [done|]. split.
  - apply calculate_totals_spec. eapply Forall_impl; [exact Hdsel|].
    by intros e [? _].
  - rewrite <- expand_calories by done. apply Hopt.
    + by apply expand_known.
    + by rewrite expand_cost.
Qed.

Lemma items_positive_costs : positive_costs items.
Proof. unfold positive_costs, items. repeat constructor. Qed.

Lemma items_ratios_representable : ratios_representable items.
Proof.
  unfold ratios_representable. apply (bool_decide_unpack _).
  vm_compute. exact I.
Qed.

(** C7, the claim as stated fails: one dish of cost 1 and 10^400 calories
    has a positive cost, and with the budget 5 dynamic_programming buys it
    five times, but greedy_algorithm raises OverflowError at
    calories / cost and returns no selection. *)
Lemma greedy_algorithm_overflow_counterexample :
  positive_costs rich_items ∧ 0 ≤ 5 ∧
  greedy_algorithm keys rich_items 5 = None ∧
  dynamic_programming rich_items 5 = Some [("feast", 5)].
Proof.
  split; [repeat constructor|]. split; [lia|].
  split; vm_compute; reflexivity.
Qed.

Example dynamic_programming_100 :
  dynamic_programming items 100 = Some [("potato", 1); ("cola", 5)].
Proof. vm_compute. reflexivity. Qed.

Example greedy_algorithm_100 :
  greedy_algorithm exact_ratio_order items 100 = Some [("cola", 6); ("pepsi", 1)].
Proof. vm_compute. reflexivity. Qed.

Lemma dynamic_programming_unbounded_knapsack_optimum_witness :
  ∃ selected total_cost total_calories,
    dynamic_programming items 100 = Some selected ∧
    Forall (λ e, 0 < e.2) selected ∧
    calculate_totals items selected = Some (total_cost, total_calories) ∧
    total_cost ≤ 100 ∧
    ∀ other c k,
      Forall (λ e, 0 ≤ e.2) other →
      calculate_totals items other = Some (c, k) → c ≤ 100 →
      k ≤ total_calories.
Proof.
  apply (dynamic_programming_unbounded_knapsack_optimum items 100).
  - exact items_positive_costs.
  - lia.
Defined.

Lemma greedy_within_budget_dp_at_least_greedy_witness :
  ∃ greedy_result greedy_cost greedy_calories dp_result dp_cost dp_calories,
    greedy_algorithm exact_ratio_order items 100 = Some greedy_result ∧
    calculate_totals items greedy_result = Some (greedy_cost, greedy_calories) ∧
    greedy_cost ≤ 100 ∧
    dynamic_programming items 100 = Some dp_result ∧
    calculate_totals items dp_result = Some (dp_cost, dp_calories) ∧
    greedy_calories ≤ dp_calories.
Proof.
  apply (greedy_within_budget_dp_at_least_greedy exact_ratio_order items 100).
  - exact items_positive_costs.
  - exact items_ratios_representable.
  - lia.
  - apply exact_ratio_order_perm.
Defined.

Lemma calculate_totals_unknown_acc items sel : ∀ acc,
  Exists (λ e, ¬ known items e.1) sel →
  for_each (λ '(total_cost, total_calories) '(name, quantity),
      it ← dict_get items name;
      Some (total_cost + cost it * quantity,
            total_calories + calories it * quantity))
    acc sel = None.
Proof.
  induction sel as [|[n q] sel IH]; intros [c0 k0] Hex.
  - by apply Exists_nil in Hex.
  - simpl. destruct (dict_get items n) as [it|] eqn:Hit; simpl; [|done].
    apply Exists_cons in Hex as [Hn|Hex]; [|by apply IH].
    exfalso. apply Hn. by exists it.
Qed.

(** X17: calculate_totals returns the sums of cost * quantity and of
    calories * quantity over the selection when every selected name is a key
    of items, and raises (KeyError) exactly when some selected name is not. *)
Theorem calculate_totals_sums_or_key_error items selected :
  (Forall (λ e, known items e.1) selected →
   calculate_totals items selected
   = Some (sel_cost items selected, sel_calories items selected)) ∧
  (calculate_totals items selected = None ↔
   Exists (λ e, ¬ known items e.1) selected).
Proof.
  split; [apply calculate_totals_spec|]. split.
  - intros Hnone. apply not_Forall_Exists; [intros e; apply _|].
    intros Hk. by rewrite calculate_totals_spec in Hnone.
  - apply calculate_totals_unknown_acc.
Qed.

Lemma greedy_item_leftover items st name st' :
  positive_costs items → 0 ≤ st.2 →
  greedy_item items st name = Some st' →
  0 ≤ st'.2 ≤ st.2 ∧
  ∀ it, dict_get items name = Some it → st'.2 < cost it.
Proof.
  intros Hpos Hrem. destruct st as [selected remaining]. simpl in *.
  unfold greedy_item. destruct (dict_get items name) as [it|] eqn:Hit; [|done].
  simpl. pose proof (positive_costs_get _ _ _ Hpos Hit) as Hc.
  rewrite decide_False by lia.
  pose proof (Z.mod_pos_bound remaining (cost it) Hc) as Hmod.
  pose proof (Z.div_mod remaining (cost it)) as Hdm.
  pose proof (Z.div_pos remaining (cost it) Hrem Hc) as Hq0.
  destruct (decide (remaining `div` cost it > 0)) as [Hq|Hq];
    intros [= <-]; simpl.
  - split; [nia|]. intros it' [= <-]. nia.
  - split; [lia|]. intros it' [= <-]. nia.
Qed.

Lemma greedy_loop_leftover items : ∀ names st st',
  positive_costs items → 0 ≤ st.2 →
  for_each (greedy_item items) st names = Some st' →
  0 ≤ st'.2 ≤ st.2 ∧
  ∀ n it, n ∈ names → dict_get items n = Some it → st'.2 < cost it.
Proof.
  induction names as [|n names IH]; intros st st' Hpos Hrem; simpl.
  - intros [= <-]. split; [lia|]. intros n it Hn. by apply elem_of_nil in Hn.
  - destruct (greedy_item items st n) as [st1|] eqn:Hstep; simpl; [|done].
    intros Hrun.
    destruct (greedy_item_leftover items st n st1 Hpos Hrem Hstep) as [Hb1 Hn1].
    destruct (IH st1 st' Hpos) as [Hb Hrest]; [lia|done|].
    split; [lia|]. intros m it [->|Hm]%elem_of_cons Hit.
    + specialize (Hn1 it Hit). lia.
    + by apply (Hrest m).
Qed.

(** X18: with positive item costs, ratios calories / cost that round to a
    float and a budget >= 0, greedy_algorithm spends as much as its order
    allows: the part of the budget that its selection leaves unspent is
    smaller than the cost of every item, so that no further item could be
    bought. *)
Theorem greedy_algorithm_leaves_no_affordable_item ratio_order items budget :
  positive_costs items → ratios_representable items → 0 ≤ budget →
  ratio_order items ≡ₚ keys items →
  ∃ selected total_cost total_calories,
    greedy_algorithm ratio_order items budget = Some selected ∧
    calculate_totals items selected = Some (total_cost, total_calories) ∧
    0 ≤ budget - total_cost ∧
    ∀ name it, dict_get items name = Some it → budget - total_cost < cost it.
Proof.
  intros Hpos Hrep Hb Hperm.
  destruct (greedy_loop_spec items budget (ratio_order items) ([], budget))
    as ([sel rem] & Hrun & Hsel & Hcost & Hrem & _); try done.
  { split; [constructor|]. simpl. split; [lia|]. split; [done|]. done. }
  { rewrite Hperm. apply keys_known. }
  destruct (greedy_loop_leftover items (ratio_order items) ([], budget) (sel, rem))
    as [_ Hleft]; try done.
  simpl in *. exists sel, (sel_cost items sel), (sel_calories items sel).
  split; [|split; [|split]].
  - unfold greedy_algorithm.
    rewrite decide_False by (by apply ratios_defined). by rewrite Hrun.
  - apply calculate_totals_spec. eapply Forall_impl; [exact Hsel|].
    by intros e [? _].
  - lia.
  - intros name it Hit. rewrite Hcost.
    replace (budget - (budget - rem)) with rem by lia.
    apply (Hleft name it); [|done]. rewrite Hperm.
    apply known_keys. by exists it.
Qed.

Lemma greedy_loop_nothing items budget : ∀ names,
  positive_costs items → Forall (λ e, budget < cost e.2) items →
  Forall (known items) names →
  for_each (greedy_item items) ([], budget) names = Some ([], budget).
Proof.
  intros names Hpos Hlt. induction 1 as [|n names [it Hit] _ IH]; [done|].
  cbn [for_each].
  assert (greedy_item items ([], budget) n = Some ([], budget)) as ->; [|done].
  unfold greedy_item. rewrite Hit. simpl.
  pose proof (positive_costs_get _ _ _ Hpos Hit) as Hc.
  pose proof (dict_get_Forall _ _ _ _ Hlt Hit) as Hb. simpl in Hb.
  rewrite decide_False by lia.
  rewrite decide_False; [done|].
  destruct (decide (0 ≤ budget)).
  - rewrite Z.div_small by lia. lia.
  - pose proof (Z.div_lt_upper_bound budget (cost it) 0). lia.
Qed.

Lemma dp_row_nothing items (w : Z) st : ∀ names,
  Forall (λ e, w < cost e.2) items → Forall (known items) names →
  for_each (dp_item items w) st names = Some st.
Proof.
  intros names Hlt. induction 1 as [|n names [it Hit] _ IH]; [done|].
  cbn [for_each].
  assert (dp_item items w st n = Some st) as ->; [|done].
  unfold dp_item. destruct st as [dp choices]. rewrite Hit. simpl.
  pose proof (dict_get_Forall _ _ _ _ Hlt Hit) as Hb. simpl in Hb.
  by rewrite decide_False by lia.
Qed.

Lemma dp_table_nothing items budget st : ∀ ws,
  Forall (λ e, budget < cost e.2) items → Forall (λ w, w ≤ budget) ws →
  for_each (λ st w, for_each (dp_item items w) st (keys items)) st ws = Some st.
Proof.
  intros ws Hlt. induction 1 as [|w ws Hw _ IH]; [done|].
  simpl. rewrite dp_row_nothing; [done| |apply keys_known].
  eapply Forall_impl; [exact Hlt|]. simpl. intros e He. lia.
Qed.

(** X19: when the budget is below the cost of every item, the costs are
    positive and the ratios calories / cost round to a float,
    greedy_algorithm returns the empty selection; so does
    dynamic_programming when the budget is below every cost and >= 0. *)
Theorem budget_below_every_cost_selects_nothing ratio_order items budget :
  positive_costs items → ratios_representable items →
  Forall (λ e, budget < cost e.2) items →
  ratio_order items ≡ₚ keys items →
  greedy_algorithm ratio_order items budget = Some [] ∧
  (0 ≤ budget → dynamic_programming items budget = Some []).
Proof.
  intros Hpos Hrep Hlt Hperm. split.
  - unfold greedy_algorithm.
    rewrite decide_False by (by apply ratios_defined).
    rewrite greedy_loop_nothing; [done|done|done|].
    rewrite Hperm. apply keys_known.
  - intros Hb. unfold dynamic_programming.
    rewrite (dp_table_nothing items budget); [|done|].
    + simpl. replace budget with (Z.of_nat (Z.to_nat budget)) at 2 by lia.
      rewrite py_get_nat by (rewrite length_replicate; lia).
      apply lookup_replicate. split; [done|lia].
    + apply Forall_forall. intros w Hw. apply elem_of_seqZ in Hw. lia.
Qed.

(** X20: with a negative budget dynamic_programming raises (IndexError):
    its tables are empty and choices[budget] is out of range, whatever the
    items are. *)
Theorem dynamic_programming_negative_budget items budget :
  budget < 0 → dynamic_programming items budget = None.
Proof.
  intros Hb. unfold dynamic_programming.
  replace (Z.to_nat (budget + 1)) with 0%nat by lia.
  replace (seqZ 1 budget) with (@nil Z).
  - simpl. unfold py_get, py_index. simpl.
    rewrite decide_False by lia. rewrite decide_False by lia. done.
  - unfold seqZ. by replace (Z.to_nat budget) with 0%nat by lia.
Qed.

Lemma greedy_loop_total items : ∀ names st,
  ¬ Exists (λ e, true_div_raises (calories e.2) (cost e.2)) items →
  Forall (known items) names →
  is_Some (for_each (greedy_item items) st names).
Proof.
  intros names st Hnz Hk. revert st.
  induction Hk as [|n names [it Hit] _ IH]; intros st; [by eexists|].
  cbn [for_each].
  assert (is_Some (greedy_item items st n)) as [st1 ->]; [|apply IH].
  unfold greedy_item. destruct st as [selected remaining].
  rewrite Hit. simpl. rewrite decide_False.
  - destruct (decide _); by eexists.
  - intros H0. apply Hnz, Exists_exists. exists (n, it).
    split; [by apply dict_get_Some_elem|by left].
Qed.

(** X21: greedy_algorithm raises exactly when the division calories / cost
    raises for some item, for every budget: when the cost is 0
    (ZeroDivisionError) or the ratio is too large for a float
    (OverflowError, |calories| >= (2^1024 - 2^970) * |cost|); otherwise it
    returns a selection, also when costs or the budget are negative. *)
Theorem greedy_algorithm_raises_iff_ratio_undefined ratio_order items budget :
  ratio_order items ≡ₚ keys items →
  (greedy_algorithm ratio_order items budget = None ↔
   Exists (λ e, cost e.2 = 0 ∨
                float_overflow_threshold * Z.abs (cost e.2)
                ≤ Z.abs (calories e.2)) items).
Proof.
  intros Hperm. unfold greedy_algorithm.
  change (Exists _ items)
    with (Exists (λ e, true_div_raises (calories e.2) (cost e.2)) items).
  destruct (decide (Exists _ items)) as [H0|Hnz]; [done|].
  split; [|done].
  destruct (greedy_loop_total items (ratio_order items) ([], budget) Hnz)
    as [[sel rem] Hrun]; [rewrite Hperm; apply keys_known|].
  by rewrite Hrun.
Qed.

(** X22: with positive item costs, a larger budget never gives fewer
    calories: for 0 <= b1 <= b2 the selection of dynamic_programming for b2
    has at least the total calories of its selection for b1. *)
Theorem dynamic_programming_monotone_in_budget items b1 b2 :
  positive_costs items → 0 ≤ b1 → b1 ≤ b2 →
  ∃ s1 c1 k1 s2 c2 k2,
    dynamic_programming items b1 = Some s1 ∧
    calculate_totals items s1 = Some (c1, k1) ∧
    dynamic_programming items b2 = Some s2 ∧
    calculate_totals items s2 = Some (c2, k2) ∧
    k1 ≤ k2.
Proof.
  intros Hpos Hb1 Hle.
  destruct (dynamic_programming_spec items b1 Hpos Hb1)
    as (s1 & Hrun1 & Hsel1 & Hcost1 & _).
  destruct (dynamic_programming_spec items b2 Hpos)
    as (s2 & Hrun2 & Hsel2 & Hcost2 & Hopt2); [lia|].
  exists s1, (sel_cost items s1), (sel_calories items s1),
    s2, (sel_cost items s2), (sel_calories items s2).
  assert (Forall (λ e, known items e.1) s1) as Hk1.
  { eapply Forall_impl; [exact Hsel1|]. by intros e [? _]. }
  assert (Forall (λ e, 0 ≤ e.2) s1) as Hq1.
  { eapply Forall_impl; [exact Hsel1|]. intros e [_ ?]. lia. }
  split; [done|]. split; [by apply calculate_totals_spec|].
  split; [done|]. split.
  - apply calculate_totals_spec. eapply Forall_impl; [exact Hsel2|].
    by intros e [? _].
  - rewrite <- expand_calories by done. apply Hopt2.
    + by apply expand_known.
    + rewrite expand_cost by done. lia.
Qed.

Lemma calculate_totals_sums_or_key_error_witness :
  calculate_totals items [("pizza", 1); ("cola", 2)]
  = Some (sel_cost items [("pizza", 1); ("cola", 2)],
          sel_calories items [("pizza", 1); ("cola", 2)]).
Proof.
  apply (proj1 (calculate_totals_sums_or_key_error items [("pizza", 1); ("cola", 2)])).
  repeat constructor; by eexists.
Defined.

Lemma greedy_algorithm_leaves_no_affordable_item_witness :
  ∃ selected total_cost total_calories,
    greedy_algorithm exact_ratio_order items 100 = Some selected ∧
    calculate_totals items selected = Some (total_cost, total_calories) ∧
    0 ≤ 100 - total_cost ∧
    ∀ name it, dict_get items name = Some it → 100 - total_cost < cost it.
Proof.
  apply (greedy_algorithm_leaves_no_affordable_item exact_ratio_order items 100).
  - exact items_positive_costs.
  - exact items_ratios_representable.
  - lia.
  - apply exact_ratio_order_perm.
Defined.

Lemma budget_below_every_cost_selects_nothing_witness :
  greedy_algorithm exact_ratio_order items 9 = Some [] ∧
  (0 ≤ 9 → dynamic_programming items 9 = Some []).
Proof.
  apply (budget_below_every_cost_selects_nothing exact_ratio_order items 9).
  - exact items_positive_costs.
  - exact items_ratios_representable.
  - unfold items. repeat constructor.
  - apply exact_ratio_order_perm.
Defined.

Lemma dynamic_programming_negative_budget_witness :
  dynamic_programming items (-1) = None.
Proof. apply (dynamic_programming_negative_budget items (-1)). lia. Defined.

Lemma greedy_algorithm_raises_iff_ratio_undefined_witness :
  greedy_algorithm exact_ratio_order items 100 = None ↔
  Exists (λ e, cost e.2 = 0 ∨
               float_overflow_threshold * Z.abs (cost e.2)
               ≤ Z.abs (calories e.2)) items.
Proof.
  apply (greedy_algorithm_raises_iff_ratio_undefined exact_ratio_order items 100).
  apply exact_ratio_order_perm.
Defined.

Lemma dynamic_programming_monotone_in_budget_witness :
  ∃ s1 c1 k1 s2 c2 k2,
    dynamic_programming items 50 = Some s1 ∧
    calculate_totals items s1 = Some (c1, k1) ∧
    dynamic_programming items 100 = Some s2 ∧
    calculate_totals items s2 = Some (c2, k2) ∧
    k1 ≤ k2.
Proof.
  apply (dynamic_programming_monotone_in_budget items 50 100).
  - exact items_positive_costs.
  - lia.
  - lia.
Defined.

End Task6.
